(** * The n-band semiconductor-Bloch-equation propagator and its parameter
      parsers: a shallow embedding and the properties proved about it.

Sources embedded here:
- [sbe/solver/solver_n_bands.py]: [rhs_of_sbe], [make_fnumba] / [fnumba],
  [initial_condition], [fourier], [write_current_emission] and the
  time-window arithmetic of [sbe_solver_n_bands];
- [sbe/solver/params_parser.py]: [parse_params];
- [cued/utility/params_parser.py]: class [ParamsParser].

The solver is stated over an abstract scalar type with the operations the
code applies, in the order the code applies them; algebraic laws are
assumed only by the results that need them, and an exact instance
(Gaussian rationals) runs the definitions on concrete inputs.  The
time-window arithmetic, where the code truncates a quotient, is IEEE
floating-point arithmetic: binary64 for Python's [float] and numpy's
[float64], the extended format of x86-64 for [np.float128]. *)

From Stdlib Require Import ZArith QArith Qcanon Qround Qabs Lia Lqa List String Ring.
From Stdlib Require Floats.SpecFloat.
From stdpp Require Import base option list gmap sets strings.

Local Open Scope nat_scope.

(* ================================================================== *)
(** * Part I: definitions *)
(* ================================================================== *)

(** ** Python outcomes: a value, or an exception that ends the run *)

Inductive exn : Type :=
| SystemExit (msg : option string) (* sys.exit(msg), quit(msg), sys.exit() *)
| AttributeError (what : string)   (* the missing attribute, or the message *)
| TypeError
| ValueError                       (* numpy: operands could not be broadcast *)
| IndexError
| ZeroDivisionError
| OverflowError.

Inductive outcome (A : Type) : Type :=
| Ok (a : A)
| Raise (e : exn).
Arguments Ok {A} a.
Arguments Raise {A} e.

#[global] Instance outcome_ret : MRet outcome := fun _ a => Ok a.
#[global] Instance outcome_bind : MBind outcome :=
  fun _ _ f m => match m with Ok a => f a | Raise e => Raise e end.

Definition is_ok {A} (o : outcome A) : bool :=
  match o with Ok _ => true | Raise _ => false end.

(** [for k in range(n): s = body(k, s)] *)
Definition for_range {S : Type} (n : nat) (body : nat -> S -> S) (s : S) : S :=
  fold_left (fun s k => body k s) (seq 0 n) s.

(** The same loop when the body can raise. *)
Definition for_range_m {S : Type} (n : nat) (body : nat -> S -> outcome S) (s : S)
  : outcome S :=
  fold_left (fun acc k => s ← acc; body k s) (seq 0 n) (Ok s).

(** ** Printing and exiting: a run that writes lines, then returns or raises *)

Record py (A : Type) : Type := Py { printed : list string; result : outcome A }.
Arguments Py {A} printed result.
Arguments printed {A} _.
Arguments result {A} _.

#[global] Instance py_ret : MRet py := fun _ a => Py [] (Ok a).
#[global] Instance py_bind : MBind py :=
  fun _ _ f m =>
    match m with
    | Py out (Ok a) => match f a with Py out' r => Py (out ++ out') r end
    | Py out (Raise e) => Py out (Raise e)
    end.

Definition print (line : string) : py unit := Py [line] (Ok tt).
Definition raise {A : Type} (e : exn) : py A := Py [] (Raise e).
Definition lift {A : Type} (o : outcome A) : py A := Py [] o.

(** ** Scalars: the numbers of the solver (Python floats and complex) *)

Class Scalar (C : Type) : Type := {
  c0 : C;                       (* 0 *)
  c1 : C;                       (* 1 *)
  cj : C;                       (* 1j *)
  cadd : C -> C -> C;
  csub : C -> C -> C;
  cmul : C -> C -> C;
  cdiv : C -> C -> C;
  cneg : C -> C;
  cgtb : C -> C -> bool;        (* x > y, numpy's order on complex numbers *)
  ceqb : C -> C -> bool;        (* x == y *)
  cofQ : Q -> C                 (* a numeric literal *)
}.

(** Functions of numpy that the solver calls; they are not part of the
    repository and stay uninterpreted. *)
Class Numpy (C : Type) : Type := {
  np_exp : C -> C;
  np_sqrt : C -> C;
  np_pi : C;
  np_abs : C -> C;
  np_fft : list C -> list C     (* numpy.fft.fft on a 1-d array *)
}.

(** Exact arithmetic: the laws used by the results that need algebra. *)
Class ScalarLaws (C : Type) `{Scalar C} : Prop := {
  scalar_ring : ring_theory c0 c1 cadd cmul csub cneg (@eq C);
  cdiv_0_l : forall x : C, x <> c0 -> cdiv c0 x = c0;
  cgtb_sub_0 : forall a b : C, cgtb (csub a b) c0 = cgtb a b;
  ceqb_eq : forall a b : C, ceqb a b = true <-> a = b
}.

(** *** An exact instance: Gaussian rationals *)

Record GQ : Type := mkGQ { gre : Qc; gim : Qc }.

Definition GQ_add (x y : GQ) : GQ := mkGQ (gre x + gre y)%Qc (gim x + gim y)%Qc.
Definition GQ_sub (x y : GQ) : GQ := mkGQ (gre x - gre y)%Qc (gim x - gim y)%Qc.
Definition GQ_neg (x : GQ) : GQ := mkGQ (- gre x)%Qc (- gim x)%Qc.
Definition GQ_mul (x y : GQ) : GQ :=
  mkGQ (gre x * gre y - gim x * gim y)%Qc (gre x * gim y + gim x * gre y)%Qc.
Definition GQ_norm2 (x : GQ) : Qc := (gre x * gre x + gim x * gim x)%Qc.
Definition GQ_div (x y : GQ) : GQ :=
  mkGQ ((gre x * gre y + gim x * gim y) / GQ_norm2 y)%Qc
       ((gim x * gre y - gre x * gim y) / GQ_norm2 y)%Qc.
(** numpy orders complex numbers by real part, then by imaginary part. *)
Definition Qc_ltb (a b : Qc) : bool :=
  match (a ?= b)%Qc with Lt => true | _ => false end.
Definition GQ_gtb (x y : GQ) : bool :=
  Qc_ltb (gre y) (gre x) || (Qc_eq_bool (gre x) (gre y) && Qc_ltb (gim y) (gim x)).
Definition GQ_eqb (x y : GQ) : bool :=
  Qc_eq_bool (gre x) (gre y) && Qc_eq_bool (gim x) (gim y).
Definition GQ_ofQ (q : Q) : GQ := mkGQ (Q2Qc q) (Q2Qc 0).

#[global] Instance GQ_scalar : Scalar GQ := {|
  c0 := GQ_ofQ 0; c1 := GQ_ofQ 1; cj := mkGQ (Q2Qc 0) (Q2Qc 1);
  cadd := GQ_add; csub := GQ_sub; cmul := GQ_mul; cdiv := GQ_div;
  cneg := GQ_neg; cgtb := GQ_gtb; ceqb := GQ_eqb; cofQ := GQ_ofQ
|}.

(** A stand-in for numpy on the exact instance: [np_exp], [np_sqrt],
    [np_pi] and [np_abs] have irrational values, so the instance only fixes
    some function of the right type; [np_fft] is the discrete Fourier
    transform of length 1 and 2 and the identity beyond.  No result depends
    on these choices. *)
Definition GQ_fft (l : list GQ) : list GQ :=
  match l with
  | [a; b] => [GQ_add a b; GQ_sub a b]
  | _ => l
  end.

#[global] Instance GQ_numpy : Numpy GQ := {|
  np_exp := fun x => GQ_add (GQ_ofQ 1) x;
  np_sqrt := fun x => x;
  np_pi := GQ_ofQ (355 # 113);
  np_abs := fun x => mkGQ (GQ_norm2 x) (Q2Qc 0);
  np_fft := GQ_fft
|}.

(** ** Arrays *)

(** A 2-d and a 3-d numpy array read by index. *)
Definition tensor2 (C : Type) : Type := nat -> nat -> C.
Definition tensor3 (C : Type) : Type := nat -> nat -> nat -> C.

(** A 2-d array with its shape, as [e_in_path] of shape [(Nk1, n)]. *)
Record ndarray2 (C : Type) : Type := { rows : nat; cols : nat; at2 : tensor2 C }.
Arguments rows {C} _.
Arguments cols {C} _.
Arguments at2 {C} _ _ _.

Section Arrays.
Context {C : Type} `{Scalar C}.
#[local] Abbreviation tensor2 := (tensor2 C).
#[local] Abbreviation tensor3 := (tensor3 C).

(** [np.zeros(shape)] *)
Definition zeros3 : tensor3 := fun _ _ _ => c0.

(** [T[k, r, c] += v] and [T[k, r, c] -= v] *)
Definition iadd3 (T : tensor3) (k r c : nat) (v : C) : tensor3 :=
  fun k' r' c' =>
    if (k' =? k) && (r' =? r) && (c' =? c) then cadd (T k' r' c') v else T k' r' c'.
Definition isub3 (T : tensor3) (k r c : nat) (v : C) : tensor3 :=
  fun k' r' c' =>
    if (k' =? k) && (r' =? r) && (c' =? c) then csub (T k' r' c') v else T k' r' c'.

(** [a.flatten('C')] of an array of shape [(d0, d1, d2)]: row-major order. *)
Definition flatten3 (d0 d1 d2 : nat) (T : tensor3) : list C :=
  map (fun idx => T (idx / (d1 * d2)) ((idx / d2) mod d1) (idx mod d2))
      (seq 0 (d0 * d1 * d2)).

(** [a / b] on Python numbers: a zero divisor raises. *)
Definition py_div (a b : C) : outcome C :=
  if ceqb b c0 then Raise ZeroDivisionError else Ok (cdiv a b).

(** [y[lo:hi]] for [0 <= lo], [0 <= hi]: Python clamps the bounds. *)
Definition slice (lo hi : nat) (y : list C) : list C := take (hi - lo) (drop lo y).

(** numpy broadcasting of two 1-d operands. *)
Definition broadcastable (a b : nat) : bool := (a =? b) || (a =? 1) || (b =? 1).

Definition bcast2 (f : C -> C -> C) (u v : list C) : list C :=
  if length u =? length v then zip_with f u v
  else if length u =? 1 then map (f (hd c0 u)) v
  else map (fun a => f a (hd c0 v)) u.

(** [u - v] on 1-d arrays *)
Definition np_sub (u v : list C) : outcome (list C) :=
  if broadcastable (length u) (length v) then Ok (bcast2 csub u v) else Raise ValueError.

(** [s * v] for a scalar [s] *)
Definition np_scale (s : C) (v : list C) : list C := map (cmul s) v.

(** [np.dot(M, v)] for [M] of shape [(sz, sz)]: the sum is taken from the
    left, starting at 0. *)
Definition dot_row (sz : nat) (M : tensor2) (v : list C) (r : nat) : C :=
  fold_left (fun acc c => cadd acc (cmul (M r c) (nth c v c0))) (seq 0 sz) c0.
Definition np_dot (sz : nat) (M : tensor2) (v : list C) : outcome (list C) :=
  if length v =? sz then Ok (map (dot_row sz M v) (seq 0 sz)) else Raise ValueError.

(** [x[lo:hi] += v]: the right-hand side is broadcast to the slice. *)
Definition iadd_slice (x : list C) (lo hi : nat) (v : list C) : outcome (list C) :=
  let old := slice lo hi x in
  if (length v =? length old) || (length v =? 1) then
    Ok (take lo x ++ bcast2 cadd old v ++ drop (lo + length old) x)
  else Raise ValueError.

(** [x[-1] = v] *)
Definition set_last (x : list C) (v : C) : outcome (list C) :=
  match x with
  | [] => Raise IndexError
  | _ => Ok (<[length x - 1 := v]> x)
  end.
End Arrays.

(** ** [sbe/solver/solver_n_bands.py] *)

Module Sbe.
Section Solver.
Context {C : Type} `{Scalar C} `{Numpy C}.
#[local] Abbreviation tensor2 := (tensor2 C).
#[local] Abbreviation tensor3 := (tensor3 C).
#[local] Abbreviation ndarray2 := (ndarray2 C).

(** The attributes of [params] read by the numerical core. *)
Record params : Type := { n : nat; Nk1 : nat }.

(** The four Liouville tensors, each of shape [(Nk1, n**2, n**2)]. *)
Record rhs_tensors : Type := {
  rhs_dipole : tensor3;
  rhs_e : tensor3;
  rhs_gamma1 : tensor3;
  rhs_gamma2 : tensor3
}.

Definition set_dipole (f : tensor3 -> tensor3) (s : rhs_tensors) : rhs_tensors :=
  {| rhs_dipole := f (rhs_dipole s); rhs_e := rhs_e s;
     rhs_gamma1 := rhs_gamma1 s; rhs_gamma2 := rhs_gamma2 s |}.
Definition set_e (f : tensor3 -> tensor3) (s : rhs_tensors) : rhs_tensors :=
  {| rhs_dipole := rhs_dipole s; rhs_e := f (rhs_e s);
     rhs_gamma1 := rhs_gamma1 s; rhs_gamma2 := rhs_gamma2 s |}.
Definition set_gamma1 (f : tensor3 -> tensor3) (s : rhs_tensors) : rhs_tensors :=
  {| rhs_dipole := rhs_dipole s; rhs_e := rhs_e s;
     rhs_gamma1 := f (rhs_gamma1 s); rhs_gamma2 := rhs_gamma2 s |}.
Definition set_gamma2 (f : tensor3 -> tensor3) (s : rhs_tensors) : rhs_tensors :=
  {| rhs_dipole := rhs_dipole s; rhs_e := rhs_e s;
     rhs_gamma1 := rhs_gamma1 s; rhs_gamma2 := f (rhs_gamma2 s) |}.

(** lines 43-44: [gamma1 = 1/T1] and [gamma2 = 1/T2] *)
Definition damping (T : C) : C := cdiv c1 T.

(** *** [rhs_of_sbe] (lines 249-272)

    [dipole_in_path] has shape [(Nk1, n, n)] and [e_in_path] shape
    [(Nk1, n)] (lines 133-134), so every read of the loops is in range. *)
Section Rhs_of_sbe.
Variable p : params.
Variable dipole_in_path : tensor3.
Variable e_in_path : tensor2.
Variables gamma1 gamma2 : C.

(** the body of [for j in range(n)] *)
Definition rhs_body_j (k m i j : nat) (s : rhs_tensors) : rhs_tensors :=
  let s := set_dipole (fun T => iadd3 T k (m * n p + i) (m * n p + j)
                                  (cmul (cneg cj) (dipole_in_path k i j))) s in
  if i =? j then
    let s := set_e (fun T => iadd3 T k (m * n p + i) (m * n p + j)
                               (cmul (cneg cj) (csub (e_in_path k m) (e_in_path k i)))) s in
    if m =? i then
      set_gamma1 (fun T => iadd3 T k (m * n p + i) (m * n p + j) (cneg gamma1)) s
    else
      set_gamma2 (fun T => iadd3 T k (m * n p + i) (m * n p + j) (cneg gamma2)) s
  else s.

(** the body of the second [for i in range(n)], inside [for l in range(n)] *)
Definition rhs_body_l (k m l i : nat) (s : rhs_tensors) : rhs_tensors :=
  set_dipole (fun T => isub3 T k (m * n p + i) (l * n p + i)
                         (cmul (cneg cj) (dipole_in_path k m l))) s.

(** the body of [for m in range(n)] *)
Definition rhs_body_m (k m : nat) (s : rhs_tensors) : rhs_tensors :=
  let s := for_range (n p) (fun i => for_range (n p) (rhs_body_j k m i)) s in
  for_range (n p) (fun l => for_range (n p) (rhs_body_l k m l)) s.

Definition rhs_of_sbe : rhs_tensors :=
  let Nk_path := Nk1 p in
  for_range Nk_path (fun k => for_range (n p) (rhs_body_m k))
    {| rhs_dipole := zeros3; rhs_e := zeros3;
       rhs_gamma1 := zeros3; rhs_gamma2 := zeros3 |}.
End Rhs_of_sbe.

(** *** [fnumba], the closure returned by [make_fnumba] (lines 284-309) *)
Section Fnumba.
Variable n_bands : nat.                  (* [n], captured by the closure *)
Variable electric_field : C -> C.        (* the driving field, captured *)

(** the neighbour indices [(i_k, j_k)] chosen at index [k] *)
Definition neighbours (Nk : nat) (k : nat) : nat * nat :=
  if k =? 0 then (k + 1, Nk - 1)
  else if k =? Nk - 1 then (0, k - 1)
  else (k + 1, k - 1).

(** [v[a*(n**2):(a+1)*(n**2)]] *)
Definition block (a : nat) (v : list C) : list C :=
  slice (a * (n_bands * n_bands)) ((a + 1) * (n_bands * n_bands)) v.

(** [electric_f*rhs_dipole[k, :, :] + rhs_e[k, :, :] + rhs_gamma2[k, :, :]] *)
Definition liouville (electric_f : C) (rhs : rhs_tensors) (k : nat) : tensor2 :=
  fun r c => cadd (cadd (cmul electric_f (rhs_dipole rhs k r c)) (rhs_e rhs k r c))
                  (rhs_gamma2 rhs k r c).

(** the body of [for k in range(Nk1)]; the tensors have shape
    [(Nk1, n**2, n**2)] for the [n] of the closure (lines 107 and 178) *)
Definition fnumba_body (electric_f D : C) (y : list C) (rhs : rhs_tensors)
    (y0 : list C) (Nk : nat) (k : nat) (x : list C) : outcome (list C) :=
  let '(i_k, j_k) := neighbours Nk k in
  let lo := k * (n_bands * n_bands) in
  let hi := (k + 1) * (n_bands * n_bands) in
  v1 ← np_dot (n_bands * n_bands) (liouville electric_f rhs k) (block k y);
  x ← iadd_slice x lo hi v1;
  d ← np_sub (block i_k y) (block j_k y);
  x ← iadd_slice x lo hi (np_scale D d);
  dy ← np_sub (block k y) (block k y0);
  v3 ← np_dot (n_bands * n_bands) (rhs_gamma1 rhs k) dy;
  iadd_slice x lo hi v3.

Definition fnumba (t : C) (y : list C) (rhs : rhs_tensors) (y0 : list C)
    (p : params) (dk : C) : outcome (list C) :=
  let x := replicate (length y) c0 in
  let electric_f := electric_field t in
  D ← py_div electric_f (cmul (cofQ 2) dk);
  x ← for_range_m (Nk1 p) (fnumba_body electric_f D y rhs y0 (Nk1 p)) x;
  set_last x (cneg electric_f).

(** What one pass of the loop body leaves in [x[k*(n**2):(k+1)*(n**2)]],
    starting from the zeros of [np.zeros], for neighbour indices [(i_k, j_k)]:
    the three [+=] in turn. *)
Definition block_update (electric_f D : C) (y : list C) (rhs : rhs_tensors)
    (y0 : list C) (k i_k j_k : nat) : list C :=
  let sz := n_bands * n_bands in
  let b1 := bcast2 cadd (replicate sz c0)
              (map (dot_row sz (liouville electric_f rhs k) (block k y)) (seq 0 sz)) in
  let b2 := bcast2 cadd b1 (np_scale D (bcast2 csub (block i_k y) (block j_k y))) in
  bcast2 cadd b2
    (map (dot_row sz (rhs_gamma1 rhs k) (bcast2 csub (block k y) (block k y0)))
         (seq 0 sz)).

(** with the neighbours the code selects *)
Definition fnumba_block (electric_f D : C) (y : list C) (rhs : rhs_tensors)
    (y0 : list C) (Nk : nat) (k : nat) : list C :=
  block_update electric_f D y rhs y0 k (neighbours Nk k).1 (neighbours Nk k).2.

(** The neighbours of the specification: [k+1] and [k-1] modulo [Nk1]. *)
Definition periodic_neighbours (Nk : nat) (k : nat) : nat * nat :=
  ((k + 1) mod Nk, (k + Nk - 1) mod Nk).

(** The right-hand side of the specification at k-point [k]:
    [(E(t)*dipole + energy + coherence-decay).y_k + D*(y_{k+1} - y_{k-1})
     + population-decay.(y_k - y0_k)] with periodic neighbours. *)
Definition periodic_block (electric_f D : C) (y : list C) (rhs : rhs_tensors)
    (y0 : list C) (Nk : nat) (k : nat) : list C :=
  block_update electric_f D y rhs y0 k
    (periodic_neighbours Nk k).1 (periodic_neighbours Nk k).2.
End Fnumba.

(** [make_fnumba] (lines 275-313): the gauge is announced or refused, then
    the closure is returned.  ([E_dir], [gamma1], [gamma2] and [do_semicl]
    are accepted and not used.) *)
Definition make_fnumba (n_bands : nat) (electric_field : C -> C) (gauge : string)
  : py (C -> list C -> rhs_tensors -> list C -> params -> C -> outcome (list C)) :=
  _ ← (if String.eqb gauge "length" then print "Using length gauge"
       else if String.eqb gauge "velocity" then print "Using velocity gauge"
       else raise (AttributeError "You have to either assign velocity or length gauge"));
  mret (fnumba n_bands electric_field).

(** *** [initial_condition] (lines 354-370) *)

(** [np.diag(v)] *)
Definition np_diag (v : nat -> C) : tensor2 := fun a b => if a =? b then v a else c0.

(** [T[k, :, :] = M] *)
Definition assign_k (T : tensor3) (k : nat) (M : tensor2) : tensor3 :=
  fun k' a b => if k' =? k then M a b else T k' a b.

(** the array [distrib_bands] after the [if]/[else] on the temperature *)
Definition distrib_bands (e_fermi temperature : C) (e_in_path : ndarray2) : tensor2 :=
  if cgtb temperature (cofQ (1 # 100000)) then
    fun k b => cadd c0 (cdiv c1 (cadd (np_exp (cdiv (csub (at2 e_in_path k b) e_fermi)
                                                    temperature)) c1))
  else
    fun k b => if cgtb (csub e_fermi (at2 e_in_path k b)) c0 then cadd c0 c1 else c0.

Definition initial_condition (e_fermi temperature : C) (e_in_path : ndarray2)
  : outcome (list C) :=
  (* [e_in_path[:, 0]] and [e_in_path[0, :]] need a column 0 and a row 0 *)
  if cols e_in_path =? 0 then Raise IndexError
  else if rows e_in_path =? 0 then Raise IndexError
  else
    let num_kpoints := rows e_in_path in
    let num_bands := cols e_in_path in
    let distrib := distrib_bands e_fermi temperature e_in_path in
    let ic := for_range num_kpoints
                (fun k T => assign_k T k (np_diag (distrib k))) zeros3 in
    Ok (flatten3 num_kpoints num_bands num_bands ic).

(** lines 182-183: [y0 = np.append(initial_condition(...), [0.0])] *)
Definition initial_state (e_fermi temperature : C) (e_in_path : ndarray2)
  : outcome (list C) :=
  y0 ← initial_condition e_fermi temperature e_in_path;
  Ok (y0 ++ [c0]).

(** *** [fourier] (lines 399-404) and the exact emission of
    [write_current_emission] (lines 412-415 and 466-475) *)

(** [numpy.fft.ifftshift] and [numpy.fft.fftshift] on a 1-d array:
    [np.roll] by [-(N//2)] and by [N//2]. *)
Definition ifftshift {A} (x : list A) : list A :=
  drop (length x / 2) x ++ take (length x / 2) x.
Definition fftshift {A} (x : list A) : list A :=
  drop (length x - length x / 2) x ++ take (length x - length x / 2) x.

(** [numpy.fft.fftfreq(N, d)]: the integers [0, 1, ..., (N-1)//2,
    -(N//2), ..., -1], each times [1.0/(N*d)]. *)
Definition fftfreq_ints (N : nat) : list Z :=
  map Z.of_nat (seq 0 (Z.to_nat ((Z.of_nat N - 1) / 2 + 1)))
  ++ map (fun i => (- Z.of_nat (N / 2) + Z.of_nat i)%Z) (seq 0 (N / 2)).
Definition fftfreq_val (N : nat) (d : C) : C :=
  cdiv c1 (cmul (cofQ (inject_Z (Z.of_nat N))) d).
Definition fftfreq (N : nat) (d : C) : list C :=
  map (fun k => cmul (cofQ (inject_Z k)) (fftfreq_val N d)) (fftfreq_ints N).

Definition fourier (dt : C) (data : list C) : list C :=
  np_scale (cdiv dt (np_sqrt (cmul (cofQ 2) np_pi)))
           (fftshift (np_fft (ifftshift data))).

(** [1/(3*(137.036**3))] *)
Definition prefac_emission : C :=
  cdiv c1 (cmul (cofQ 3) (cofQ ((137036 # 1000) ^ 3))).

(** [u * v] on 1-d arrays *)
Definition np_mul (u v : list C) : outcome (list C) :=
  if broadcastable (length u) (length v) then Ok (bcast2 cmul u v) else Raise ValueError.

(** [prefac_emission*(freq**2)*np.abs(Iw)**2] *)
Definition intensity (freq Iw : list C) : outcome (list C) :=
  np_mul (np_scale prefac_emission (map (fun f => cmul f f) freq))
         (map (fun s => cmul (np_abs s) (np_abs s)) Iw).

(** What is saved for one component of the exact current: the weighted
    current, its transform and its emission intensity. *)
Record emission : Type := {
  em_freq : list C;        (* [freq] *)
  em_I : list C;           (* [I_exact] after [*= kweight] *)
  em_Iw : list C;          (* [Iw_exact] *)
  em_Int : list C          (* [Int_exact] *)
}.

Definition exact_emission (kweight : C) (t I_exact gaussian_envelope : list C)
  : outcome emission :=
  match t with
  | t_0 :: t_1 :: _ =>
      let dt_out := csub t_1 t_0 in
      let freq := fftshift (fftfreq (length t) dt_out) in
      let I := map (fun a => cmul a kweight) I_exact in
      windowed ← np_mul I gaussian_envelope;
      let Iw := fourier dt_out windowed in
      Int ← intensity freq Iw;
      Ok {| em_freq := freq; em_I := I; em_Iw := Iw; em_Int := Int |}
  | _ => Raise IndexError        (* [t[1] - t[0]] *)
  end.
(** *** [diff] (lines 373-387) and [gaussian] (lines 390-397) *)

(** [np.roll(x, -1)] and [np.roll(x, 1)] *)
Definition roll_left {A} (x : list A) : list A := drop 1 x ++ take 1 x.
Definition roll_right {A} (x : list A) : list A :=
  drop (length x - 1) x ++ take (length x - 1) x.

(** [u / v] on 1-d arrays *)
Definition np_div (u v : list C) : outcome (list C) :=
  if broadcastable (length u) (length v) then Ok (bcast2 cdiv u v) else Raise ValueError.

(** what [diff] returns: the number 0, or an array *)
Inductive derivative : Type :=
| Zero                      (* [return 0] *)
| Quotients (q : list C).   (* [return dy/dx] *)

Definition diff (x y : list C) : outcome derivative :=
  if negb (length x =? length y) then Raise ValueError
  else if length y =? 1 then Ok Zero
  else
    dx ← np_sub (roll_left x) (roll_right x);
    dy ← np_sub (roll_left y) (roll_right y);
    q ← np_div dy dx;
    Ok (Quotients q).

(** [np.exp(-t**2/(2*alpha)**2)] *)
Definition gaussian (t : list C) (alpha : C) : list C :=
  map (fun tau => np_exp (cdiv (cneg (cmul tau tau))
                               (cmul (cmul (cofQ 2) alpha) (cmul (cofQ 2) alpha)))) t.

(** *** The time loop of [sbe_solver_n_bands] (lines 186-214)

    The integrator is [scipy.integrate.ode]: its state is the time, the
    state vector and the flag read by [solver.successful()]; what
    [solver.integrate(t)] does to it is a parameter, as are the real part
    of a number and the text of the progress line. *)
Record ode_solver : Type := {
  solver_t : C;
  solver_y : list C;
  solver_successful : bool
}.

(** The containers filled by the loop; an entry that was never written keeps
    whatever [np.empty] left there and is [None] here. *)
Record containers : Type := {
  solution : list (option (list C));   (* [solution[:, Nk2_idx, ti, :, :]] per [ti] *)
  t_array : list (option C);
  A_field : list (option C);
  E_field : list (option C)
}.

Definition empty_containers (Nt : nat) : containers :=
  {| solution := replicate Nt None; t_array := replicate Nt None;
     A_field := replicate Nt None; E_field := replicate Nt None |}.

Section Time_loop.
Variable integrate : ode_solver -> C -> ode_solver.
Variable real_part : C -> C.
Variable progress_line : nat -> nat -> string.   (* ['{:5.2f}%'.format(ti/Nt*100)] *)
Variable electric_field : C -> C.
Variables (n_bands Nk Nt : nat) (dt : C).
Variables (user_out t_constructed : bool).

(** [solver.y[:-1].reshape(Nk1, n, n)] *)
Definition density_matrices (y : list C) : outcome (list C) :=
  let dm := take (length y - 1) y in
  if length dm =? Nk * n_bands * n_bands then Ok dm else Raise ValueError.

(** one pass of the body of the [while] *)
Definition time_step (ti : nat) (s : ode_solver) (c : containers)
  : py (ode_solver * containers) :=
  (* [ti % (Nt//20) == 0 and user_out] *)
  show ← (if Nt / 20 =? 0 then raise ZeroDivisionError
          else mret ((ti mod (Nt / 20) =? 0) && user_out));
  _ ← (if show : bool then print (progress_line ti Nt) else mret tt);
  dm ← lift (density_matrices (solver_y s));
  let c := {| solution := <[ti := Some dm]> (solution c); t_array := t_array c;
              A_field := A_field c; E_field := E_field c |} in
  c ← (if t_constructed then mret c
       else
         match last (solver_y s) with
         | None => raise IndexError
         | Some a =>
             mret {| solution := solution c;
                     t_array := <[ti := Some (solver_t s)]> (t_array c);
                     A_field := <[ti := Some (real_part a)]> (A_field c);
                     E_field := <[ti := Some (electric_field (solver_t s))]> (E_field c) |}
         end);
  mret (integrate s (cadd (solver_t s) dt), c).

(** [while solver.successful() and ti < Nt], entered with [ti = Nt - todo] *)
Fixpoint time_loop (todo : nat) (s : ode_solver) (c : containers)
  : py (nat * ode_solver * containers) :=
  match todo with
  | O => mret (Nt, s, c)
  | S todo' =>
      if solver_successful s then
        sc ← time_step (Nt - todo) s c;
        time_loop todo' sc.1 sc.2
      else mret (Nt - todo, s, c)
  end.

(** the integrator after [j] calls of [solver.integrate(solver.t + dt)] *)
Definition solver_after (j : nat) (s : ode_solver) : ode_solver :=
  Nat.iter j (fun s => integrate s (cadd (solver_t s) dt)) s.
End Time_loop.
End Solver.
Arguments rhs_tensors C : clear implicits.
Arguments derivative C : clear implicits.
Arguments ode_solver C : clear implicits.
Arguments containers C : clear implicits.
Arguments emission C : clear implicits.
End Sbe.

(** ** Floating-point numbers

    Python's [float] and numpy's [float64] are IEEE binary64 numbers;
    [np.float128] is the C [long double], on x86-64 the extended format with
    a significand of 64 bits.  The operations are those of the Standard
    Library's specification of IEEE arithmetic, which round to nearest, ties
    to even. *)
Abbreviation spec_float := SpecFloat.spec_float.

Record float_format : Type := { prec : Z; emax : Z }.
Definition binary64 : float_format := {| prec := 53; emax := 1024 |}.
Definition x87_extended : float_format := {| prec := 64; emax := 16384 |}.

(** what the divisor of a quotient is: a Python [float], or a numpy scalar *)
Inductive real_type : Type := python_float | np_float64 | np_float128.

Definition format_of (ty : real_type) : float_format :=
  match ty with
  | np_float128 => x87_extended
  | _ => binary64
  end.

(** an integer as a double (exact below [2**53]) *)
Definition float_of_Z (z : Z) : spec_float :=
  SpecFloat.binary_normalize 53 1024 z 0 false.

(** A number as it is written ([0.3], [-1000], [1e-12]) stands for the double
    nearest to it: the correctly rounded quotient of its numerator and
    denominator (both exact below [2**53]).  A number that is a double is
    that double. *)
Definition float_of_Q (q : Q) : spec_float :=
  SpecFloat.SFdiv 53 1024 (float_of_Z (Qnum q)) (float_of_Z (Z.pos (Qden q))).

(** [x / y]: between Python floats a zero divisor raises; with a numpy
    scalar the quotient is an infinity or a NaN (and a warning of numpy's),
    computed in the format of the scalar *)
Definition float_div (ty : real_type) (x y : spec_float) : outcome spec_float :=
  match ty, y with
  | python_float, SpecFloat.S754_zero _ => Raise ZeroDivisionError
  | _, _ => Ok (SpecFloat.SFdiv (prec (format_of ty)) (emax (format_of ty)) x y)
  end.

(** [float(x)] of a numpy scalar, as [math.modf] applies it to its argument *)
Definition to_double (x : spec_float) : spec_float :=
  match x with
  | SpecFloat.S754_finite s m e => SpecFloat.binary_round 53 1024 s m e
  | _ => x
  end.

(** the integer part of [m * 2**e] *)
Definition magnitude_trunc (m : positive) (e : Z) : Z :=
  if (0 <=? e)%Z then (Z.pos m * 2 ^ e)%Z else (Z.pos m / 2 ^ (- e))%Z.

(** [int(x)]: truncation toward zero; an infinity and a NaN raise *)
Definition py_int (x : spec_float) : outcome Z :=
  match x with
  | SpecFloat.S754_zero _ => Ok 0%Z
  | SpecFloat.S754_finite s m e =>
      Ok (if s then (- magnitude_trunc m e)%Z else magnitude_trunc m e)
  | SpecFloat.S754_infinity _ => Raise OverflowError
  | SpecFloat.S754_nan => Raise ValueError
  end.

(** the value of a finite float *)
Definition float_value (s : bool) (m : positive) (e : Z) : Q :=
  let magnitude :=
    if (0 <=? e)%Z then inject_Z (Z.pos m * 2 ^ e)
    else Qmake (Z.pos m) (Z.to_pos (2 ^ (- e))) in
  if s then Qopp magnitude else magnitude.

(** [modf(x)[0]]: the fractional part, with the sign of [x]; it is a double
    whatever [x] is, zero for an infinity and no number for a NaN *)
Definition modf_frac (x : spec_float) : option Q :=
  match x with
  | SpecFloat.S754_nan => None
  | SpecFloat.S754_finite s m e =>
      Some (float_value s m e
            - inject_Z (if s then (- magnitude_trunc m e)%Z else magnitude_trunc m e))%Q
  | _ => Some 0%Q
  end.

(** the double written [1e-12] *)
Definition tolerance : Q :=
  match float_of_Q (1 # 1000000000000) with
  | SpecFloat.S754_finite s m e => float_value s m e
  | _ => 0%Q
  end.

(** [modf(x)[0] > 1e-12]; a comparison with a NaN is false *)
Definition exceeds_tolerance (x : spec_float) : bool :=
  match modf_frac (to_double x) with
  | Some frac => negb (Qle_bool frac tolerance)
  | None => false
  end.

(** ** The time window

    [Nf = int((abs(2*t0))/dt)], the warning on [modf((2*t0/dt))[0] > 1e-12],
    and [Nt = Nf + 1]: lines 46-51 of [sbe_solver_n_bands], lines 110-115 of
    [parse_params] and lines 223-228 of [ParamsParser].  [t0] is a Python
    number; [dt_type] is what [dt] is: a Python number in the solver and in
    [parse_params], the numpy scalar [type_real_np(UP.dt)] in
    [ParamsParser]. *)

Definition window_warning : string :=
  "WARNING: The time window divided by dt is not an integer.".

Definition time_window (dt_type : real_type) (t0 dt : Q) : py Z :=
  let t0_f := float_of_Q t0 in
  let dt_f := float_of_Q dt in
  let two_t0 := SpecFloat.SFmul 53 1024 (float_of_Z 2) t0_f in
  q ← lift (float_div dt_type (SpecFloat.SFabs two_t0) dt_f);
  Nf ← lift (py_int q);
  r ← lift (float_div dt_type two_t0 dt_f);
  _ ← (if exceeds_tolerance r then print window_warning else mret tt);
  mret (Nf + 1)%Z.

(** ** Python values and objects of the parsers *)

Inductive pyval : Type :=
| PNone
| PBool (b : bool)
| PNum (q : Q)                 (* int or float *)
| PStr (s : string)
| PArr (l : list Q)            (* a numpy array of numbers *)
| PObj (name : string).        (* a type or a callable *)

(** The attributes of an object, by name. *)
Abbreviation pyobj := (gmap string pyval).

(** A user record is a class.  [hasattr(UP, name)] and [UP.name] see the
    attributes of the class and the ones it inherits, its own first;
    [UP.__dict__] holds only its own. *)
Record pyclass : Type := { own_dict : pyobj; inherited : pyobj }.
Definition attributes (UP : pyclass) : pyobj := own_dict UP ∪ inherited UP.

(** [x == 'literal'] *)
Definition py_eq_str (v : pyval) (s : string) : bool :=
  match v with PStr s' => String.eqb s' s | _ => false end.

(** the number held by a value; sequences and [None] raise [TypeError] *)
Definition as_num (v : pyval) : outcome Q :=
  match v with
  | PNum q => Ok q
  | PBool b => Ok (if b then 1 else 0)%Q
  | _ => Raise TypeError
  end.

(** [v * c] for a float constant [c] *)
Definition py_scale (v : pyval) (c : Q) : outcome pyval :=
  match v with
  | PNum q => Ok (PNum (q * c))
  | PBool b => Ok (PNum ((if b then 1 else 0) * c))
  | PArr l => Ok (PArr (map (fun q => q * c)%Q l))
  | _ => Raise TypeError
  end.

(** [v * w] for two numbers *)
Definition py_mul (v w : pyval) : outcome pyval :=
  a ← as_num v; b ← as_num w; Ok (PNum (a * b)).

(** [1/v] *)
Definition py_inv (v : pyval) : outcome pyval :=
  a ← as_num v;
  if Qeq_bool a 0 then Raise ZeroDivisionError else Ok (PNum (/ a)).

(** [-v] *)
Definition py_neg (v : pyval) : outcome pyval :=
  match v with
  | PArr l => Ok (PArr (map Qopp l))
  | _ => a ← as_num v; Ok (PNum (- a))
  end.

(** [v in [2, 4, 6, 8]] *)
Definition py_in_2468 (v : pyval) : bool :=
  match as_num v with
  | Ok q => Qeq_bool q 2 || Qeq_bool q 4 || Qeq_bool q 6 || Qeq_bool q 8
  | Raise _ => false
  end.

(** [UP.name] *)
Definition getattr (o : pyobj) (name : string) : py pyval :=
  match o !! name with
  | Some v => mret v
  | None => raise (AttributeError name)
  end.

(** [P.name = d] followed by [if hasattr(UP, name): P.name = UP.name] *)
Definition set_default (UP : pyobj) (name : string) (d : pyval) (P : pyobj) : pyobj :=
  <[name := default d (UP !! name)]> P.

(** [P.name = UP.src*c] *)
Definition set_scaled (UP : pyobj) (name src : string) (c : Q) (P : pyobj) : py pyobj :=
  v ← getattr UP src; w ← lift (py_scale v c); mret (<[name := w]> P).

(** [P.name = UP.src] *)
Definition set_copy (UP : pyobj) (name src : string) (P : pyobj) : py pyobj :=
  v ← getattr UP src; mret (<[name := v]> P).

(** The constants of the module [conversion_factors] (not among the
    sources), taken as a parameter. *)
Record conversion_factors : Type := {
  eV_to_au : Q; MVpcm_to_au : Q; THz_to_au : Q; fs_to_au : Q;
  au_to_as : Q; as_to_au : Q
}.

Definition quadruple_needs_rk4 : string :=
  "Error: Quadruple precision only works with Runge-Kutta 4 ODE solver.".

(** The precision block (lines 52-61 of [parse_params], lines 185-194 of
    [ParamsParser]): the pair [(type_real_np, type_complex_np)], or the
    exit. *)
Definition precision_types (precision solver_method : pyval) : py (pyval * pyval) :=
  if py_eq_str precision "double" then
    mret (PObj "np.float64", PObj "np.complex128")
  else if py_eq_str precision "quadruple" then
    if negb (py_eq_str solver_method "rk4") then
      raise (SystemExit (Some quadruple_needs_rk4))
    else mret (PObj "np.float128", PObj "np.complex256")
  else raise (SystemExit (Some "Only default or quadruple precision available.")).

(** The time-window block on attribute values; [dt_type] is the type of
    [dt_fs]. *)
Definition window_of (dt_type : real_type) (t0_fs dt_fs : pyval) : py pyval :=
  t0 ← lift (as_num t0_fs);
  dt ← lift (as_num dt_fs);
  Nt ← time_window dt_type t0 dt;
  mret (PNum (inject_Z Nt)).

(** [P.name = 1/P.src] and [P.name = -P.src] *)
Definition set_inv (name src : string) (P : pyobj) : py pyobj :=
  v ← getattr P src; w ← lift (py_inv v); mret (<[name := w]> P).
Definition set_neg (name src : string) (P : pyobj) : py pyobj :=
  v ← getattr P src; w ← lift (py_neg v); mret (<[name := w]> P).

(** [P.dk_order = 8], replaced by [UP.dk_order] when it is set and checked
    then; [die] is [quit] or [sys.exit]. *)
Definition set_dk_order (UP : pyobj) (P : pyobj) : py pyobj :=
  match UP !! "dk_order" with
  | None => mret (<["dk_order" := PNum 8]> P)
  | Some v =>
      if py_in_2468 v then mret (<["dk_order" := v]> P)
      else raise (SystemExit (Some "dk_order needs to be either 2, 4, 6, or 8."))
  end.

(** ** [sbe/solver/params_parser.py]

    [P.type_real_np(x)] converts a number to a float of the chosen width and
    is the identity on exact numbers. *)

Module SbeParser.
(** [UP] is the user record as [hasattr] and [UP.name] see it
    ([attributes] of the class). *)
Definition parse_params (co : conversion_factors) (UP : pyobj) : py pyobj :=
  let P : pyobj := ∅ in
  let P := set_default UP "user_out" (PBool true) P in
  let P := set_default UP "save_full" (PBool false) P in
  let P := set_default UP "save_exact" (PBool true) P in
  let P := set_default UP "save_approx" (PBool false) P in
  let P := set_default UP "save_txt" (PBool false) P in
  let P := set_default UP "do_semicl" (PBool false) P in
  let P := set_default UP "gauge" (PStr "length") P in
  let P := set_default UP "save_anom" (PBool false) P in
  let solver_method := default (PStr "bdf") (UP !! "solver_method") in
  let P := <["solver_method" := solver_method]> P in
  let precision := default (PStr "double") (UP !! "precision") in
  let P := <["precision" := precision]> P in
  types ← precision_types precision solver_method;
  let P := <["type_complex_np" := types.2]> (<["type_real_np" := types.1]> P) in
  let P := set_default UP "symmetric_insulator" (PBool false) P in
  P ← set_dk_order UP P;
  (* initial occupation *)
  P ← set_scaled UP "e_fermi" "e_fermi" (eV_to_au co) P;
  P ← set_copy UP "e_fermi_eV" "e_fermi" P;
  P ← set_scaled UP "temperature" "temperature" (eV_to_au co) P;
  P ← set_copy UP "temperature_eV" "temperature" P;
  (* driving field *)
  P ← set_scaled UP "E0" "E0" (MVpcm_to_au co) P;
  P ← set_copy UP "E0_MVpcm" "E0" P;
  P ← set_scaled UP "w" "w" (THz_to_au co) P;
  P ← set_copy UP "w_THz" "w" P;
  P ← set_scaled UP "chirp" "chirp" (THz_to_au co) P;
  P ← set_copy UP "chirp_THz" "chirp" P;
  P ← set_scaled UP "alpha" "alpha" (fs_to_au co) P;
  P ← set_copy UP "alpha_fs" "alpha" P;
  P ← set_copy UP "phase" "phase" P;
  (* time scales *)
  P ← set_scaled UP "T1" "T1" (fs_to_au co) P;
  P ← set_inv "gamma1" "T1" P;
  P ← set_copy UP "T1_fs" "T1" P;
  P ← set_inv "gamma1_dfs" "T1_fs" P;
  P ← set_scaled UP "T2" "T2" (fs_to_au co) P;
  P ← set_inv "gamma2" "T2" P;
  P ← set_copy UP "T2_fs" "T2" P;
  P ← set_inv "gamma2_dfs" "T2_fs" P;
  P ← set_scaled UP "t0" "t0" (fs_to_au co) P;
  P ← set_copy UP "t0_fs" "t0" P;
  P ← set_neg "tf" "t0" P;
  P ← set_neg "tf_fs" "t0_fs" P;
  P ← set_scaled UP "dt" "dt" (fs_to_au co) P;
  P ← set_copy UP "dt_fs" "dt" P;
  t0_fs ← getattr P "t0_fs";
  dt_fs ← getattr P "dt_fs";
  Nt ← window_of python_float t0_fs dt_fs;
  let P := <["Nt" := Nt]> P in
  (* Brillouin zone *)
  P ← set_copy UP "BZ_type" "BZ_type" P;
  P ← set_copy UP "Nk1" "Nk1" P;
  P ← set_copy UP "Nk2" "Nk2" P;
  Nk1 ← getattr P "Nk1";
  Nk2 ← getattr P "Nk2";
  Nk ← lift (py_mul Nk1 Nk2);
  let P := <["Nk" := Nk]> P in
  P ← set_copy UP "a" "a" P;
  a ← getattr P "a";
  a_angs ← lift (py_scale a (au_to_as co));
  let P := <["a_angs" := a_angs]> P in
  BZ_type ← getattr P "BZ_type";
  P ← (if py_eq_str BZ_type "full" then
         P ← set_copy UP "align" "align" P;
         let P := <["angle_inc_E_field" := PNone]> P in
         P ← set_copy UP "b1" "b1" P;
         P ← set_scaled UP "b1_dangs" "b1" (as_to_au co) P;
         P ← set_copy UP "b2" "b2" P;
         set_scaled UP "b2_dangs" "b2" (as_to_au co) P
       else if py_eq_str BZ_type "2line" then
         let P := <["align" := PNone]> P in
         P ← set_copy UP "angle_inc_E_field" "angle_inc_E_field" P;
         P ← set_copy UP "rel_dist_to_Gamma" "rel_dist_to_Gamma" P;
         set_copy UP "length_path_in_BZ" "length_path_in_BZ" P
       else mret P);
  mret (set_default UP "Nk2_idx_ext" (PNum (-1)) P).
End SbeParser.

(** The attributes of the user record that [parse_params] reads, by
    [hasattr(UP, ...)] or [UP. ...], in the order of the source. *)
Definition parse_params_reads : list string :=
  [ "user_out"; "save_full"; "save_exact"; "save_approx"; "save_txt"; "do_semicl";
    "gauge"; "save_anom"; "solver_method"; "precision"; "symmetric_insulator";
    "dk_order"; "e_fermi"; "temperature"; "E0"; "w"; "chirp"; "alpha"; "phase";
    "T1"; "T2"; "t0"; "dt"; "BZ_type"; "Nk1"; "Nk2"; "a"; "align"; "b1"; "b2";
    "angle_inc_E_field"; "rel_dist_to_Gamma"; "length_path_in_BZ";
    "Nk2_idx_ext" ]%string.

(** ** [cued/utility/params_parser.py]: class [ParamsParser] *)

Module Cued.
(** In the stages of the constructor [UP] is the user record as [hasattr] and
    [UP.name] see it ([attributes] of the class); the check of the user
    parameters reads [UP.__dict__]. *)

(** the key of the private attribute [self.__user_defined_field] *)
Definition user_defined_field_key : string := "_ParamsParser__user_defined_field".

Definition occupation (co : conversion_factors) (UP self : pyobj) : py pyobj :=
  self ← set_scaled UP "e_fermi" "e_fermi" (eV_to_au co) self;
  set_scaled UP "temperature" "temperature" (eV_to_au co) self.

Definition time_scales (co : conversion_factors) (UP self : pyobj) : py pyobj :=
  self ← set_scaled UP "T1" "T1" (fs_to_au co) self;
  self ← set_scaled UP "T2" "T2" (fs_to_au co) self;
  self ← set_scaled UP "t0" "t0" (fs_to_au co) self;
  set_scaled UP "dt" "dt" (fs_to_au co) self.

Definition field (co : conversion_factors) (UP self : pyobj) : py pyobj :=
  self ← set_scaled UP "f" "f" (THz_to_au co) self;
  match UP !! "electric_field_function" with
  | Some fn =>
      let self := <["electric_field_function" := fn]> self in
      mret (<[user_defined_field_key := PBool true]> self)
  | None =>
      let self := <["electric_field_function" := PNone]> self in
      self ← set_scaled UP "E0" "E0" (MVpcm_to_au co) self;
      self ← set_scaled UP "chirp" "chirp" (THz_to_au co) self;
      self ← set_scaled UP "sigma" "sigma" (fs_to_au co) self;
      self ← set_copy UP "phase" "phase" self;
      mret (<[user_defined_field_key := PBool false]> self)
  end.

Definition brillouin_zone (UP self : pyobj) : py pyobj :=
  self ← set_copy UP "BZ_type" "BZ_type" self;
  self ← set_copy UP "Nk1" "Nk1" self;
  self ← set_copy UP "Nk2" "Nk2" self;
  BZ_type ← getattr self "BZ_type";
  if py_eq_str BZ_type "hexagon" then
    self ← set_copy UP "align" "align" self;
    let self := <["angle_inc_E_field" := PNone]> self in
    set_copy UP "a" "a" self
  else if py_eq_str BZ_type "rectangle" then
    let self := <["align" := PNone]> self in
    self ← set_copy UP "angle_inc_E_field" "angle_inc_E_field" self;
    self ← set_copy UP "length_BZ_ortho" "length_BZ_ortho" self;
    set_copy UP "length_BZ_E_dir" "length_BZ_E_dir" self
  else raise (SystemExit (Some "BZ_type needs to be either hexagon or rectangle.")).

(** [x is None] and the truth value of a flag *)
Definition is_none (v : pyval) : bool := match v with PNone => true | _ => false end.
Definition truthy (v : pyval) : bool :=
  match v with
  | PNone => false
  | PBool b => b
  | PNum q => negb (Qeq_bool q 0)
  | PStr s => negb (String.eqb s "")
  | PArr l => match l with [] => false | _ => true end
  | PObj _ => true
  end.

Definition optional (co : conversion_factors) (UP self : pyobj) : py pyobj :=
  let self := set_default UP "user_out" (PBool true) self in
  let self := set_default UP "save_full" (PBool false) self in
  let self := set_default UP "save_latex_pdf" (PBool false) self in
  let self := set_default UP "split_current" (PBool false) self in
  let self := set_default UP "do_semicl" (PBool false) self in
  let self := set_default UP "gauge" (PStr "length") self in
  let self := set_default UP "hamiltonian_evaluation" (PStr "num") self in
  let self := set_default UP "solver" (PStr "nband") self in
  let self := set_default UP "epsilon" (PNum (2 # 100000)) self in
  let self := set_default UP "gidx" (PNum 1) self in
  let self := set_default UP "save_anom" (PBool false) self in
  let self := set_default UP "solver_method" (PStr "bdf") self in
  let self := set_default UP "precision" (PStr "double") self in
  let self := set_default UP "symmetric_insulator" (PBool false) self in
  self ← set_dk_order UP self;
  let self := set_default UP "factor_freq_resolution" (PNum 1) self in
  let self := set_default UP "num_dimensions" (PStr "automatic") self in
  let window := default (PStr "hann") (UP !! "fourier_window_function") in
  let self := <["fourier_window_function" := window]> self in
  if py_eq_str window "gaussian" then
    self ← match UP !! "gaussian_window_width" with
           | Some _ => set_scaled UP "gaussian_window_width" "gaussian_window_width"
                         (fs_to_au co) self
           | None => mret (<["gaussian_window_width" := PNone]> self)
           end;
    user_defined ← getattr self user_defined_field_key;
    width ← getattr self "gaussian_window_width";
    if truthy user_defined && is_none width then
      raise (SystemExit (Some "Gaussian needs a width (gaussian_window_width)."))
    else
      sigma ← getattr self "sigma";
      mret (<["gaussian_window_width" := sigma]> self)
  else mret self.

(** The names every class carries in its [__dict__]. *)
Definition class_dunders : gset string :=
  {[ "__weakref__"; "__doc__"; "__dict__"; "__module__" ]}.

Definition no_effect_header : string :=
  "Error: The following parameters have no effect inside the current run:".

(** What the loop [print(param, end=' ')] and the final [print()] write. *)
Definition names_line (names : list string) : string :=
  fold_right (fun name rest => (name ++ " " ++ rest)%string) EmptyString names.

(** [diff_params] of [__check_user_params_for_wrong_arguments]; [UP_dict] is
    [UP.__dict__] *)
Definition diff_params (UP_dict self : pyobj) : gset string :=
  let default_params := dom self in
  let user_params := dom UP_dict ∖ class_dunders in
  (default_params ∪ user_params) ∖ default_params.

Definition check_user_params_for_wrong_arguments (UP_dict self : pyobj) : py unit :=
  let diff := diff_params UP_dict self in
  if decide (diff = ∅) then mret tt
  else
    _ ← print no_effect_header;
    _ ← print (names_line (elements diff));
    raise (SystemExit None).

(** the type of [self.dt_fs = self.type_real_np(UP.dt)] *)
Definition real_type_of (type_real_np : pyval) : real_type :=
  match type_real_np with
  | PObj name => if String.eqb name "np.float128" then np_float128 else np_float64
  | _ => np_float64
  end.

Section Derived.
(** [str.format] on the file-name pattern, a builtin of Python. *)
Variable format_tail : list pyval -> outcome string.

Definition append_derived_parameters (co : conversion_factors) (UP self : pyobj)
  : py pyobj :=
  user_defined ← getattr self user_defined_field_key;
  let self := <["user_defined_field" := user_defined]> self in
  precision ← getattr self "precision";
  solver_method ← getattr self "solver_method";
  types ← precision_types precision solver_method;
  let self := <["type_complex_np" := types.2]> (<["type_real_np" := types.1]> self) in
  self ← set_copy UP "e_fermi_eV" "e_fermi" self;
  self ← set_copy UP "temperature_eV" "temperature" self;
  self ← set_copy UP "f_THz" "f" self;
  self ← (if truthy user_defined then mret self
          else
            self ← set_copy UP "E0_MVpcm" "E0" self;
            self ← set_copy UP "chirp_THz" "chirp" self;
            set_copy UP "sigma_fs" "sigma" self);
  self ← set_inv "gamma1" "T1" self;
  self ← set_copy UP "T1_fs" "T1" self;
  self ← set_inv "gamma1_dfs" "T1_fs" self;
  self ← set_inv "gamma2" "T2" self;
  self ← set_copy UP "T2_fs" "T2" self;
  self ← set_inv "gamma2_dfs" "T2_fs" self;
  self ← set_copy UP "t0_fs" "t0" self;
  self ← set_neg "tf" "t0" self;
  self ← set_neg "tf_fs" "t0_fs" self;
  dt ← getattr self "dt";
  let self := <["dt" := dt]> self in
  self ← set_copy UP "dt_fs" "dt" self;
  t0_fs ← getattr self "t0_fs";
  dt_fs ← getattr self "dt_fs";
  Nt ← window_of (real_type_of types.1) t0_fs dt_fs;
  let self := <["Nt" := Nt]> self in
  Nk1 ← getattr self "Nk1";
  Nk2 ← getattr self "Nk2";
  Nk ← lift (py_mul Nk1 Nk2);
  let self := <["Nk" := Nk]> self in
  BZ_type ← getattr self "BZ_type";
  self ← (if py_eq_str BZ_type "hexagon" then
            a ← getattr self "a";
            a_angs ← lift (py_scale a (au_to_as co));
            mret (<["a_angs" := a_angs]> self)
          else mret self);
  E0 ← getattr self "E0_MVpcm";
  f ← getattr self "f_THz";
  sigma ← getattr self "sigma_fs";
  gauge ← getattr self "gauge";
  t0 ← getattr self "t0_fs";
  dt' ← getattr self "dt_fs";
  Nk1' ← getattr self "Nk1";
  Nk2' ← getattr self "Nk2";
  T1 ← getattr self "T1_fs";
  T2 ← getattr self "T2_fs";
  chirp ← getattr self "chirp_THz";
  phase ← getattr self "phase";
  method ← getattr self "solver_method";
  dk_order ← getattr self "dk_order";
  tail ← lift (format_tail [E0; f; sigma; gauge; t0; dt'; Nk1'; Nk2'; T1; T2;
                            chirp; phase; method; dk_order]);
  mret (<["tail" := PStr tail]> self).

(** the stages of [__init__] before the check of the user parameters *)
Definition own_parameters (co : conversion_factors) (UP : pyobj) : py pyobj :=
  self ← occupation co UP ∅;
  self ← time_scales co UP self;
  self ← field co UP self;
  self ← brillouin_zone UP self;
  optional co UP self.

(** [ParamsParser.__init__] *)
Definition init (co : conversion_factors) (UP : pyclass) : py pyobj :=
  self ← own_parameters co (attributes UP);
  _ ← check_user_params_for_wrong_arguments (own_dict UP) self;
  append_derived_parameters co (attributes UP) self.
End Derived.
End Cued.

(** ** Concrete inputs on the Gaussian rationals *)

Module Example.
(** the number [a + b*1j] *)
Definition gq (a b : Q) : GQ := mkGQ (Q2Qc a) (Q2Qc b).

(** two bands at energies -1 and +1 on every k-point of a path *)
Definition two_bands (Nk : nat) : ndarray2 GQ :=
  {| rows := Nk; cols := 2; at2 := fun _ b => if b =? 0 then gq (-1) 0 else gq 1 0 |}.

(** a dipole that couples the two bands *)
Definition dipole (k i j : nat) : GQ := if i =? j then gq 0 0 else gq (1 # 2) 0.

(** [n = 2] bands, on a path of two k-points and of a single k-point *)
Definition p_two : Sbe.params := {| Sbe.n := 2; Sbe.Nk1 := 2 |}.
Definition p_one : Sbe.params := {| Sbe.n := 2; Sbe.Nk1 := 1 |}.

(** the tensors of those paths for [T1 = 1000] and [T2 = 1] *)
Definition rhs_two : Sbe.rhs_tensors GQ :=
  Sbe.rhs_of_sbe p_two dipole (at2 (two_bands 2))
    (Sbe.damping (gq 1000 0)) (Sbe.damping (gq 1 0)).
Definition rhs_one : Sbe.rhs_tensors GQ :=
  Sbe.rhs_of_sbe p_one dipole (at2 (two_bands 1))
    (Sbe.damping (gq 1000 0)) (Sbe.damping (gq 1 0)).

(** a field of constant value 2, and no field *)
Definition field_two (t : GQ) : GQ := gq 2 0.
Definition field_off (t : GQ) : GQ := c0.

(** On the single k-point: the lower band occupied, vector potential 5. *)
Definition y_one : list GQ := [gq 1 0; gq 0 0; gq 0 0; gq 0 0; gq 5 0].
Definition y0_one : list GQ := [gq 1 0; gq 0 0; gq 0 0; gq 0 0; gq 0 0].

(** A time grid of two instants, a current and a flat window on it. *)
Definition t_pair : list GQ := [gq (-1) 0; gq 1 0].
Definition current_pair : list GQ := [gq 1 0; gq 3 0].
Definition window_pair : list GQ := [gq 1 0; gq 1 0].

(** A path of three k-points: the lower band occupied everywhere, different
    coherences at the first and the last point, vector potential 5. *)
Definition p_three : Sbe.params := {| Sbe.n := 2; Sbe.Nk1 := 3 |}.
Definition rhs_three : Sbe.rhs_tensors GQ :=
  Sbe.rhs_of_sbe p_three dipole (at2 (two_bands 3))
    (Sbe.damping (gq 1000 0)) (Sbe.damping (gq 1 0)).
Definition y_three : list GQ :=
  [gq 1 0; gq (1 # 4) 0; gq (1 # 4) 0; gq 0 0;
   gq 1 0; gq 0 0; gq 0 0; gq 0 0;
   gq 1 0; gq (3 # 4) 0; gq (3 # 4) 0; gq 0 0;
   gq 5 0].
Definition y0_three : list GQ :=
  [gq 1 0; gq 0 0; gq 0 0; gq 0 0;
   gq 1 0; gq 0 0; gq 0 0; gq 0 0;
   gq 1 0; gq 0 0; gq 0 0; gq 0 0;
   gq 0 0].

(** A grid of four instants and a signal on it. *)
Definition t_four : list GQ := [gq (-3) 0; gq (-1) 0; gq 1 0; gq 3 0].
Definition signal_four : list GQ := [gq 1 0; gq 3 0; gq 9 0; gq 27 0].

(** An explicit Euler step for the right-hand side [f], in place of the
    integrator of scipy. *)
Definition euler (f : GQ -> list GQ -> outcome (list GQ))
    (s : Sbe.ode_solver GQ) (t' : GQ) : Sbe.ode_solver GQ :=
  match f (Sbe.solver_t s) (Sbe.solver_y s) with
  | Ok x =>
      {| Sbe.solver_t := t';
         Sbe.solver_y :=
           zip_with (fun y dy => cadd y (cmul (csub t' (Sbe.solver_t s)) dy))
                    (Sbe.solver_y s) x;
         Sbe.solver_successful := true |}
  | Raise _ =>
      {| Sbe.solver_t := Sbe.solver_t s; Sbe.solver_y := Sbe.solver_y s;
         Sbe.solver_successful := false |}
  end.

(** the equilibrium state of the two-point path at zero temperature, and
    the field-free right-hand side there *)
Definition equilibrium_two : list GQ :=
  match Sbe.initial_state (gq 0 0) (gq 0 0) (two_bands 2) with
  | Ok y => y
  | Raise _ => []
  end.
Definition rhs_field_off (t : GQ) (y : list GQ) : outcome (list GQ) :=
  Sbe.fnumba 2 field_off t y rhs_two equilibrium_two p_two (gq (1 # 2) 0).


(** Conversion factors (rounded) and a stand-in for [str.format]. *)
Definition co : conversion_factors :=
  {| eV_to_au := 36749 # 1000000; MVpcm_to_au := 19447 # 100000000;
     THz_to_au := 24189 # 1000000000; fs_to_au := 41341 # 1000;
     au_to_as := 52918 # 100000; as_to_au := 188973 # 100000 |}.
Definition format_tail (args : list pyval) : outcome string := Ok "tail"%string.

(** The record of test 09 (quadruple precision with the Runge-Kutta
    solver), as the [__dict__] of the class [params]. *)
Definition test_09 : pyobj :=
  list_to_map
    [ ("__module__"%string, PStr "params"); ("__doc__"%string, PNone);
      ("__dict__"%string, PObj "attribute"); ("__weakref__"%string, PObj "attribute");
      ("e_fermi"%string, PNum 0); ("temperature"%string, PNum 0);
      ("BZ_type"%string, PStr "rectangle");
      ("Nk1"%string, PNum 3); ("Nk2"%string, PNum 2);
      ("length_BZ_E_dir"%string, PNum 5); ("length_BZ_ortho"%string, PNum (1 # 10));
      ("angle_inc_E_field"%string, PNum 0);
      ("E0"%string, PNum 5); ("f"%string, PNum 25); ("chirp"%string, PNum 0);
      ("sigma"%string, PNum 50); ("phase"%string, PNum 0);
      ("dk_order"%string, PNum 2);
      ("solver_method"%string, PStr "rk4"); ("precision"%string, PStr "quadruple");
      ("T1"%string, PNum 1000); ("T2"%string, PNum 1);
      ("t0"%string, PNum (-500)); ("dt"%string, PNum (1 # 100));
      ("gauge"%string, PStr "length"); ("hamiltonian_evaluation"%string, PStr "ana");
      ("solver"%string, PStr "2band"); ("do_semicl"%string, PBool false);
      ("user_out"%string, PBool false); ("split_current"%string, PBool false);
      ("save_full"%string, PBool false) ].

(** a record as a class that inherits nothing the parser asks for *)
Definition class_of (d : pyobj) : pyclass := {| own_dict := d; inherited := ∅ |}.

(** the record of test 09 as a class that inherits a pulse width under its
    former name from a base class *)
Definition test_09_inherits_alpha : pyclass :=
  {| own_dict := test_09; inherited := {[ "alpha"%string := PNum 50 ]} |}.

(** the same record with the implicit solver in place of Runge-Kutta *)
Definition test_09_bdf : pyobj := <["solver_method" := PStr "bdf"]> test_09.

(** the same record with the pulse width under its former name as well *)
Definition test_09_alpha : pyobj := <["alpha" := PNum 50]> test_09.

(** the same record with a field of the user's own *)
Definition test_09_field : pyobj :=
  <["electric_field_function" := PObj "electric_field"]> test_09.

(** the same record with a Gaussian window of width 20 fs *)
Definition test_09_gaussian : pyobj :=
  <["gaussian_window_width" := PNum 20]>
    (<["fourier_window_function" := PStr "gaussian"]> test_09).

(** A record of the older parser: a line through the zone, with the gauge
    under a misspelt name. *)
Definition line_record : pyobj :=
  list_to_map
    [ ("e_fermi"%string, PNum 0); ("temperature"%string, PNum 0);
      ("E0"%string, PNum 5); ("w"%string, PNum 25); ("chirp"%string, PNum 0);
      ("alpha"%string, PNum 25); ("phase"%string, PNum 0);
      ("T1"%string, PNum 1000); ("T2"%string, PNum 1);
      ("t0"%string, PNum (-1000)); ("dt"%string, PNum (3 # 10));
      ("BZ_type"%string, PStr "2line");
      ("Nk1"%string, PNum 4); ("Nk2"%string, PNum 2); ("a"%string, PNum 8);
      ("angle_inc_E_field"%string, PNum 0); ("rel_dist_to_Gamma"%string, PNum (1 # 20));
      ("length_path_in_BZ"%string, PNum 1) ].

(** what [parse_params] returns for a record it accepts *)
Definition parsed_of (UP : pyobj) : pyobj :=
  match result (SbeParser.parse_params co UP) with
  | Ok P => P
  | Raise _ => ∅
  end.

(** the attributes [ParamsParser] has set before it checks a record *)
Definition own_of (UP : pyobj) : pyobj :=
  match result (Cued.own_parameters co UP) with
  | Ok self => self
  | Raise _ => ∅
  end.
End Example.

(* ================================================================== *)
(** * Part II: properties *)
(* ================================================================== *)

(** ** Loops *)

Lemma for_range_0 {S : Type} (body : nat -> S -> S) (s : S) :
  for_range 0 body s = s.
Proof. reflexivity. Qed.

Lemma for_range_S {S : Type} (n : nat) (body : nat -> S -> S) (s : S) :
  for_range (Datatypes.S n) body s = body n (for_range n body s).
Proof.
  unfold for_range. rewrite seq_S, fold_left_app. reflexivity.
Qed.

Lemma outcome_bind_ok {A B : Type} (a : A) (f : A -> outcome B) :
  (Ok a ≫= f) = f a.
Proof. reflexivity. Qed.

Lemma for_range_m_S {S : Type} (n : nat) (body : nat -> S -> outcome S) (s : S) :
  for_range_m (Datatypes.S n) body s = (for_range_m n body s ≫= body n).
Proof.
  unfold for_range_m. rewrite seq_S, fold_left_app. reflexivity.
Qed.

(** A loop whose body leaves a projection of the state alone leaves it
    alone as a whole. *)
Lemma for_range_preserves {S A : Type} (proj : S -> A) (n : nat)
    (body : nat -> S -> S) :
  (forall k s, proj (body k s) = proj s) ->
  forall s, proj (for_range n body s) = proj s.
Proof.
  intros Hbody s. induction n as [|n IH].
  - reflexivity.
  - rewrite for_range_S, Hbody. exact IH.
Qed.

(** Row-major indices: [r = m*n + i] with [i < n] determines [m] and [i]. *)
Lemma vec_index_div (n m i : nat) : i < n -> (m * n + i) / n = m.
Proof.
  intros Hi. symmetry. apply (Nat.div_unique _ _ _ i); lia.
Qed.

Lemma vec_index_mod (n m i : nat) : i < n -> (m * n + i) mod n = i.
Proof.
  intros Hi. symmetry. apply (Nat.mod_unique _ _ m); lia.
Qed.

Lemma vec_index_lt (n m i : nat) : m < n -> i < n -> m * n + i < n * n.
Proof. intros Hm Hi. nia. Qed.

Lemma vec_index_inj (n m i m' i' : nat) :
  i < n -> i' < n -> m * n + i = m' * n + i' -> m = m' /\ i = i'.
Proof.
  intros Hi Hi' Heq.
  assert (Hm : m = m').
  { rewrite <- (vec_index_div n m i Hi), Heq. apply vec_index_div, Hi'. }
  subst m'. split; [reflexivity | lia].
Qed.

Lemma vec_index_band (n M r : nat) :
  M * n <= r -> r < M * n + n -> r / n = M /\ r mod n = r - M * n.
Proof.
  intros Hlo Hhi.
  assert (Hi : r - M * n < n) by lia.
  pose proof (vec_index_div n M (r - M * n) Hi) as Hd.
  pose proof (vec_index_mod n M (r - M * n) Hi) as Hm.
  replace (M * n + (r - M * n)) with r in Hd, Hm by lia.
  split; assumption.
Qed.

(** Case analysis on every comparison of the goal. *)
Ltac cases_bool :=
  repeat match goal with
    | |- context [?a =? ?b] => destruct (Nat.eqb_spec a b)
    | |- context [?a <? ?b] => destruct (Nat.ltb_spec a b)
    | |- context [?a <=? ?b] => destruct (Nat.leb_spec a b)
    end.

(** ** [rhs_of_sbe]: the tensors that are filled on the diagonal only *)

Section Diagonal_tensor.
Context {C : Type} `{Scalar C}.
Variable p : Sbe.params.
Variable dipole_in_path : tensor3 C.
Variable e_in_path : tensor2 C.
Variables gamma1 gamma2 : C.

(** One of [rhs_e], [rhs_gamma1], [rhs_gamma2]: the loop body adds [val k m i]
    at [(k, m*n+i, m*n+j)] when [i = j] and the band pair is selected by
    [hit]; the second pair of loops does not write to it. *)
Variable proj : Sbe.rhs_tensors C -> tensor3 C.
Variable hit : nat -> nat -> bool.
Variable val : nat -> nat -> nat -> C.

Hypothesis body_j_spec : forall k m i j s k' r c,
  proj (Sbe.rhs_body_j p dipole_in_path e_in_path gamma1 gamma2 k m i j s) k' r c =
  if (i =? j) && hit m i && (k' =? k) && (r =? m * Sbe.n p + i) && (c =? m * Sbe.n p + j)
  then cadd (proj s k' r c) (val k m i) else proj s k' r c.

Hypothesis body_l_spec : forall k m l i s,
  proj (Sbe.rhs_body_l p dipole_in_path k m l i s) = proj s.

#[local] Abbreviation body_j := (Sbe.rhs_body_j p dipole_in_path e_in_path gamma1 gamma2).
#[local] Abbreviation body_m := (Sbe.rhs_body_m p dipole_in_path e_in_path gamma1 gamma2).
#[local] Abbreviation nb := (Sbe.n p).

Lemma loop_j_spec (k m i N : nat) s k' r c :
  proj (for_range N (body_j k m i) s) k' r c =
  if (i <? N) && hit m i && (k' =? k) && (r =? m * nb + i) && (c =? m * nb + i)
  then cadd (proj s k' r c) (val k m i) else proj s k' r c.
Proof.
  induction N as [|N IH].
  - reflexivity.
  - rewrite for_range_S, body_j_spec, IH.
    destruct (hit m i); cases_bool; simpl; try reflexivity; lia.
Qed.

Lemma loop_i_spec (k m N : nat) s k' r c :
  proj (for_range N (fun i => for_range nb (body_j k m i)) s) k' r c =
  if (k' =? k) && (r =? c) && (m * nb <=? r) && (r <? m * nb + Nat.min N nb)
     && hit m (r - m * nb)
  then cadd (proj s k' r c) (val k m (r - m * nb)) else proj s k' r c.
Proof.
  induction N as [|N IH].
  - rewrite for_range_0. cases_bool; simpl; try reflexivity; lia.
  - rewrite for_range_S, loop_j_spec, IH.
    destruct (Nat.eq_dec r (m * nb + N)) as [->|Hne].
    + replace (m * nb + N - m * nb) with N by lia.
      destruct (hit m N); cases_bool; simpl; try reflexivity; lia.
    + destruct (hit m N), (hit m (r - m * nb));
        cases_bool; simpl; try reflexivity; lia.
Qed.

Lemma loop_m_spec (k M : nat) s k' r c :
  proj (for_range M (body_m k) s) k' r c =
  if (k' =? k) && (r =? c) && (r <? M * nb) && hit (r / nb) (r mod nb)
  then cadd (proj s k' r c) (val k (r / nb) (r mod nb)) else proj s k' r c.
Proof.
  induction M as [|M IH].
  - rewrite for_range_0. cases_bool; simpl; try reflexivity; lia.
  - rewrite for_range_S. unfold Sbe.rhs_body_m at 1.
    rewrite (for_range_preserves proj) by
      (intros; apply (for_range_preserves proj); intros; apply body_l_spec).
    rewrite loop_i_spec, IH, Nat.min_id.
    destruct (Nat.le_gt_cases (M * nb) r) as [Hlo|Hlo].
    + destruct (Nat.lt_ge_cases r (M * nb + nb)) as [Hhi|Hhi].
      * destruct (vec_index_band nb M r Hlo Hhi) as [-> ->].
        destruct (hit M (r - M * nb)); cases_bool; simpl; try reflexivity; lia.
      * destruct (hit M (r - M * nb)), (hit (r / nb) (r mod nb));
          cases_bool; simpl; try reflexivity; lia.
    + destruct (hit M (r - M * nb)), (hit (r / nb) (r mod nb));
        cases_bool; simpl; try reflexivity; lia.
Qed.

Lemma loop_k_spec (K : nat) s k' r c :
  proj (for_range K (fun k => for_range nb (body_m k)) s) k' r c =
  if (k' <? K) && (r =? c) && (r <? nb * nb) && hit (r / nb) (r mod nb)
  then cadd (proj s k' r c) (val k' (r / nb) (r mod nb)) else proj s k' r c.
Proof.
  induction K as [|K IH].
  - reflexivity.
  - rewrite for_range_S, loop_m_spec, IH.
    destruct (hit (r / nb) (r mod nb)); cases_bool; subst; simpl;
      try reflexivity; lia.
Qed.
End Diagonal_tensor.

Section Rhs_closed_form.
Context {C : Type} `{Scalar C}.
Variable p : Sbe.params.
Variable dipole_in_path : tensor3 C.
Variable e_in_path : tensor2 C.
Variables gamma1 gamma2 : C.

#[local] Abbreviation rhs := (Sbe.rhs_of_sbe p dipole_in_path e_in_path gamma1 gamma2).
#[local] Abbreviation nb := (Sbe.n p).

(** The energy tensor before any algebra: one addition to the zero of
    [np.zeros] on the diagonal, zero elsewhere. *)
Lemma rhs_e_closed (k r c : nat) :
  Sbe.rhs_e rhs k r c =
  if (k <? Sbe.Nk1 p) && (r =? c) && (r <? nb * nb)
  then cadd c0 (cmul (cneg cj) (csub (e_in_path k (r / nb)) (e_in_path k (r mod nb))))
  else c0.
Proof.
  unfold Sbe.rhs_of_sbe.
  rewrite (loop_k_spec p dipole_in_path e_in_path gamma1 gamma2 Sbe.rhs_e
             (fun _ _ => true)
             (fun k m i => cmul (cneg cj) (csub (e_in_path k m) (e_in_path k i)))).
  - rewrite andb_true_r. reflexivity.
  - intros k0 m i j s k' r' c'. unfold Sbe.rhs_body_j.
    destruct (i =? j), (m =? i); simpl; unfold iadd3;
      rewrite ?andb_true_r; reflexivity.
  - reflexivity.
Qed.

Lemma rhs_gamma1_closed (k r c : nat) :
  Sbe.rhs_gamma1 rhs k r c =
  if (k <? Sbe.Nk1 p) && (r =? c) && (r <? nb * nb) && (r / nb =? r mod nb)
  then cadd c0 (cneg gamma1) else c0.
Proof.
  unfold Sbe.rhs_of_sbe.
  rewrite (loop_k_spec p dipole_in_path e_in_path gamma1 gamma2 Sbe.rhs_gamma1
             (fun m i => m =? i) (fun _ _ _ => cneg gamma1)).
  - reflexivity.
  - intros k0 m i j s k' r' c'. unfold Sbe.rhs_body_j.
    destruct (i =? j), (m =? i); simpl; unfold iadd3;
      rewrite ?andb_true_r; reflexivity.
  - reflexivity.
Qed.

Lemma rhs_gamma2_closed (k r c : nat) :
  Sbe.rhs_gamma2 rhs k r c =
  if (k <? Sbe.Nk1 p) && (r =? c) && (r <? nb * nb) && negb (r / nb =? r mod nb)
  then cadd c0 (cneg gamma2) else c0.
Proof.
  unfold Sbe.rhs_of_sbe.
  rewrite (loop_k_spec p dipole_in_path e_in_path gamma1 gamma2 Sbe.rhs_gamma2
             (fun m i => negb (m =? i)) (fun _ _ _ => cneg gamma2)).
  - reflexivity.
  - intros k0 m i j s k' r' c'. unfold Sbe.rhs_body_j.
    destruct (i =? j), (m =? i); simpl; unfold iadd3;
      rewrite ?andb_true_r; reflexivity.
  - reflexivity.
Qed.
End Rhs_closed_form.

(** ** The Gaussian rationals satisfy the laws of exact arithmetic *)

Lemma Qc_ltb_lt (a b : Qc) : Qc_ltb a b = true <-> (a < b)%Qc.
Proof.
  unfold Qc_ltb. rewrite Qclt_alt.
  destruct (a ?= b)%Qc; split; intros Hc; congruence.
Qed.

Lemma Qc_ltb_sub_0 (a b : Qc) : Qc_ltb (Q2Qc 0) (a - b)%Qc = Qc_ltb b a.
Proof.
  apply eq_true_iff_eq. rewrite !Qc_ltb_lt.
  rewrite (Qclt_minus_iff b a). reflexivity.
Qed.

Lemma Qc_eq_bool_refl (a : Qc) : Qc_eq_bool a a = true.
Proof.
  unfold Qc_eq_bool. destruct (Qcanon.Qc_eq_dec a a); [reflexivity | congruence].
Qed.

Lemma Qc_eq_bool_sub_0 (a b : Qc) :
  Qc_eq_bool (a - b)%Qc (Q2Qc 0) = Qc_eq_bool a b.
Proof.
  apply eq_true_iff_eq. split; intros Hq.
  - apply Qc_eq_bool_correct in Hq.
    replace a with (a - b + b)%Qc by ring. rewrite Hq.
    replace (Q2Qc 0 + b)%Qc with b by ring.
    apply Qc_eq_bool_refl.
  - apply Qc_eq_bool_correct in Hq. subst b.
    replace (a - a)%Qc with (Q2Qc 0) by ring.
    apply Qc_eq_bool_refl.
Qed.

Lemma GQ_ring_theory :
  ring_theory (R := GQ) c0 c1 cadd cmul csub cneg eq.
Proof.
  constructor; simpl;
    repeat (let x := fresh "x" in intros [? ?]);
    unfold GQ_add, GQ_mul, GQ_sub, GQ_neg, GQ_ofQ; simpl; f_equal; ring.
Qed.

#[global] Instance GQ_laws : ScalarLaws GQ.
Proof.
  constructor.
  - exact GQ_ring_theory.
  - intros [a b] _. simpl. unfold GQ_div, GQ_ofQ, Qcdiv. simpl. f_equal; ring.
  - intros [a b] [a' b']. simpl. unfold GQ_gtb, GQ_sub, GQ_ofQ. simpl.
    rewrite !Qc_ltb_sub_0, Qc_eq_bool_sub_0. reflexivity.
  - intros [a b] [a' b']. simpl. unfold GQ_eqb. simpl. split.
    + intros Heq. apply andb_prop in Heq as [Hre Him].
      apply Qc_eq_bool_correct in Hre. apply Qc_eq_bool_correct in Him.
      subst. reflexivity.
    + intros Heq. injection Heq as -> ->.
      unfold Qc_eq_bool. destruct (Qcanon.Qc_eq_dec a' a'); [|contradiction].
      destruct (Qcanon.Qc_eq_dec b' b'); [reflexivity | contradiction].
Qed.

(** ** Results in exact arithmetic *)

Section Exact.
Context {C : Type} {SC : Scalar C} {NP : Numpy C} {LAWS : ScalarLaws C}.

Add Ring scalar_ring_inst : scalar_ring.

Lemma cadd_0_l (x : C) : cadd c0 x = x.
Proof. ring. Qed.

Lemma cmul_0_l (x : C) : cmul c0 x = c0.
Proof. ring. Qed.

Lemma cmul_0_r (x : C) : cmul x c0 = c0.
Proof. ring. Qed.

Lemma csub_diag (x : C) : csub x x = c0.
Proof. ring. Qed.

Lemma cneg_0 : cneg c0 = c0 :> C.
Proof. ring. Qed.

Lemma ceqb_false (a b : C) : a <> b -> ceqb a b = false.
Proof.
  intros Hne. destruct (ceqb a b) eqn:Heq; [|reflexivity].
  apply ceqb_eq in Heq. contradiction.
Qed.

(** C2.  For every path sample and every k-point [k < Nk1], the entry of the
    assembled tensors at vectorized row [(m, i)] and vectorized column
    [(m', i')] is: for the energy tensor, [-1j*(E_m(k) - E_i(k))] on the
    diagonal and zero off it; for the population-decay tensor, [-1/T1] on
    the diagonal where [m = i] and zero elsewhere; for the coherence-decay
    tensor, [-1/T2] on the diagonal where [m <> i] and zero elsewhere. *)
Theorem liouville_tensors_diagonal
    (p : Sbe.params) (dipole_in_path : tensor3 C) (e_in_path : tensor2 C)
    (T1 T2 : C) (k m i m' i' : nat) :
  k < Sbe.Nk1 p -> m < Sbe.n p -> i < Sbe.n p -> m' < Sbe.n p -> i' < Sbe.n p ->
  let rhs := Sbe.rhs_of_sbe p dipole_in_path e_in_path
               (Sbe.damping T1) (Sbe.damping T2) in
  let r := m * Sbe.n p + i in
  let c := m' * Sbe.n p + i' in
  Sbe.rhs_e rhs k r c =
    (if (m =? m') && (i =? i')
     then cmul (cneg cj) (csub (e_in_path k m) (e_in_path k i)) else c0)
  /\ Sbe.rhs_gamma1 rhs k r c =
    (if (m =? m') && (i =? i') && (m =? i) then cneg (cdiv c1 T1) else c0)
  /\ Sbe.rhs_gamma2 rhs k r c =
    (if (m =? m') && (i =? i') && negb (m =? i) then cneg (cdiv c1 T2) else c0).
Proof.
  intros Hk Hm Hi Hm' Hi' rhs r c. subst rhs r c.
  rewrite rhs_e_closed, rhs_gamma1_closed, rhs_gamma2_closed.
  rewrite (vec_index_div _ m i Hi), (vec_index_mod _ m i Hi).
  pose proof (vec_index_lt _ m i Hm Hi) as Hlt.
  pose proof (vec_index_inj (Sbe.n p) m i m' i' Hi Hi') as Hinj.
  unfold Sbe.damping.
  destruct (Nat.eqb_spec m i) as [Hmi|Hmi];
    cases_bool; simpl; rewrite ?cadd_0_l; try (split; [|split]; reflexivity);
    try lia; try (destruct Hinj; [assumption | lia]); subst; lia.
Qed.
End Exact.

(** ** [initial_condition] *)

Section Flatten.
Context {C : Type}.

Lemma flatten3_length (d0 d1 d2 : nat) (T : tensor3 C) :
  length (flatten3 d0 d1 d2 T) = d0 * d1 * d2.
Proof. unfold flatten3. rewrite length_map, length_seq. reflexivity. Qed.

(** Row-major order: entry [(k, a, b)] sits at index [k*(d1*d2) + a*d2 + b]. *)
Lemma flatten3_lookup (d0 d1 d2 : nat) (T : tensor3 C) (k a b : nat) :
  k < d0 -> a < d1 -> b < d2 ->
  flatten3 d0 d1 d2 T !! (k * (d1 * d2) + a * d2 + b) = Some (T k a b).
Proof.
  intros Hk Ha Hb. unfold flatten3.
  assert (Hab : a * d2 + b < d1 * d2).
  { pose proof (Nat.mul_le_mono_r (a + 1) d1 d2). lia. }
  assert (Hlt : k * (d1 * d2) + a * d2 + b < d0 * d1 * d2).
  { pose proof (Nat.mul_le_mono_r (k + 1) d0 (d1 * d2)). lia. }
  rewrite list_lookup_fmap, lookup_seq_lt by exact Hlt. simpl.
  replace (k * (d1 * d2) + a * d2 + b) with (k * (d1 * d2) + (a * d2 + b)) by lia.
  rewrite (vec_index_div (d1 * d2) k (a * d2 + b) Hab).
  replace (k * (d1 * d2) + (a * d2 + b)) with ((k * d1 + a) * d2 + b) by lia.
  rewrite (vec_index_div d2 (k * d1 + a) b Hb), (vec_index_mod d2 (k * d1 + a) b Hb).
  rewrite (vec_index_mod d1 k a Ha). reflexivity.
Qed.
End Flatten.

Section Initial_condition.
Context {C : Type} `{Scalar C} `{Numpy C}.

Lemma assign_loop_spec (N : nat) (M : nat -> tensor2 C) (T : tensor3 C) (k a b : nat) :
  for_range N (fun k T => Sbe.assign_k T k (M k)) T k a b =
  if k <? N then M k a b else T k a b.
Proof.
  induction N as [|N IH].
  - reflexivity.
  - rewrite for_range_S. unfold Sbe.assign_k at 1. rewrite IH.
    cases_bool; subst; try reflexivity; lia.
Qed.

(** The state returned by [initial_condition], entry by entry, with the
    operations as the code applies them. *)
Lemma initial_condition_spec (e_fermi temperature : C) (e_in_path : ndarray2 C) :
  0 < rows e_in_path -> 0 < cols e_in_path ->
  exists y0,
    Sbe.initial_condition e_fermi temperature e_in_path = Ok y0
    /\ length y0 = rows e_in_path * cols e_in_path * cols e_in_path
    /\ forall k a b, k < rows e_in_path -> a < cols e_in_path -> b < cols e_in_path ->
         y0 !! (k * (cols e_in_path * cols e_in_path) + a * cols e_in_path + b) =
         Some (if a =? b
               then Sbe.distrib_bands e_fermi temperature e_in_path k a
               else c0).
Proof.
  intros Hr Hc. unfold Sbe.initial_condition.
  destruct (Nat.eqb_spec (cols e_in_path) 0) as [?|_]; [lia|].
  destruct (Nat.eqb_spec (rows e_in_path) 0) as [?|_]; [lia|].
  eexists. split; [reflexivity|]. split; [apply flatten3_length|].
  intros k a b Hk Ha Hb.
  rewrite flatten3_lookup by assumption.
  rewrite assign_loop_spec. destruct (Nat.ltb_spec k (rows e_in_path)); [|lia].
  reflexivity.
Qed.
End Initial_condition.

Section Exact_initial_condition.
Context {C : Type} {SC : Scalar C} {NP : Numpy C} {LAWS : ScalarLaws C}.

(** C3.  For every array of band energies with at least one k-point and one
    band, [initial_condition] returns a state whose coherence entries
    ([a <> b]) are zero at every k-point and whose population entries are
    the Fermi-Dirac occupation [1/(exp((e - e_fermi)/temperature) + 1)] when
    [temperature > 1e-5], and otherwise the step distribution: 1 where
    [e < e_fermi], 0 elsewhere. *)
Theorem initial_condition_equilibrium
    (e_fermi temperature : C) (e_in_path : ndarray2 C) :
  0 < rows e_in_path -> 0 < cols e_in_path ->
  exists y0,
    Sbe.initial_condition e_fermi temperature e_in_path = Ok y0
    /\ length y0 = rows e_in_path * cols e_in_path * cols e_in_path
    /\ forall k a b, k < rows e_in_path -> a < cols e_in_path -> b < cols e_in_path ->
         y0 !! (k * (cols e_in_path * cols e_in_path) + a * cols e_in_path + b) =
         Some (if a =? b then
                 if cgtb temperature (cofQ (1 # 100000)) then
                   cdiv c1 (cadd (np_exp (cdiv (csub (at2 e_in_path k a) e_fermi)
                                               temperature)) c1)
                 else if cgtb e_fermi (at2 e_in_path k a) then c1 else c0
               else c0).
Proof.
  intros Hr Hc.
  destruct (initial_condition_spec e_fermi temperature e_in_path Hr Hc)
    as (y0 & Hy0 & Hlen & Hent).
  exists y0. split; [exact Hy0|]. split; [exact Hlen|].
  intros k a b Hk Ha Hb. rewrite (Hent k a b Hk Ha Hb).
  unfold Sbe.distrib_bands.
  destruct (a =? b); [|reflexivity].
  destruct (cgtb temperature (cofQ (1 # 100000))).
  - rewrite cadd_0_l. reflexivity.
  - rewrite cgtb_sub_0. destruct (cgtb e_fermi (at2 e_in_path k a)).
    + rewrite cadd_0_l. reflexivity.
    + reflexivity.
Qed.
End Exact_initial_condition.

(** ** [fnumba]: what a call returns *)

Lemma lookup_nth_lt {A : Type} (l : list A) (i : nat) (d : A) :
  i < length l -> l !! i = Some (nth i l d).
Proof.
  intros Hi. destruct (lookup_lt_is_Some_2 l i Hi) as [x Hx].
  rewrite Hx. f_equal. symmetry. apply nth_lookup_Some. exact Hx.
Qed.

Section Array_ops.
Context {C : Type} `{Scalar C}.

Lemma slice_length (lo hi : nat) (y : list C) :
  length (slice lo hi y) = Nat.min (hi - lo) (length y - lo).
Proof. unfold slice. rewrite length_take, length_drop. reflexivity. Qed.

Lemma slice_app_middle (pre old post : list C) (lo hi : nat) :
  length pre = lo -> length old = hi - lo ->
  slice lo hi (pre ++ old ++ post) = old.
Proof.
  intros Hpre Hold. unfold slice.
  rewrite drop_app_length' by (symmetry; exact Hpre).
  rewrite take_app_length' by (symmetry; exact Hold). reflexivity.
Qed.

Lemma bcast2_same_length (f : C -> C -> C) (u v : list C) :
  length u = length v -> bcast2 f u v = zip_with f u v.
Proof.
  intros Hlen. unfold bcast2. rewrite Hlen, Nat.eqb_refl. reflexivity.
Qed.

Lemma bcast2_length (f : C -> C -> C) (u v : list C) :
  length u = length v \/ length u = 1 -> length (bcast2 f u v) = length v.
Proof.
  intros Hlen. unfold bcast2.
  destruct (Nat.eqb_spec (length u) (length v)) as [Heq|Hne].
  - rewrite length_zip_with. lia.
  - destruct (Nat.eqb_spec (length u) 1) as [_|Hne1].
    + apply length_map.
    + lia.
Qed.

Lemma np_dot_ok (sz : nat) (M : tensor2 C) (v : list C) :
  length v = sz -> np_dot sz M v = Ok (map (dot_row sz M v) (seq 0 sz)).
Proof. intros Hlen. unfold np_dot. rewrite Hlen, Nat.eqb_refl. reflexivity. Qed.

Lemma np_sub_ok (u v : list C) :
  length u = length v \/ length u = 1 -> np_sub u v = Ok (bcast2 csub u v).
Proof.
  intros Hlen. unfold np_sub, broadcastable.
  destruct Hlen as [Heq|Heq]; rewrite Heq.
  - rewrite Nat.eqb_refl. reflexivity.
  - simpl. rewrite orb_true_r. reflexivity.
Qed.

Lemma iadd_slice_app (pre old post : list C) (lo hi : nat) (v : list C) :
  length pre = lo -> length old = hi - lo -> length v = length old ->
  iadd_slice (pre ++ old ++ post) lo hi v = Ok (pre ++ bcast2 cadd old v ++ post).
Proof.
  intros Hpre Hold Hv. unfold iadd_slice.
  rewrite slice_app_middle by assumption.
  rewrite Hv, Nat.eqb_refl. simpl.
  rewrite take_app_length' by (symmetry; exact Hpre).
  rewrite drop_app_ge by lia.
  replace (lo + length old - length pre) with (length old) by lia.
  rewrite drop_app_length. reflexivity.
Qed.

Lemma set_last_app (x : list C) (a v : C) :
  set_last (x ++ [a]) v = Ok (x ++ [v]).
Proof.
  unfold set_last. destruct (x ++ [a]) eqn:Hx.
  - destruct x; discriminate.
  - rewrite <- Hx. f_equal. rewrite length_app. simpl.
    replace (length x + 1 - 1) with (length x + 0) by lia.
    rewrite insert_app_r. reflexivity.
Qed.
End Array_ops.

Section Fnumba_run.
Context {C : Type} `{Scalar C}.
Variable n : nat.
Variable electric_field : C -> C.

Lemma block_length (y : list C) (Nk k : nat) :
  length y = Nk * (n * n) + 1 -> k < Nk -> length (Sbe.block n k y) = n * n.
Proof.
  intros Hy Hk. unfold Sbe.block. rewrite slice_length, Hy.
  pose proof (Nat.mul_le_mono_r (k + 1) Nk (n * n)). lia.
Qed.

(** With a single k-point the slice taken at index 1 holds the vector
    potential only. *)
Lemma block_length_end (y : list C) (Nk : nat) :
  length y = Nk * (n * n) + 1 -> length (Sbe.block n Nk y) = Nat.min (n * n) 1.
Proof.
  intros Hy. unfold Sbe.block. rewrite slice_length, Hy. lia.
Qed.

Lemma neighbours_lower (Nk k : nat) : k < Nk -> (Sbe.neighbours Nk k).2 < Nk.
Proof. intros Hk. unfold Sbe.neighbours. cases_bool; simpl; lia. Qed.

Lemma neighbours_upper (Nk k : nat) :
  k < Nk -> (Sbe.neighbours Nk k).1 < Nk \/ (Nk = 1 /\ (Sbe.neighbours Nk k).1 = 1).
Proof. intros Hk. unfold Sbe.neighbours. cases_bool; simpl; lia. Qed.

Lemma neighbour_blocks_broadcast (y : list C) (Nk k : nat) :
  length y = Nk * (n * n) + 1 -> k < Nk ->
  length (Sbe.block n (Sbe.neighbours Nk k).2 y) = n * n
  /\ (length (Sbe.block n (Sbe.neighbours Nk k).1 y) = n * n
      \/ length (Sbe.block n (Sbe.neighbours Nk k).1 y) = 1).
Proof.
  intros Hy Hk. split.
  - apply (block_length y Nk); [exact Hy | apply neighbours_lower, Hk].
  - destruct (neighbours_upper Nk k Hk) as [Hlt|[-> ->]].
    + left. apply (block_length y Nk); assumption.
    + rewrite (block_length_end y 1 Hy). lia.
Qed.

Lemma dot_length (sz : nat) (M : tensor2 C) (v : list C) :
  length (map (dot_row sz M v) (seq 0 sz)) = sz.
Proof. rewrite length_map, length_seq. reflexivity. Qed.

Section One_call.
Variables (electric_f D : C) (y y0 : list C) (rhs : Sbe.rhs_tensors C) (Nk : nat).
Hypothesis Hy : length y = Nk * (n * n) + 1.
Hypothesis Hy0 : length y0 = length y.

Lemma fnumba_block_length (k : nat) :
  k < Nk -> length (Sbe.fnumba_block n electric_f D y rhs y0 Nk k) = n * n.
Proof.
  intros Hk. unfold Sbe.fnumba_block, Sbe.block_update.
  destruct (neighbour_blocks_broadcast y Nk k Hy Hk) as [Hj Hi].
  assert (Hb1 : forall v, length v = n * n ->
            length (bcast2 cadd (replicate (n * n) c0) v) = n * n).
  { intros v Hv. rewrite bcast2_length; [exact Hv|]. left.
    rewrite length_replicate. symmetry. exact Hv. }
  rewrite bcast2_length; [apply dot_length|]. left.
  rewrite dot_length.
  rewrite bcast2_length.
  - unfold np_scale. rewrite length_map, bcast2_length; [exact Hj|]. lia.
  - left. rewrite Hb1 by apply dot_length.
    unfold np_scale. rewrite length_map, bcast2_length; [symmetry; exact Hj|]. lia.
Qed.

Lemma fnumba_body_spec (k : nat) (pre post : list C) :
  k < Nk -> length pre = k * (n * n) ->
  Sbe.fnumba_body n electric_f D y rhs y0 Nk k (pre ++ replicate (n * n) c0 ++ post)
  = Ok (pre ++ Sbe.fnumba_block n electric_f D y rhs y0 Nk k ++ post).
Proof.
  intros Hk Hpre. unfold Sbe.fnumba_body, Sbe.fnumba_block, Sbe.block_update.
  destruct (neighbour_blocks_broadcast y Nk k Hy Hk) as [Hj Hi].
  destruct (Sbe.neighbours Nk k) as [i_k j_k]. simpl in Hj, Hi. simpl fst. simpl snd.
  pose proof (block_length y Nk k Hy Hk) as Hbk.
  assert (Hbk0 : length (Sbe.block n k y0) = n * n).
  { apply (block_length y0 Nk); [congruence | exact Hk]. }
  assert (Hsz : (k + 1) * (n * n) - k * (n * n) = n * n) by lia.
  rewrite np_dot_ok by exact Hbk. simpl.
  rewrite iadd_slice_app;
    [| exact Hpre | rewrite length_replicate; lia
     | rewrite dot_length, length_replicate; reflexivity ].
  simpl.
  rewrite (np_sub_ok (Sbe.block n i_k y) (Sbe.block n j_k y)) by lia. simpl.
  assert (Hd : length (bcast2 csub (Sbe.block n i_k y) (Sbe.block n j_k y)) = n * n).
  { rewrite bcast2_length; [exact Hj | lia]. }
  assert (Hb1 : length (bcast2 cadd (replicate (n * n) c0)
                   (map (dot_row (n * n) (Sbe.liouville electric_f rhs k)
                           (Sbe.block n k y)) (seq 0 (n * n)))) = n * n).
  { rewrite bcast2_length; [apply dot_length|]. left.
    rewrite length_replicate, dot_length. reflexivity. }
  rewrite iadd_slice_app;
    [| exact Hpre | lia | unfold np_scale; rewrite length_map; lia ].
  simpl.
  rewrite (np_sub_ok (Sbe.block n k y) (Sbe.block n k y0)) by lia. simpl.
  rewrite np_dot_ok by (rewrite bcast2_length; lia). simpl.
  rewrite iadd_slice_app; [reflexivity | exact Hpre | | ].
  - rewrite bcast2_length; unfold np_scale; rewrite length_map; lia.
  - rewrite dot_length. rewrite bcast2_length; unfold np_scale; rewrite length_map; lia.
Qed.

Lemma fnumba_blocks_length (K : nat) :
  K <= Nk ->
  length (flat_map (Sbe.fnumba_block n electric_f D y rhs y0 Nk) (seq 0 K)) = K * (n * n).
Proof.
  induction K as [|K IH]; intros HK.
  - reflexivity.
  - rewrite seq_S, flat_map_app, length_app, IH by lia. simpl.
    rewrite app_nil_r, fnumba_block_length by lia. lia.
Qed.

Lemma fnumba_loop_spec (K : nat) :
  K <= Nk ->
  for_range_m K (Sbe.fnumba_body n electric_f D y rhs y0 Nk) (replicate (length y) c0)
  = Ok (flat_map (Sbe.fnumba_block n electric_f D y rhs y0 Nk) (seq 0 K)
        ++ replicate ((Nk - K) * (n * n) + 1) c0).
Proof.
  induction K as [|K IH]; intros HK.
  - simpl. rewrite Hy, Nat.sub_0_r. reflexivity.
  - rewrite for_range_m_S, IH by lia. rewrite outcome_bind_ok.
    replace ((Nk - K) * (n * n) + 1)
      with (n * n + ((Nk - Datatypes.S K) * (n * n) + 1)).
    2:{ replace (Nk - K) with (Datatypes.S (Nk - Datatypes.S K)) by lia. lia. }
    rewrite replicate_add.
    rewrite fnumba_body_spec; [| lia | apply fnumba_blocks_length; lia].
    rewrite seq_S, flat_map_app. simpl. rewrite app_nil_r, <- app_assoc.
    reflexivity.
Qed.
End One_call.

(** A call of [fnumba] on a state of [Nk1] blocks of [n**2] entries and the
    vector potential returns the blocks of the loop, then [-E(t)]. *)
Lemma fnumba_spec (t : C) (y y0 : list C) (rhs : Sbe.rhs_tensors C)
    (p : Sbe.params) (dk : C) :
  ceqb (cmul (cofQ 2) dk) c0 = false ->
  length y = Sbe.Nk1 p * (n * n) + 1 -> length y0 = length y ->
  Sbe.fnumba n electric_field t y rhs y0 p dk =
  Ok (flat_map (Sbe.fnumba_block n (electric_field t)
                  (cdiv (electric_field t) (cmul (cofQ 2) dk)) y rhs y0 (Sbe.Nk1 p))
               (seq 0 (Sbe.Nk1 p))
      ++ [cneg (electric_field t)]).
Proof.
  intros Hdk Hy Hy0. unfold Sbe.fnumba, py_div. rewrite Hdk, outcome_bind_ok.
  rewrite (fnumba_loop_spec _ _ y y0 rhs (Sbe.Nk1 p) Hy Hy0 (Sbe.Nk1 p)) by lia.
  simpl. rewrite Nat.sub_diag. simpl. apply set_last_app.
Qed.
End Fnumba_run.

Section Fnumba_results.
Context {C : Type} `{Scalar C} `{Numpy C}.

(** A step [dk] with [2*dk == 0] stops [fnumba] at [D = electric_f/(2*dk)]. *)
Lemma fnumba_zero_step
    (n : nat) (electric_field : C -> C) (t : C) (y y0 : list C)
    (rhs : Sbe.rhs_tensors C) (p : Sbe.params) (dk : C) :
  ceqb (cmul (cofQ 2) dk) c0 = true ->
  Sbe.fnumba n electric_field t y rhs y0 p dk = Raise ZeroDivisionError.
Proof. intros Hdk. unfold Sbe.fnumba, py_div. rewrite Hdk. reflexivity. Qed.

(** C9.  The last component of the state vector carries the vector
    potential: for every time and every state of [Nk1] blocks of [n**2]
    entries plus one scalar, a call of [fnumba] that gets past the division
    by [2*dk] returns a vector of the same length whose last entry is
    [-E(t)] (with [2*dk == 0] the call raises [ZeroDivisionError] and
    returns nothing); and the initial state built from [initial_condition]
    ends with 0. *)
Theorem vector_potential_component
    (n : nat) (electric_field : C -> C) (t : C) (y y0 : list C)
    (rhs : Sbe.rhs_tensors C) (p : Sbe.params) (dk : C)
    (e_fermi temperature : C) (e_in_path : ndarray2 C) :
  length y = Sbe.Nk1 p * (n * n) + 1 -> length y0 = length y ->
  0 < rows e_in_path -> 0 < cols e_in_path ->
  (ceqb (cmul (cofQ 2) dk) c0 = false ->
   exists x, Sbe.fnumba n electric_field t y rhs y0 p dk = Ok x
             /\ length x = length y
             /\ last x = Some (cneg (electric_field t)))
  /\ (ceqb (cmul (cofQ 2) dk) c0 = true ->
      Sbe.fnumba n electric_field t y rhs y0 p dk = Raise ZeroDivisionError)
  /\ (exists s0, Sbe.initial_state e_fermi temperature e_in_path = Ok s0
                 /\ last s0 = Some c0).
Proof.
  intros Hy Hy0 Hr Hc. split; [|split].
  - intros Hdk. eexists. split; [apply fnumba_spec; assumption|]. split.
    + rewrite length_app, (fnumba_blocks_length n _ _ y y0 rhs _ Hy Hy0) by lia.
      simpl. lia.
    + apply last_snoc.
  - apply fnumba_zero_step.
  - destruct (initial_condition_spec e_fermi temperature e_in_path Hr Hc)
      as (s & Hs & _).
    exists (s ++ [c0]). split.
    + unfold Sbe.initial_state. rewrite Hs. reflexivity.
    + apply last_snoc.
Qed.

(** For two or more k-points the neighbours chosen by the code are the
    periodic ones. *)
Lemma neighbours_periodic (Nk k : nat) :
  2 <= Nk -> k < Nk -> Sbe.neighbours Nk k = Sbe.periodic_neighbours Nk k.
Proof.
  intros HNk Hk. unfold Sbe.neighbours, Sbe.periodic_neighbours.
  destruct (Nat.eqb_spec k 0) as [->|Hk0].
  - simpl. rewrite (Nat.mod_small 1), (Nat.mod_small (Nk - 1)) by lia. reflexivity.
  - assert (Hlow : (k + Nk - 1) mod Nk = k - 1).
    { symmetry. apply (Nat.mod_unique _ _ 1); lia. }
    rewrite Hlow. destruct (Nat.eqb_spec k (Nk - 1)) as [Hlast|Hmid].
    + replace (k + 1) with Nk by lia. rewrite Nat.Div0.mod_same. reflexivity.
    + rewrite Nat.mod_small by lia. reflexivity.
Qed.

Lemma flat_map_seq_ext {A : Type} (f g : nat -> list A) (K : nat) :
  (forall k, k < K -> f k = g k) -> flat_map f (seq 0 K) = flat_map g (seq 0 K).
Proof.
  induction K as [|K IH]; intros Hfg.
  - reflexivity.
  - rewrite seq_S, !flat_map_app, IH by (intros; apply Hfg; lia).
    simpl. rewrite (Hfg K) by lia. reflexivity.
Qed.

(** On a path of two or more k-points [fnumba] returns the right-hand side
    with the centered difference [D*(y_{k+1} - y_{k-1})], [D = E(t)/(2*dk)],
    over periodic neighbours, whatever the Brillouin-zone type. *)
Lemma fnumba_periodic
    (n : nat) (electric_field : C -> C) (t : C) (y y0 : list C)
    (rhs : Sbe.rhs_tensors C) (p : Sbe.params) (dk : C) :
  ceqb (cmul (cofQ 2) dk) c0 = false ->
  2 <= Sbe.Nk1 p ->
  length y = Sbe.Nk1 p * (n * n) + 1 -> length y0 = length y ->
  Sbe.fnumba n electric_field t y rhs y0 p dk =
  Ok (flat_map (Sbe.periodic_block n (electric_field t)
                  (cdiv (electric_field t) (cmul (cofQ 2) dk)) y rhs y0 (Sbe.Nk1 p))
               (seq 0 (Sbe.Nk1 p))
      ++ [cneg (electric_field t)]).
Proof.
  intros Hdk HNk Hy Hy0. rewrite fnumba_spec by assumption.
  do 2 f_equal. apply flat_map_seq_ext. intros k Hk.
  unfold Sbe.fnumba_block, Sbe.periodic_block.
  rewrite neighbours_periodic by assumption. reflexivity.
Qed.
End Fnumba_results.

(** *** The right-hand side entry by entry *)

Section Fnumba_entries.
Context {C : Type} `{Scalar C}.
Variable n : nat.

Lemma flat_map_length_blocks (f : nat -> list C) (sz K : nat) :
  (forall i, i < K -> length (f i) = sz) -> length (flat_map f (seq 0 K)) = K * sz.
Proof.
  induction K as [|K IH]; intros Hlen; [reflexivity|].
  rewrite seq_S, flat_map_app, length_app, IH by (intros; apply Hlen; lia).
  simpl. rewrite app_nil_r, Hlen by lia. lia.
Qed.

Lemma flat_map_lookup (f : nat -> list C) (sz K k r : nat) :
  (forall i, i < K -> length (f i) = sz) -> k < K -> r < sz ->
  flat_map f (seq 0 K) !! (k * sz + r) = f k !! r.
Proof.
  intros Hlen. induction K as [|K IH]; intros Hk Hr; [lia|].
  assert (Hpre : length (flat_map f (seq 0 K)) = K * sz)
    by (apply flat_map_length_blocks; intros; apply Hlen; lia).
  rewrite seq_S, flat_map_app. simpl. rewrite app_nil_r.
  destruct (Nat.eq_dec k K) as [->|Hne].
  - rewrite lookup_app_r by lia. rewrite Hpre. f_equal. lia.
  - rewrite lookup_app_l.
    + apply IH; [intros; apply Hlen|..]; lia.
    + rewrite Hpre. pose proof (Nat.mul_le_mono_r (k + 1) K sz). lia.
Qed.

Lemma block_nth (y : list C) (Nk k r : nat) :
  r < n * n -> nth r (Sbe.block n k y) c0 = nth (k * (n * n) + r) y c0.
Proof.
  intros Hr. unfold Sbe.block, slice.
  rewrite !nth_lookup, lookup_take_lt, lookup_drop by lia. reflexivity.
Qed.

(** One entry of a block whose neighbour slices are whole blocks. *)
Lemma block_update_lookup (electric_f D : C) (y y0 : list C)
    (rhs : Sbe.rhs_tensors C) (Nk k i_k j_k r : nat) :
  length y = Nk * (n * n) + 1 -> length y0 = length y ->
  k < Nk -> i_k < Nk -> j_k < Nk -> r < n * n ->
  Sbe.block_update n electric_f D y rhs y0 k i_k j_k !! r =
  Some (cadd (cadd (cadd c0 (dot_row (n * n) (Sbe.liouville electric_f rhs k)
                                (Sbe.block n k y) r))
                   (cmul D (csub (nth (i_k * (n * n) + r) y c0)
                                 (nth (j_k * (n * n) + r) y c0))))
             (dot_row (n * n) (Sbe.rhs_gamma1 rhs k)
                (zip_with csub (Sbe.block n k y) (Sbe.block n k y0)) r)).
Proof.
  intros Hy Hy0 Hk Hi Hj Hr.
  pose proof (block_length n y Nk k Hy Hk) as Hbk.
  pose proof (block_length n y Nk i_k Hy Hi) as Hbi.
  pose proof (block_length n y Nk j_k Hy Hj) as Hbj.
  assert (Hbk0 : length (Sbe.block n k y0) = n * n)
    by (apply (block_length n y0 Nk); [congruence | exact Hk]).
  unfold Sbe.block_update, np_scale.
  rewrite (bcast2_same_length csub (Sbe.block n k y)) by congruence.
  rewrite (bcast2_same_length csub (Sbe.block n i_k y)) by congruence.
  rewrite (bcast2_same_length cadd (replicate (n * n) c0))
    by (rewrite length_replicate, dot_length; reflexivity).
  rewrite (bcast2_same_length cadd (zip_with cadd _ _))
    by (rewrite !length_zip_with, length_replicate, dot_length, length_map,
          length_zip_with; lia).
  rewrite bcast2_same_length
    by (rewrite !length_zip_with, length_replicate, !dot_length, length_map,
          length_zip_with; lia).
  rewrite !lookup_zip_with, !list_lookup_fmap, lookup_zip_with.
  rewrite lookup_replicate_2, lookup_seq_lt by exact Hr.
  rewrite (lookup_nth_lt (Sbe.block n i_k y) r c0) by lia.
  rewrite (lookup_nth_lt (Sbe.block n j_k y) r c0) by lia.
  rewrite !(block_nth y Nk) by exact Hr.
  reflexivity.
Qed.

(** X13.  On a path of two or more k-points and with [2*dk] not zero,
    entry [r] of block [k] of the
    vector returned by [fnumba] is the Liouville term, plus
    [D*(y_{k+1}[r] - y_{k-1}[r])] with [D = E(t)/(2*dk)] and the neighbour
    indices taken modulo [Nk1], plus the population-decay term. *)
Lemma fnumba_entry_periodic (electric_field : C -> C) (t : C) (y y0 : list C)
    (rhs : Sbe.rhs_tensors C) (p : Sbe.params) (dk : C) (k r : nat) :
  ceqb (cmul (cofQ 2) dk) c0 = false ->
  2 <= Sbe.Nk1 p ->
  length y = Sbe.Nk1 p * (n * n) + 1 -> length y0 = length y ->
  k < Sbe.Nk1 p -> r < n * n ->
  exists x,
    Sbe.fnumba n electric_field t y rhs y0 p dk = Ok x
    /\ x !! (k * (n * n) + r) =
       Some (cadd (cadd (cadd c0 (dot_row (n * n)
                                    (Sbe.liouville (electric_field t) rhs k)
                                    (Sbe.block n k y) r))
                        (cmul (cdiv (electric_field t) (cmul (cofQ 2) dk))
                              (csub (nth (((k + 1) mod Sbe.Nk1 p) * (n * n) + r) y c0)
                                    (nth (((k + Sbe.Nk1 p - 1) mod Sbe.Nk1 p) * (n * n) + r)
                                         y c0))))
                  (dot_row (n * n) (Sbe.rhs_gamma1 rhs k)
                     (zip_with csub (Sbe.block n k y) (Sbe.block n k y0)) r)).
Proof.
  intros Hdk HNk Hy Hy0 Hk Hr.
  eexists. split; [apply fnumba_periodic; assumption|].
  assert (Hblocks : forall i, i < Sbe.Nk1 p ->
            length (Sbe.periodic_block n (electric_field t)
                      (cdiv (electric_field t) (cmul (cofQ 2) dk)) y rhs y0
                      (Sbe.Nk1 p) i) = n * n).
  { intros i Hi. unfold Sbe.periodic_block.
    rewrite <- (neighbours_periodic (Sbe.Nk1 p) i HNk Hi).
    apply (fnumba_block_length n _ _ y y0 rhs (Sbe.Nk1 p) Hy Hy0 i Hi). }
  rewrite lookup_app_l.
  2:{ rewrite (flat_map_length_blocks _ (n * n)) by exact Hblocks.
      pose proof (Nat.mul_le_mono_r (k + 1) (Sbe.Nk1 p) (n * n)). lia. }
  rewrite (flat_map_lookup _ (n * n)) by assumption.
  unfold Sbe.periodic_block, Sbe.periodic_neighbours. simpl fst. simpl snd.
  apply (block_update_lookup _ _ y y0 rhs (Sbe.Nk1 p)); try assumption;
    apply Nat.mod_upper_bound; lia.
Qed.
End Fnumba_entries.

(** ** The equilibrium state under a vanishing field *)

Section Exact_fixed_point.
Context {C : Type} {SC : Scalar C} {NP : Numpy C} {LAWS : ScalarLaws C}.

Add Ring scalar_ring_fixed_point : scalar_ring.

Lemma map_seq_const {A : Type} (f : nat -> A) (a : A) (N : nat) :
  (forall r, r < N -> f r = a) -> map f (seq 0 N) = replicate N a.
Proof.
  intros Hf. symmetry. apply replicate_as_Forall_2.
  - rewrite length_map, length_seq. reflexivity.
  - apply Forall_forall. intros x Hx. apply list_elem_of_In, in_map_iff in Hx.
    destruct Hx as (r & <- & Hr). apply in_seq in Hr. symmetry. apply Hf. lia.
Qed.

Lemma dot_row_zero (sz : nat) (M : tensor2 C) (v : list C) (r : nat) :
  (forall c, c < sz -> cmul (M r c) (nth c v c0) = c0) -> dot_row sz M v r = c0.
Proof.
  unfold dot_row. induction sz as [|sz IH]; intros Hz.
  - reflexivity.
  - rewrite seq_S, fold_left_app. simpl.
    rewrite IH by (intros; apply Hz; lia). rewrite Hz by lia. ring.
Qed.

Lemma slice_nth (lo hi i : nat) (y : list C) :
  i < hi - lo -> nth i (slice lo hi y) c0 = nth (lo + i) y c0.
Proof.
  intros Hi. unfold slice.
  rewrite !nth_lookup, lookup_take_lt, lookup_drop by exact Hi. reflexivity.
Qed.

Lemma zip_with_csub_diag (v : list C) :
  zip_with csub v v = replicate (length v) c0.
Proof.
  induction v as [|a v IH]; simpl; [reflexivity|].
  rewrite IH, csub_diag. reflexivity.
Qed.

Lemma np_scale_zero (v : list C) : np_scale c0 v = replicate (length v) c0.
Proof.
  unfold np_scale. induction v as [|a v IH]; simpl; [reflexivity|].
  rewrite IH, cmul_0_l. reflexivity.
Qed.

Lemma bcast2_cadd_zeros (N : nat) :
  bcast2 cadd (replicate N c0) (replicate N c0) = replicate N (c0 : C).
Proof.
  rewrite bcast2_same_length by (rewrite !length_replicate; reflexivity).
  rewrite zip_with_replicate. f_equal. ring.
Qed.

Lemma nth_replicate_zero (N c : nat) : nth c (replicate N c0) c0 = (c0 : C).
Proof.
  rewrite nth_lookup. destruct (replicate N c0 !! c) as [x|] eqn:Hx.
  - apply lookup_replicate_1 in Hx. destruct Hx as [-> _]. reflexivity.
  - reflexivity.
Qed.

Lemma flat_map_replicate {A : Type} (f : nat -> list A) (a : A) (sz K : nat) :
  (forall k, k < K -> f k = replicate sz a) ->
  flat_map f (seq 0 K) = replicate (K * sz) a.
Proof.
  induction K as [|K IH]; intros Hf.
  - reflexivity.
  - rewrite seq_S, flat_map_app, IH by (intros; apply Hf; lia).
    simpl. rewrite app_nil_r, Hf by lia.
    rewrite <- replicate_add. f_equal. lia.
Qed.

Section Equilibrium.
Variable p : Sbe.params.
Variable dipole_in_path : tensor3 C.
Variable e_in_path : ndarray2 C.
Variables T1 T2 e_fermi temperature : C.
Hypothesis Hrows : rows e_in_path = Sbe.Nk1 p.
Hypothesis Hcols : cols e_in_path = Sbe.n p.
Hypothesis HNk : 0 < Sbe.Nk1 p.
Hypothesis Hn : 0 < Sbe.n p.

#[local] Abbreviation nb := (Sbe.n p).
#[local] Abbreviation rhs :=
  (Sbe.rhs_of_sbe p dipole_in_path (at2 e_in_path) (Sbe.damping T1) (Sbe.damping T2)).

(** Against a population entry the free-evolution and coherence-decay
    tensors vanish; a coherence entry of the equilibrium state is zero. *)
Lemma liouville_times_equilibrium (k r c : nat) (v : C) :
  v = c0 \/ c / nb = c mod nb ->
  cmul (Sbe.liouville c0 rhs k r c) v = c0.
Proof.
  intros [->|Hpop]; [ring|].
  unfold Sbe.liouville. rewrite rhs_e_closed, rhs_gamma2_closed.
  destruct (Nat.eqb_spec r c) as [->|Hrc].
  - rewrite Hpop, Nat.eqb_refl. simpl. rewrite !andb_false_r.
    destruct ((k <? Sbe.Nk1 p) && true && (c <? nb * nb)); ring.
  - rewrite !andb_false_r. simpl. ring.
Qed.

(** The entries of one block of the equilibrium state. *)
Lemma equilibrium_block_nth (ic : list C) (k c : nat) :
  length ic = rows e_in_path * cols e_in_path * cols e_in_path ->
  (forall k a b, k < rows e_in_path -> a < cols e_in_path -> b < cols e_in_path ->
     ic !! (k * (cols e_in_path * cols e_in_path) + a * cols e_in_path + b) =
     Some (if a =? b
           then Sbe.distrib_bands e_fermi temperature e_in_path k a else c0)) ->
  k < Sbe.Nk1 p -> c < nb * nb ->
  nth c (Sbe.block nb k (ic ++ [c0])) c0 = c0 \/ c / nb = c mod nb.
Proof.
  intros Hlen Hent Hk Hc. rewrite Hrows, Hcols in *.
  assert (Ha : c / nb < nb) by (apply Nat.Div0.div_lt_upper_bound; exact Hc).
  assert (Hb : c mod nb < nb) by (apply Nat.mod_upper_bound; lia).
  pose proof (Nat.div_mod_eq c nb) as Hdm.
  unfold Sbe.block. rewrite slice_nth by lia.
  rewrite nth_lookup, lookup_app_l.
  2:{ rewrite Hlen. pose proof (Nat.mul_le_mono_r (k + 1) (Sbe.Nk1 p) (nb * nb)). lia. }
  replace (k * (nb * nb) + c) with (k * (nb * nb) + c / nb * nb + c mod nb) by lia.
  rewrite (Hent k (c / nb) (c mod nb) Hk Ha Hb). simpl.
  destruct (Nat.eqb_spec (c / nb) (c mod nb)); [right; assumption | left; reflexivity].
Qed.

Lemma equilibrium_block_zero (electric_field : C -> C) (dk : C) (ic : list C) (k : nat) :
  length ic = rows e_in_path * cols e_in_path * cols e_in_path ->
  (forall k a b, k < rows e_in_path -> a < cols e_in_path -> b < cols e_in_path ->
     ic !! (k * (cols e_in_path * cols e_in_path) + a * cols e_in_path + b) =
     Some (if a =? b
           then Sbe.distrib_bands e_fermi temperature e_in_path k a else c0)) ->
  k < Sbe.Nk1 p ->
  Sbe.fnumba_block nb c0 c0 (ic ++ [c0]) rhs (ic ++ [c0]) (Sbe.Nk1 p) k
  = replicate (nb * nb) c0.
Proof.
  intros Hlen Hent Hk.
  assert (Hy : length (ic ++ [c0]) = Sbe.Nk1 p * (nb * nb) + 1).
  { rewrite length_app, Hlen, Hrows, Hcols. simpl. lia. }
  destruct (neighbour_blocks_broadcast nb (ic ++ [c0]) (Sbe.Nk1 p) k Hy Hk) as [Hj Hi].
  pose proof (block_length nb (ic ++ [c0]) (Sbe.Nk1 p) k Hy Hk) as Hbk.
  unfold Sbe.fnumba_block, Sbe.block_update.
  rewrite (map_seq_const _ c0).
  2:{ intros r Hr. apply dot_row_zero. intros c Hc.
      apply liouville_times_equilibrium.
      apply equilibrium_block_nth; assumption. }
  rewrite bcast2_cadd_zeros, np_scale_zero.
  rewrite bcast2_length, Hj by lia.
  rewrite bcast2_cadd_zeros.
  rewrite (bcast2_same_length csub) by reflexivity.
  rewrite zip_with_csub_diag, Hbk.
  rewrite (map_seq_const _ c0).
  2:{ intros r Hr. apply dot_row_zero. intros c Hc.
      rewrite nth_replicate_zero. ring. }
  apply bcast2_cadd_zeros.
Qed.

(** With a driving field that vanishes at all times, the equilibrium
    initial state (Fermi-Dirac or step populations, zero coherences, zero
    vector potential) is a fixed point: at that state [fnumba] returns the
    zero vector for every time [t]. *)
Lemma equilibrium_rhs_vanishes (electric_field : C -> C) (dk t : C) :
  (forall t', electric_field t' = c0) ->
  cmul (cofQ 2) dk <> c0 ->
  exists y0,
    Sbe.initial_state e_fermi temperature e_in_path = Ok y0
    /\ Sbe.fnumba nb electric_field t y0 rhs y0 p dk = Ok (replicate (length y0) c0).
Proof.
  intros HE Hdk.
  assert (Hr : 0 < rows e_in_path) by lia.
  assert (Hc : 0 < cols e_in_path) by lia.
  destruct (initial_condition_spec e_fermi temperature e_in_path Hr Hc)
    as (ic & Hic & Hlen & Hent).
  exists (ic ++ [c0]). split.
  { unfold Sbe.initial_state. rewrite Hic. reflexivity. }
  assert (Hy : length (ic ++ [c0]) = Sbe.Nk1 p * (nb * nb) + 1).
  { rewrite length_app, Hlen, Hrows, Hcols. simpl. lia. }
  rewrite fnumba_spec by (exact Hy || reflexivity || exact (ceqb_false _ _ Hdk)).
  rewrite HE, (cdiv_0_l _ Hdk), cneg_0.
  rewrite (flat_map_replicate _ c0 (nb * nb)).
  2:{ intros k Hk. apply equilibrium_block_zero; assumption. }
  rewrite Hy, replicate_add. reflexivity.
Qed.
End Equilibrium.
End Exact_fixed_point.

(** ** Evaluation on the Gaussian rationals *)

Lemma GQ_eq_intro (x y : GQ) :
  this (gre x) = this (gre y) -> this (gim x) = this (gim y) -> x = y.
Proof.
  destruct x as [a b], y as [a' b']. simpl. intros Hre Him.
  f_equal; apply Qc_is_canon; [rewrite Hre | rewrite Him]; reflexivity.
Qed.

Lemma GQ_neq_intro (x y : GQ) :
  Qeq_bool (this (gre x)) (this (gre y)) = false -> x <> y.
Proof.
  intros Hne Heq. subst y. rewrite Qeq_bool_refl in Hne. discriminate.
Qed.

(** Equality of two evaluated lists of Gaussian rationals, entry by entry. *)
Ltac gq_entries :=
  repeat (apply (f_equal2 (@cons GQ)); [apply GQ_eq_intro; reflexivity|]);
  reflexivity.
Ltac gq_run := vm_compute; try apply (f_equal (@Ok (list GQ))); gq_entries.

(** C1, on a path of a single k-point ([Nk1 = 1], two bands).  The
    specification takes the neighbours [k+1] and [k-1] modulo [Nk1], which
    are both the point itself, so the difference term vanishes.  [fnumba]
    takes the slice at index 1 instead, which holds the vector potential,
    and adds [D*(A - y_0)] to every entry of the density matrix: the two
    results differ. *)
Theorem fnumba_single_kpoint_not_periodic :
  let code :=
    Sbe.fnumba 2 Example.field_two (Example.gq 0 0) Example.y_one Example.rhs_one
      Example.y0_one Example.p_one (Example.gq 1 0) in
  let periodic :=
    flat_map (Sbe.periodic_block 2 (Example.gq 2 0) (Example.gq 1 0) Example.y_one
                Example.rhs_one Example.y0_one 1) (seq 0 1)
    ++ [Example.gq (-2) 0] in
  code = Ok [Example.gq 4 0; Example.gq 5 (-1); Example.gq 5 1; Example.gq 5 0;
             Example.gq (-2) 0]
  /\ periodic = [Example.gq 0 0; Example.gq 0 (-1); Example.gq 0 1; Example.gq 0 0;
                 Example.gq (-2) 0]
  /\ code <> Ok periodic.
Proof.
  intros code periodic.
  assert (Hcode : code = Ok [Example.gq 4 0; Example.gq 5 (-1); Example.gq 5 1;
                             Example.gq 5 0; Example.gq (-2) 0])
    by (subst code; gq_run).
  assert (Hper : periodic = [Example.gq 0 0; Example.gq 0 (-1); Example.gq 0 1;
                             Example.gq 0 0; Example.gq (-2) 0])
    by (subst periodic; gq_run).
  split; [exact Hcode|]. split; [exact Hper|].
  rewrite Hcode, Hper. intros Heq.
  pose proof (f_equal (fun o => match o with Ok l => head l | Raise _ => None end) Heq)
    as Hhead.
  apply (inj Some) in Hhead. revert Hhead. apply GQ_neq_intro. reflexivity.
Qed.

Lemma liouville_tensors_diagonal_witness :
  Sbe.rhs_e Example.rhs_two 1 1 1
    = cmul (cneg cj) (csub (Example.gq (-1) 0) (Example.gq 1 0))
  /\ Sbe.rhs_gamma1 Example.rhs_two 1 1 1 = c0
  /\ Sbe.rhs_gamma2 Example.rhs_two 1 1 1 = cneg (cdiv c1 (Example.gq 1 0)).
Proof.
  exact (liouville_tensors_diagonal Example.p_two Example.dipole
           (at2 (Example.two_bands 2)) (Example.gq 1000 0) (Example.gq 1 0)
           1 0 1 0 1
           ltac:(simpl; lia) ltac:(simpl; lia) ltac:(simpl; lia)
           ltac:(simpl; lia) ltac:(simpl; lia)).
Defined.

Lemma initial_condition_equilibrium_witness :
  exists y0,
    Sbe.initial_condition (Example.gq 0 0) (Example.gq 0 0) (Example.two_bands 2) = Ok y0
    /\ length y0 = 8
    /\ forall k a b, k < 2 -> a < 2 -> b < 2 ->
         y0 !! (k * 4 + a * 2 + b) =
         Some (if a =? b then
                 if cgtb (Example.gq 0 0) (cofQ (1 # 100000)) then
                   cdiv c1 (cadd (np_exp (cdiv (csub (at2 (Example.two_bands 2) k a)
                                                     (Example.gq 0 0))
                                               (Example.gq 0 0))) c1)
                 else if cgtb (Example.gq 0 0) (at2 (Example.two_bands 2) k a)
                      then c1 else c0
               else c0).
Proof.
  exact (initial_condition_equilibrium (Example.gq 0 0) (Example.gq 0 0)
           (Example.two_bands 2) ltac:(simpl; lia) ltac:(simpl; lia)).
Defined.

Lemma vector_potential_component_witness :
  (exists x, Sbe.fnumba 2 Example.field_two (Example.gq 0 0) Example.y_one
               Example.rhs_one Example.y0_one Example.p_one (Example.gq 1 0) = Ok x
             /\ length x = length Example.y_one
             /\ last x = Some (cneg (Example.field_two (Example.gq 0 0))))
  /\ (exists s0, Sbe.initial_state (Example.gq 0 0) (Example.gq 0 0)
                   (Example.two_bands 1) = Ok s0
                 /\ last s0 = Some c0).
Proof.
  destruct (vector_potential_component 2 Example.field_two (Example.gq 0 0)
              Example.y_one Example.y0_one Example.rhs_one Example.p_one
              (Example.gq 1 0) (Example.gq 0 0) (Example.gq 0 0) (Example.two_bands 1)
              eq_refl eq_refl ltac:(simpl; lia) ltac:(simpl; lia))
    as (Hrun & _ & Hinit).
  split; [apply Hrun; vm_compute; reflexivity | exact Hinit].
Defined.

(** ** [fourier] and the exact emission *)

Section Shifts.
Context {A : Type}.

Lemma half_le (N : nat) : N / 2 <= N.
Proof. pose proof (Nat.Div0.mul_div_le N 2). lia. Qed.

Lemma fftshift_length (x : list A) : length (Sbe.fftshift x) = length x.
Proof.
  unfold Sbe.fftshift. rewrite length_app, length_drop, length_take.
  pose proof (half_le (length x)). lia.
Qed.

Lemma ifftshift_length (x : list A) : length (Sbe.ifftshift x) = length x.
Proof.
  unfold Sbe.ifftshift. rewrite length_app, length_drop, length_take.
  pose proof (half_le (length x)). lia.
Qed.

(** [np.roll] by [s]: entry [j] comes from index [(j + (N - s)) mod N]. *)
Lemma roll_lookup (x : list A) (s j : nat) :
  s <= length x -> j < length x ->
  (drop (length x - s) x ++ take (length x - s) x) !! j
  = x !! ((j + (length x - s)) mod length x).
Proof.
  intros Hs Hj.
  destruct (Nat.lt_ge_cases j s) as [Hlt|Hge].
  - rewrite lookup_app_l by (rewrite length_drop; lia).
    rewrite lookup_drop, Nat.mod_small by lia. f_equal. lia.
  - rewrite lookup_app_r by (rewrite length_drop; lia).
    rewrite length_drop, lookup_take_lt by lia.
    f_equal. apply (Nat.mod_unique _ _ 1); lia.
Qed.

Lemma fftshift_lookup (x : list A) (j : nat) :
  j < length x ->
  Sbe.fftshift x !! j = x !! ((j + (length x - length x / 2)) mod length x).
Proof.
  intros Hj. unfold Sbe.fftshift.
  apply roll_lookup; [apply half_le | exact Hj].
Qed.

Lemma ifftshift_lookup (x : list A) (m : nat) :
  m < length x ->
  Sbe.ifftshift x !! m = x !! ((m + length x / 2) mod length x).
Proof.
  intros Hm. unfold Sbe.ifftshift.
  pose proof (half_le (length x)) as Hh.
  pose proof (roll_lookup x (length x - length x / 2) m ltac:(lia) Hm) as Hroll.
  replace (length x - (length x - length x / 2)) with (length x / 2) in Hroll by lia.
  exact Hroll.
Qed.
End Shifts.

Lemma fftfreq_split (N : nat) :
  Z.to_nat ((Z.of_nat N - 1) / 2 + 1) = N - N / 2.
Proof.
  pose proof (Nat.div_mod_eq N 2) as Hdm.
  pose proof (Nat.mod_upper_bound N 2 ltac:(lia)) as Hmod.
  assert (Hq : ((Z.of_nat N - 1) / 2 = Z.of_nat (N - N / 2) - 1)%Z).
  { symmetry. apply (Z.div_unique _ _ _ (1 - Z.of_nat (N mod 2))); lia. }
  rewrite Hq. lia.
Qed.

Lemma fftfreq_ints_length (N : nat) : length (Sbe.fftfreq_ints N) = N.
Proof.
  unfold Sbe.fftfreq_ints.
  rewrite length_app, !length_map, !length_seq, fftfreq_split.
  pose proof (half_le N). lia.
Qed.

Lemma fftfreq_ints_lookup (N i : nat) :
  i < N ->
  Sbe.fftfreq_ints N !! i
  = Some (if i <? N - N / 2 then Z.of_nat i else (Z.of_nat i - Z.of_nat N)%Z).
Proof.
  intros Hi. unfold Sbe.fftfreq_ints. rewrite fftfreq_split.
  pose proof (half_le N) as Hh.
  destruct (Nat.ltb_spec i (N - N / 2)) as [Hlt|Hge].
  - rewrite lookup_app_l by (rewrite length_map, length_seq; exact Hlt).
    rewrite list_lookup_fmap, lookup_seq_lt by exact Hlt. reflexivity.
  - rewrite lookup_app_r by (rewrite length_map, length_seq; exact Hge).
    rewrite length_map, length_seq, list_lookup_fmap, lookup_seq_lt by lia.
    cbn -[Nat.div Nat.sub Nat.add Z.add Z.of_nat Z.opp]. f_equal. lia.
Qed.

(** After [fftshift] the frequency at index [j] is [(j - N//2)/(N*d)]:
    zero frequency sits at index [N//2]. *)
Lemma fftshift_fftfreq_ints_lookup (N j : nat) :
  j < N ->
  Sbe.fftshift (Sbe.fftfreq_ints N) !! j = Some (Z.of_nat j - Z.of_nat (N / 2))%Z.
Proof.
  intros Hj. pose proof (half_le N) as Hh.
  rewrite fftshift_lookup by (rewrite fftfreq_ints_length; exact Hj).
  rewrite fftfreq_ints_length.
  destruct (Nat.lt_ge_cases j (N / 2)) as [Hlt|Hge].
  - rewrite Nat.mod_small by lia. rewrite fftfreq_ints_lookup by lia.
    destruct (Nat.ltb_spec (j + (N - N / 2)) (N - N / 2)); [lia|]. f_equal. lia.
  - replace ((j + (N - N / 2)) mod N) with (j - N / 2)
      by (apply (Nat.mod_unique _ _ 1); lia).
    rewrite fftfreq_ints_lookup by lia.
    destruct (Nat.ltb_spec (j - N / 2) (N - N / 2)); [|lia]. f_equal. lia.
Qed.

Section Spectrum.
Context {C : Type} `{Scalar C} `{Numpy C}.

(** [numpy.fft.fft] returns as many bins as it is given samples. *)
Hypothesis fft_length : forall l : list C, length (np_fft l) = length l.

Lemma fourier_length (dt : C) (data : list C) :
  length (Sbe.fourier dt data) = length data.
Proof.
  unfold Sbe.fourier, np_scale.
  rewrite length_map, fftshift_length, fft_length, ifftshift_length. reflexivity.
Qed.

Lemma fourier_lookup (dt : C) (data : list C) (j : nat) :
  j < length data ->
  Sbe.fourier dt data !! j =
  Some (cmul (cdiv dt (np_sqrt (cmul (cofQ 2) np_pi)))
             (nth ((j + (length data - length data / 2)) mod length data)
                  (np_fft (Sbe.ifftshift data)) c0)).
Proof.
  intros Hj. unfold Sbe.fourier, np_scale.
  assert (Hlen : length (np_fft (Sbe.ifftshift data)) = length data)
    by (rewrite fft_length; apply ifftshift_length).
  rewrite list_lookup_fmap, fftshift_lookup by (rewrite Hlen; exact Hj).
  rewrite Hlen.
  rewrite (lookup_nth_lt _ _ c0)
    by (rewrite Hlen; apply Nat.mod_upper_bound; lia).
  reflexivity.
Qed.

(** C5.  For a time grid of [N >= 2] instants with spacing [dt = t[1] - t[0]]
    and a signal and window of the same length, the spectrum is
    [S = (dt/sqrt(2*pi)) * fftshift(fft(ifftshift(signal)))]: entry [j] of
    [S] is the transform's bin [(j - N//2) mod N], the transform is taken of
    the signal rotated by [N//2], the frequency at entry [j] is
    [(j - N//2)/(N*dt)] (zero at the centre [N//2]), and the emission
    intensity is [1/(3*137.036**3) * freq**2 * |S|**2]. *)
Theorem spectrum_and_emission
    (kweight : C) (t I_exact envelope : list C) (t_0 t_1 : C) (rest : list C) :
  t = t_0 :: t_1 :: rest ->
  length I_exact = length t -> length envelope = length t ->
  let N := length t in
  let dt := csub t_1 t_0 in
  let signal := zip_with cmul (map (fun a => cmul a kweight) I_exact) envelope in
  exists em,
    Sbe.exact_emission kweight t I_exact envelope = Ok em
    /\ Sbe.em_Iw em = Sbe.fourier dt signal
    /\ (forall j, j < N ->
          Sbe.em_Iw em !! j =
          Some (cmul (cdiv dt (np_sqrt (cmul (cofQ 2) np_pi)))
                     (nth ((j + (N - N / 2)) mod N) (np_fft (Sbe.ifftshift signal)) c0)))
    /\ (forall m, m < N -> Sbe.ifftshift signal !! m = signal !! ((m + N / 2) mod N))
    /\ (forall j, j < N ->
          Sbe.em_freq em !! j =
          Some (cmul (cofQ (inject_Z (Z.of_nat j - Z.of_nat (N / 2))))
                     (cdiv c1 (cmul (cofQ (inject_Z (Z.of_nat N))) dt))))
    /\ (forall j f s, Sbe.em_freq em !! j = Some f -> Sbe.em_Iw em !! j = Some s ->
          Sbe.em_Int em !! j =
          Some (cmul (cmul (cdiv c1 (cmul (cofQ 3) (cofQ ((137036 # 1000) ^ 3))))
                           (cmul f f))
                     (cmul (np_abs s) (np_abs s)))).
Proof.
  intros Ht HI Henv. subst t. intros N dt signal.
  assert (Hsig : length signal = N).
  { unfold signal. rewrite length_zip_with, length_map. lia. }
  assert (Hfreq : length (Sbe.fftshift (Sbe.fftfreq N dt)) = N).
  { unfold Sbe.fftfreq.
    rewrite fftshift_length, length_map, fftfreq_ints_length. reflexivity. }
  unfold Sbe.exact_emission. fold N. fold dt.
  unfold Sbe.np_mul at 1. unfold broadcastable.
  rewrite (proj2 (Nat.eqb_eq _ _)) by (rewrite length_map; lia).
  rewrite bcast2_same_length by (rewrite length_map; lia).
  simpl orb. cbv iota. rewrite outcome_bind_ok. fold signal.
  unfold Sbe.intensity, Sbe.np_mul, broadcastable, np_scale.
  rewrite (proj2 (Nat.eqb_eq _ _))
    by (rewrite !length_map, Hfreq, fourier_length; lia).
  rewrite bcast2_same_length
    by (rewrite !length_map, Hfreq, fourier_length; lia).
  simpl orb. cbv iota. rewrite outcome_bind_ok.
  eexists. split; [reflexivity|]. simpl.
  split; [reflexivity|].
  split; [intros j Hj; rewrite fourier_lookup, Hsig by lia; reflexivity|].
  split; [intros m Hm; rewrite ifftshift_lookup, Hsig by lia; reflexivity|].
  split.
  - intros j Hj. unfold Sbe.fftfreq.
    rewrite fftshift_lookup
      by (rewrite length_map, fftfreq_ints_length; exact Hj).
    rewrite length_map, fftfreq_ints_length, list_lookup_fmap.
    pose proof (fftshift_fftfreq_ints_lookup N j Hj) as Hint.
    rewrite fftshift_lookup in Hint by (rewrite fftfreq_ints_length; exact Hj).
    rewrite fftfreq_ints_length in Hint. rewrite Hint. reflexivity.
  - intros j f s Hf Hs.
    rewrite lookup_zip_with, !list_lookup_fmap, Hf, Hs. reflexivity.
Qed.
End Spectrum.

(** ** The time window *)

Lemma py_bind_ok_inv {A B : Type} (m : py A) (f : A -> py B) (out : list string) (b : B) :
  (m ≫= f) = Py out (Ok b) ->
  exists o1 a o2, m = Py o1 (Ok a) /\ f a = Py o2 (Ok b) /\ out = o1 ++ o2.
Proof.
  destruct m as [o1 [a|e]]; unfold mbind, py_bind; simpl; intros Heq.
  - exists o1, a, (printed (f a)). destruct (f a) as [o2 r]. simpl in *.
    injection Heq as <- ->. repeat split.
  - discriminate.
Qed.

Lemma py_bind_ok_run {A B : Type} (m : py A) (f : A -> py B) (o1 : list string) (a : A) :
  m = Py o1 (Ok a) -> (m ≫= f) = Py (o1 ++ printed (f a)) (result (f a)).
Proof. intros ->. unfold mbind, py_bind. destruct (f a). reflexivity. Qed.

Lemma py_bind_silent {A B : Type} (m : py A) (f : A -> py B) (a : A) :
  m = Py [] (Ok a) -> (m ≫= f) = f a.
Proof.
  intros ->. unfold mbind, py_bind. simpl. destruct (f a). reflexivity.
Qed.

Lemma py_bind_raise_run {A B : Type} (m : py A) (f : A -> py B) (o1 : list string) (e : exn) :
  m = Py o1 (Raise e) -> (m ≫= f) = Py o1 (Raise e).
Proof. intros ->. reflexivity. Qed.

Section Float_signs.
Import SpecFloat.

(** the sign bit of a float that has one *)
Definition has_sign (s : bool) (x : spec_float) : Prop :=
  match x with
  | S754_nan => True
  | S754_zero s' | S754_infinity s' | S754_finite s' _ _ => s' = s
  end.

(** a zero, a negative number or infinity, or a NaN *)
Definition nonpositive (x : spec_float) : Prop :=
  match x with
  | S754_finite s _ _ | S754_infinity s => s = true
  | _ => True
  end.

Lemma has_sign_round_aux (p em : Z) (s : bool) (m e : Z) (l : location) :
  has_sign s (binary_round_aux p em s m e l).
Proof.
  unfold binary_round_aux.
  destruct (shr_fexp p em m e l) as [mrs' e'].
  destruct (shr_fexp p em _ e' loc_Exact) as [mrs'' e''].
  destruct (shr_m mrs''); simpl; [reflexivity | | exact I].
  destruct (e'' <=? em - p)%Z; reflexivity.
Qed.

Lemma has_sign_round (p em : Z) (s : bool) (m : positive) (e : Z) :
  has_sign s (binary_round p em s m e).
Proof.
  unfold binary_round. destruct (shl_align m e _) as [mz ez].
  apply has_sign_round_aux.
Qed.

Lemma negative_nonpositive (x : spec_float) : has_sign true x -> nonpositive x.
Proof. destruct x; simpl; auto. Qed.

Lemma has_sign_of_Z (z : Z) : has_sign (z <? 0)%Z (float_of_Z z).
Proof.
  unfold float_of_Z, binary_normalize. destruct z as [|z|z].
  - reflexivity.
  - apply has_sign_round.
  - apply has_sign_round.
Qed.

Lemma nonpositive_mul (p em : Z) (x y : spec_float) :
  has_sign false x -> nonpositive y -> nonpositive (SFmul p em x y).
Proof.
  destruct x, y; simpl; intros Hx Hy; subst; try reflexivity; try exact I.
  apply negative_nonpositive, has_sign_round_aux.
Qed.

Lemma nonpositive_div (p em : Z) (x y : spec_float) :
  nonpositive x -> has_sign false y -> nonpositive (SFdiv p em x y).
Proof.
  destruct x, y; simpl; intros Hx Hy; subst; try reflexivity; try exact I.
  destruct (SFdiv_core_binary p em (Z.pos m) e (Z.pos m0) e0) as [[mz ez] lz].
  apply negative_nonpositive, has_sign_round_aux.
Qed.

Lemma positive_of_Q (q : Q) : (0 < Qnum q)%Z -> has_sign false (float_of_Q q).
Proof.
  intros Hq. unfold float_of_Q.
  pose proof (has_sign_of_Z (Qnum q)) as Hn.
  pose proof (has_sign_of_Z (Z.pos (Qden q))) as Hd.
  replace (Qnum q <? 0)%Z with false in Hn by (symmetry; apply Z.ltb_ge; lia).
  change (Z.pos (Qden q) <? 0)%Z with false in Hd.
  destruct (float_of_Z (Qnum q)), (float_of_Z (Z.pos (Qden q)));
    simpl in *; subst; try reflexivity; try exact I.
  destruct (SFdiv_core_binary 53 1024 (Z.pos m) e (Z.pos m0) e0) as [[mz ez] lz].
  apply has_sign_round_aux.
Qed.

Lemma nonpositive_of_Q (q : Q) : (Qnum q <= 0)%Z -> nonpositive (float_of_Q q).
Proof.
  intros Hq. unfold float_of_Q. apply nonpositive_div.
  - pose proof (has_sign_of_Z (Qnum q)) as Hn.
    destruct (Z.ltb_spec (Qnum q) 0) as [Hneg|Hzero].
    + apply negative_nonpositive. exact Hn.
    + replace (Qnum q) with 0%Z by lia. exact I.
  - apply (has_sign_of_Z (Z.pos (Qden q))).
Qed.

Lemma nonpositive_float_div (ty : real_type) (x y r : spec_float) :
  nonpositive x -> has_sign false y -> float_div ty x y = Ok r -> nonpositive r.
Proof.
  intros Hx Hy Hdiv.
  assert (Hr : r = SFdiv (prec (format_of ty)) (emax (format_of ty)) x y).
  { unfold float_div in Hdiv. destruct ty, y; try discriminate Hdiv;
      injection Hdiv as <-; reflexivity. }
  subst r. apply nonpositive_div; assumption.
Qed.

Lemma nonpositive_to_double (x : spec_float) :
  nonpositive x -> nonpositive (to_double x).
Proof.
  destruct x as [s|s| |s m e]; simpl; try (intros; assumption).
  intros ->. apply negative_nonpositive, has_sign_round.
Qed.

Lemma magnitude_trunc_le (m : positive) (e : Z) :
  (inject_Z (magnitude_trunc m e) <= float_value false m e)%Q.
Proof.
  unfold magnitude_trunc, float_value.
  destruct (0 <=? e)%Z eqn:He.
  - apply Qle_refl.
  - apply Z.leb_gt in He.
    assert (Hpos : (0 < 2 ^ (- e))%Z) by (apply Z.pow_pos_nonneg; lia).
    unfold Qle, inject_Z. simpl. rewrite Z2Pos.id by exact Hpos.
    rewrite Z.mul_1_r, Z.mul_comm. apply Z.mul_div_le. exact Hpos.
Qed.

Lemma tolerance_nonnegative : (0 <= tolerance)%Q.
Proof. vm_compute. discriminate. Qed.

Lemma nonpositive_within_tolerance (x : spec_float) :
  nonpositive x -> exceeds_tolerance x = false.
Proof.
  intros Hx. apply nonpositive_to_double in Hx. unfold exceeds_tolerance.
  pose proof tolerance_nonnegative as Htol.
  destruct (to_double x) as [s|s| |s m e]; cbn [modf_frac nonpositive] in *.
  - apply negb_false_iff, Qle_bool_iff. exact Htol.
  - apply negb_false_iff, Qle_bool_iff. exact Htol.
  - reflexivity.
  - subst s. apply negb_false_iff, Qle_bool_iff.
    pose proof (magnitude_trunc_le m e) as Hle.
    unfold float_value in *. cbv zeta in *.
    rewrite inject_Z_opp.
    set (a := inject_Z (magnitude_trunc m e)) in *.
    set (b := if (0 <=? e)%Z then inject_Z (Z.pos m * 2 ^ e)
              else Z.pos m # Z.to_pos (2 ^ (- e))) in *.
    clearbody a b. lra.
Qed.
End Float_signs.

Section Time_window.
Local Open Scope Q_scope.

(** X14.  With a start time that is not positive, which is the documented
    use ([t0 << 0]), the quotient [2*t0/dt] is not positive, neither is its
    fractional part, and the warning is never printed. *)
Lemma time_window_silent_for_negative_start (dt_type : real_type) (t0 dt : Q) :
  t0 <= 0 -> 0 < dt -> printed (time_window dt_type t0 dt) = [].
Proof.
  intros Ht0 Hdt. unfold time_window. cbv zeta.
  assert (Hnum : (Qnum t0 <= 0)%Z).
  { unfold Qle in Ht0. simpl in Ht0. lia. }
  assert (Hden : (0 < Qnum dt)%Z).
  { unfold Qlt in Hdt. simpl in Hdt. lia. }
  pose proof (positive_of_Q dt Hden) as Hdt_f.
  pose proof (nonpositive_mul 53 1024 _ _ (has_sign_of_Z 2) (nonpositive_of_Q t0 Hnum))
    as Htwo.
  destruct (float_div dt_type (SpecFloat.SFabs _) (float_of_Q dt)) as [q|e];
    [|reflexivity].
  cbn [lift mbind py_bind printed result].
  destruct (py_int q) as [Nf|e]; [|reflexivity].
  cbn [lift mbind py_bind printed result app].
  destruct (float_div dt_type (SpecFloat.SFmul 53 1024 (float_of_Z 2) (float_of_Q t0))
              (float_of_Q dt)) as [r|e] eqn:Hr; [|reflexivity].
  cbn [lift mbind py_bind printed result app].
  rewrite (nonpositive_within_tolerance r
             (nonpositive_float_div _ _ _ _ Htwo Hdt_f Hr)).
  reflexivity.
Qed.

(** C7, at [t0 = -1000] fs and [dt = 0.3] fs.  The window [2*|t0| = 2000]
    is not an integer multiple of [dt], so the specification asks for the
    warning; the run prints nothing and goes on with [Nt = 6667]. *)
Theorem time_window_misses_warning :
  time_window python_float (-1000) (3 # 10) = Py [] (Ok 6667%Z)
  /\ ~ (exists k : Z, 2 * Qabs (-1000) == inject_Z k * (3 # 10)).
Proof.
  split.
  - vm_compute. reflexivity.
  - intros [k Hk]. unfold Qeq in Hk. simpl in Hk. lia.
Qed.


(** The same window entered with a positive start time: the fraction of the
    rounded quotient is [0.999...], and the warning is printed. *)
Example time_window_positive_start :
  time_window python_float (3 # 10) (1 # 10) = Py [window_warning] (Ok 6%Z).
Proof. vm_compute. reflexivity. Qed.

(** A window that is a multiple of the step in decimal, [t0 = -500] fs and
    [dt = 0.01] fs: the quotient of doubles rounds to [100000.0]; divided
    by the [np.float128] of the double [0.01] it stays below, and [int]
    drops one instant. *)
Example time_window_formats :
  time_window np_float64 (-500) (1 # 100) = Py [] (Ok 100001%Z)
  /\ time_window np_float128 (-500) (1 # 100) = Py [] (Ok 100000%Z).
Proof. split; vm_compute; reflexivity. Qed.
End Time_window.

Local Close Scope Q_scope.

(** ** The parsers *)

Lemma getattr_ok_inv (o : pyobj) (name : string) (out : list string) (v : pyval) :
  getattr o name = Py out (Ok v) -> out = [] /\ o !! name = Some v.
Proof.
  unfold getattr. destruct (o !! name) as [w|]; intros Heq.
  - injection Heq as <- <-. split; reflexivity.
  - discriminate.
Qed.

Lemma getattr_run (o : pyobj) (name : string) (v : pyval) :
  o !! name = Some v -> getattr o name = Py [] (Ok v).
Proof. unfold getattr. intros ->. reflexivity. Qed.

Lemma lift_ok_inv {A : Type} (o : outcome A) (out : list string) (a : A) :
  lift o = Py out (Ok a) -> out = [] /\ o = Ok a.
Proof. unfold lift. intros Heq. injection Heq as <- ->. split; reflexivity. Qed.

Lemma mret_ok_inv {A : Type} (x : A) (out : list string) (a : A) :
  mret x = Py out (Ok a) -> out = [] /\ a = x.
Proof. unfold mret, py_ret. intros Heq. injection Heq as <- <-. split; reflexivity. Qed.

Lemma set_copy_inv (UP : pyobj) (name src : string) (P P' : pyobj) (out : list string) :
  set_copy UP name src P = Py out (Ok P') -> out = [] /\ exists v, P' = <[name := v]> P.
Proof.
  unfold set_copy. intros Heq.
  apply py_bind_ok_inv in Heq as (o1 & v & o2 & Hg & Hr & ->).
  apply getattr_ok_inv in Hg as [-> _]. apply mret_ok_inv in Hr as [-> ->].
  split; [reflexivity | exists v; reflexivity].
Qed.

Lemma set_scaled_inv (UP : pyobj) (name src : string) (c : Q) (P P' : pyobj)
    (out : list string) :
  set_scaled UP name src c P = Py out (Ok P') ->
  out = [] /\ exists v, P' = <[name := v]> P.
Proof.
  unfold set_scaled. intros Heq.
  apply py_bind_ok_inv in Heq as (o1 & v & o2 & Hg & Hr & ->).
  apply getattr_ok_inv in Hg as [-> _].
  apply py_bind_ok_inv in Hr as (o3 & w & o4 & Hl & Hr & ->).
  apply lift_ok_inv in Hl as [-> _]. apply mret_ok_inv in Hr as [-> ->].
  split; [reflexivity | exists w; reflexivity].
Qed.

Lemma set_dk_order_inv (UP P P' : pyobj) (out : list string) :
  set_dk_order UP P = Py out (Ok P') ->
  out = [] /\ exists v, P' = <["dk_order" := v]> P.
Proof.
  unfold set_dk_order. intros Heq.
  destruct (UP !! "dk_order") as [v|].
  - destruct (py_in_2468 v); [|discriminate].
    apply mret_ok_inv in Heq as [-> ->]. split; [reflexivity | eexists; reflexivity].
  - apply mret_ok_inv in Heq as [-> ->]. split; [reflexivity | eexists; reflexivity].
Qed.

Lemma is_Some_insert (P : pyobj) (k k' : string) (v : pyval) :
  is_Some (P !! k') -> is_Some (<[k := v]> P !! k').
Proof.
  intros Hs. apply lookup_insert_is_Some.
  destruct (decide (k = k')); [left; assumption | right; split; assumption].
Qed.

(** Inversion of a run of a parser stage that returned. *)
Ltac py_inv H :=
  cbv zeta in H;
  lazymatch type of H with
  | (_ ≫= _) = Py _ (Ok _) =>
      let Hm := fresh "Hm" in
      apply py_bind_ok_inv in H as (? & ? & ? & Hm & H & ->); py_inv Hm; py_inv H
  | getattr _ _ = Py _ (Ok _) => apply getattr_ok_inv in H as [-> H]
  | set_copy _ _ _ _ = Py _ (Ok _) => apply set_copy_inv in H as [-> [? ->]]
  | set_scaled _ _ _ _ _ = Py _ (Ok _) => apply set_scaled_inv in H as [-> [? ->]]
  | set_dk_order _ _ = Py _ (Ok _) => apply set_dk_order_inv in H as [-> [? ->]]
  | lift _ = Py _ (Ok _) => apply lift_ok_inv in H as [-> H]
  | raise _ = Py _ (Ok _) => discriminate H
  | mret _ = Py _ (Ok _) => apply mret_ok_inv in H as [-> ->]
  | (if ?b then _ else _) = Py _ (Ok _) => destruct b eqn:?; py_inv H
  | (match ?x with _ => _ end) = Py _ (Ok _) => destruct x eqn:?; py_inv H
  | _ => idtac
  end.

Section Cued_stages.
Variable co : conversion_factors.
Variable UP : pyobj.

Lemma field_sets_flag (self self' : pyobj) (out : list string) :
  Cued.field co UP self = Py out (Ok self') ->
  out = [] /\ is_Some (self' !! Cued.user_defined_field_key).
Proof.
  unfold Cued.field. intros Hrun. py_inv Hrun;
    (split; [reflexivity | rewrite lookup_insert_eq; eexists; reflexivity]).
Qed.

Lemma brillouin_zone_keeps (self self' : pyobj) (out : list string) (k : string) :
  Cued.brillouin_zone UP self = Py out (Ok self') ->
  out = [] /\ (is_Some (self !! k) -> is_Some (self' !! k)).
Proof.
  unfold Cued.brillouin_zone. intros Hrun. py_inv Hrun;
    (split; [reflexivity | intros Hs; repeat apply is_Some_insert; exact Hs]).
Qed.

Lemma optional_spec (self self' : pyobj) (out : list string) :
  Cued.optional co UP self = Py out (Ok self') ->
  out = []
  /\ self' !! "precision" = Some (default (PStr "double") (UP !! "precision"))
  /\ self' !! "solver_method" = Some (default (PStr "bdf") (UP !! "solver_method"))
  /\ forall k, is_Some (self !! k) -> is_Some (self' !! k).
Proof.
  unfold Cued.optional, set_default. intros Hrun. py_inv Hrun;
    (split; [reflexivity|]; split; [|split];
     [ repeat (rewrite lookup_insert_ne by discriminate); apply lookup_insert_eq
     | repeat (rewrite lookup_insert_ne by discriminate); apply lookup_insert_eq
     | intros k Hs; repeat apply is_Some_insert; exact Hs ]).
Qed.

(** After the parser's own stages nothing was printed, the flag of a
    user-defined field is set, and [precision] and [solver_method] hold the
    user's value or the default. *)
Lemma own_parameters_spec (self : pyobj) (out : list string) :
  Cued.own_parameters co UP = Py out (Ok self) ->
  out = []
  /\ is_Some (self !! Cued.user_defined_field_key)
  /\ self !! "precision" = Some (default (PStr "double") (UP !! "precision"))
  /\ self !! "solver_method" = Some (default (PStr "bdf") (UP !! "solver_method")).
Proof.
  unfold Cued.own_parameters. intros Hrun.
  apply py_bind_ok_inv in Hrun as (o1 & s1 & o1' & Hocc & Hrun & ->).
  apply py_bind_ok_inv in Hrun as (o2 & s2 & o2' & Htime & Hrun & ->).
  apply py_bind_ok_inv in Hrun as (o3 & s3 & o3' & Hfield & Hrun & ->).
  apply py_bind_ok_inv in Hrun as (o4 & s4 & o4' & Hbz & Hrun & ->).
  unfold Cued.occupation in Hocc. py_inv Hocc.
  unfold Cued.time_scales in Htime. py_inv Htime.
  destruct (field_sets_flag _ _ _ Hfield) as [-> Hflag].
  destruct (brillouin_zone_keeps _ _ _ Cued.user_defined_field_key Hbz) as [-> Hkeep4].
  destruct (optional_spec _ _ _ Hrun) as (-> & Hprec & Hmeth & Hkeep).
  split; [reflexivity|]. split; [apply Hkeep, Hkeep4, Hflag|]. split; assumption.
Qed.
End Cued_stages.

Lemma precision_types_quadruple (solver_method : pyval) :
  py_eq_str solver_method "rk4" = false ->
  precision_types (PStr "quadruple") solver_method
  = Py [] (Raise (SystemExit (Some quadruple_needs_rk4))).
Proof. intros Hm. unfold precision_types. simpl. rewrite Hm. reflexivity. Qed.

Lemma precision_types_double (solver_method : pyval) :
  precision_types (PStr "double") solver_method
  = Py [] (Ok (PObj "np.float64", PObj "np.complex128")).
Proof. reflexivity. Qed.

Section Parsers.
Variable co : conversion_factors.
Variable format_tail : list pyval -> outcome string.
Variable UP : pyclass.
#[local] Abbreviation attrs := (attributes UP).

Lemma parse_params_quadruple :
  attrs !! "precision" = Some (PStr "quadruple") ->
  py_eq_str (default (PStr "bdf") (attrs !! "solver_method")) "rk4" = false ->
  SbeParser.parse_params co attrs = Py [] (Raise (SystemExit (Some quadruple_needs_rk4))).
Proof.
  intros Hprec Hmeth. unfold SbeParser.parse_params. cbv zeta.
  rewrite Hprec.
  change (default (PStr "double") (Some (PStr "quadruple"))) with (PStr "quadruple").
  rewrite (precision_types_quadruple _ Hmeth). reflexivity.
Qed.

Lemma append_derived_quadruple (self : pyobj) :
  is_Some (self !! Cued.user_defined_field_key) ->
  self !! "precision" = Some (PStr "quadruple") ->
  (exists m, self !! "solver_method" = Some m /\ py_eq_str m "rk4" = false) ->
  Cued.append_derived_parameters format_tail co attrs self
  = Py [] (Raise (SystemExit (Some quadruple_needs_rk4))).
Proof.
  intros [flag Hflag] Hprec (m & Hm & Hrk4). unfold Cued.append_derived_parameters.
  rewrite (py_bind_silent _ _ flag (getattr_run _ _ _ Hflag)). cbv zeta.
  rewrite (py_bind_silent _ _ (PStr "quadruple")).
  2:{ apply getattr_run. rewrite lookup_insert_ne by discriminate. exact Hprec. }
  rewrite (py_bind_silent _ _ m).
  2:{ apply getattr_run. rewrite lookup_insert_ne by discriminate. exact Hm. }
  apply py_bind_raise_run, precision_types_quadruple, Hrk4.
Qed.

Lemma check_passes (self : pyobj) :
  Cued.diff_params (own_dict UP) self = ∅ ->
  Cued.check_user_params_for_wrong_arguments (own_dict UP) self = Py [] (Ok tt).
Proof.
  intros Hempty. unfold Cued.check_user_params_for_wrong_arguments.
  destruct (decide (Cued.diff_params (own_dict UP) self = ∅));
    [reflexivity | contradiction].
Qed.

(** C8.  A record with [precision = 'quadruple'] and a solver method other
    than ['rk4'] (the default ['bdf'] included) ends parameter parsing with
    an exit: [parse_params] exits with the diagnosis of the precision
    block; [ParamsParser] never returns, and exits with that diagnosis once
    its earlier stages and the check of the user parameters have passed.
    With [precision = 'double'] the precision block accepts every solver
    method. *)
Theorem quadruple_precision_needs_rk4 :
  attrs !! "precision" = Some (PStr "quadruple") ->
  py_eq_str (default (PStr "bdf") (attrs !! "solver_method")) "rk4" = false ->
  SbeParser.parse_params co attrs = Py [] (Raise (SystemExit (Some quadruple_needs_rk4)))
  /\ (exists e, result (Cued.init format_tail co UP) = Raise e)
  /\ (forall out self,
        Cued.own_parameters co attrs = Py out (Ok self) ->
        Cued.diff_params (own_dict UP) self = ∅ ->
        Cued.init format_tail co UP
        = Py out (Raise (SystemExit (Some quadruple_needs_rk4))))
  /\ (forall solver_method,
        precision_types (PStr "double") solver_method
        = Py [] (Ok (PObj "np.float64", PObj "np.complex128"))).
Proof.
  intros Hprec Hmeth.
  assert (Hderived : forall out self,
            Cued.own_parameters co attrs = Py out (Ok self) ->
            Cued.append_derived_parameters format_tail co attrs self
            = Py [] (Raise (SystemExit (Some quadruple_needs_rk4)))).
  { intros out self Hown.
    destruct (own_parameters_spec co attrs self out Hown) as (_ & Hflag & Hp & Hm).
    apply append_derived_quadruple.
    - exact Hflag.
    - rewrite Hp, Hprec. reflexivity.
    - eexists. split; [exact Hm | exact Hmeth]. }
  split; [apply parse_params_quadruple; assumption|]. split; [|split].
  - unfold Cued.init.
    destruct (Cued.own_parameters co attrs) as [out [self|e]] eqn:Hown.
    + rewrite (py_bind_ok_run _ _ out self eq_refl). cbn [result].
      destruct (decide (Cued.diff_params (own_dict UP) self = ∅)) as [Hempty|Hne].
      * rewrite (py_bind_silent _ _ tt (check_passes self Hempty)).
        rewrite (Hderived out self eq_refl). eexists. reflexivity.
      * unfold Cued.check_user_params_for_wrong_arguments.
        destruct (decide (Cued.diff_params (own_dict UP) self = ∅)); [contradiction|].
        eexists. reflexivity.
    + eexists. reflexivity.
  - intros out self Hown Hdiff. unfold Cued.init.
    rewrite (py_bind_ok_run _ _ out self Hown).
    rewrite (py_bind_silent _ _ tt (check_passes self Hdiff)).
    rewrite (Hderived out self Hown). cbn [result printed].
    rewrite app_nil_r. reflexivity.
  - apply precision_types_double.
Qed.

End Parsers.

(** ** The parsers and the spectrum on concrete records *)

Lemma GQ_fft_length (l : list GQ) : length (np_fft l) = length l.
Proof. destruct l as [|a [|b [|c l]]]; reflexivity. Qed.

Lemma spectrum_and_emission_witness :
  exists em,
    Sbe.exact_emission (Example.gq 1 0) Example.t_pair Example.current_pair
      Example.window_pair = Ok em
    /\ Sbe.em_Iw em
       = Sbe.fourier (csub (Example.gq 1 0) (Example.gq (-1) 0))
           (zip_with cmul (map (fun a => cmul a (Example.gq 1 0)) Example.current_pair)
              Example.window_pair).
Proof.
  destruct (spectrum_and_emission GQ_fft_length (Example.gq 1 0) Example.t_pair
              Example.current_pair Example.window_pair
              (Example.gq (-1) 0) (Example.gq 1 0) [] eq_refl eq_refl eq_refl)
    as (em & Hrun & HIw & _).
  exists em. split; [exact Hrun | exact HIw].
Defined.

Lemma attributes_class_of (d : pyobj) : attributes (Example.class_of d) = d.
Proof. unfold attributes, Example.class_of. simpl. apply (right_id_L ∅ (∪)). Qed.

Lemma quadruple_precision_needs_rk4_witness :
  SbeParser.parse_params Example.co (attributes (Example.class_of Example.test_09_bdf))
  = Py [] (Raise (SystemExit (Some quadruple_needs_rk4)))
  /\ exists e, result (Cued.init Example.format_tail Example.co
                         (Example.class_of Example.test_09_bdf))
               = Raise e.
Proof.
  destruct (quadruple_precision_needs_rk4 Example.co Example.format_tail
              (Example.class_of Example.test_09_bdf) ltac:(vm_compute; reflexivity)
              ltac:(vm_compute; reflexivity))
    as (Hsbe & Hcued & _).
  split; [exact Hsbe | exact Hcued].
Defined.

(** The record of test 09 itself is constructed; with the implicit solver
    it is refused with the diagnosis of the precision block. *)
Example test_09_is_accepted :
  is_ok (result (Cued.init Example.format_tail Example.co
                   (Example.class_of Example.test_09))) = true
  /\ Cued.init Example.format_tail Example.co (Example.class_of Example.test_09_bdf)
     = Py [] (Raise (SystemExit (Some quadruple_needs_rk4))).
Proof. split; vm_compute; reflexivity. Qed.

Lemma own_of_run (UP : pyobj) :
  is_ok (result (Cued.own_parameters Example.co UP)) = true ->
  Cued.own_parameters Example.co UP = Py [] (Ok (Example.own_of UP)).
Proof.
  unfold Example.own_of.
  destruct (Cued.own_parameters Example.co UP) as [out [self|e]] eqn:Hown;
    simpl; intros Hok; [|discriminate].
  destruct (own_parameters_spec _ _ _ _ Hown) as [-> _]. reflexivity.
Qed.



(** What that run prints. *)
Example test_09_alpha_is_refused :
  Cued.init Example.format_tail Example.co (Example.class_of Example.test_09_alpha)
  = Py [Cued.no_effect_header; "alpha "%string] (Raise (SystemExit None)).
Proof. vm_compute. reflexivity. Qed.

Lemma own_of_test_09_inherits_alpha :
  Cued.own_parameters Example.co (attributes Example.test_09_inherits_alpha)
  = Py [] (Ok (Example.own_of (attributes Example.test_09_inherits_alpha))).
Proof. apply own_of_run. vm_compute. reflexivity. Qed.


(* ================================================================== *)
(** * Part III: further properties of the same code *)
(* ================================================================== *)

(** ** [rhs_of_sbe]: the dipole-coupling tensor *)

Section Dipole_tensor.
Context {C : Type} `{Scalar C}.
Variable p : Sbe.params.
Variable dipole_in_path : tensor3 C.
Variable e_in_path : tensor2 C.
Variables gamma1 gamma2 : C.

#[local] Abbreviation body_j := (Sbe.rhs_body_j p dipole_in_path e_in_path gamma1 gamma2).
#[local] Abbreviation body_l := (Sbe.rhs_body_l p dipole_in_path).
#[local] Abbreviation body_m := (Sbe.rhs_body_m p dipole_in_path e_in_path gamma1 gamma2).
#[local] Abbreviation nb := (Sbe.n p).
#[local] Abbreviation dip := (fun k i j => cmul (cneg cj) (dipole_in_path k i j)).

Lemma dipole_body_j (k m i j : nat) s k' r c :
  Sbe.rhs_dipole (body_j k m i j s) k' r c =
  if (k' =? k) && (r =? m * nb + i) && (c =? m * nb + j)
  then cadd (Sbe.rhs_dipole s k' r c) (dip k i j) else Sbe.rhs_dipole s k' r c.
Proof.
  unfold Sbe.rhs_body_j. destruct (i =? j), (m =? i); reflexivity.
Qed.

Lemma dipole_loop_j (k m i N : nat) s k' r c :
  Sbe.rhs_dipole (for_range N (body_j k m i) s) k' r c =
  if (k' =? k) && (r =? m * nb + i) && (m * nb <=? c) && (c <? m * nb + N)
  then cadd (Sbe.rhs_dipole s k' r c) (dip k i (c - m * nb))
  else Sbe.rhs_dipole s k' r c.
Proof.
  induction N as [|N IH].
  - rewrite for_range_0. cases_bool; simpl; try reflexivity; lia.
  - rewrite for_range_S, dipole_body_j, IH.
    destruct (Nat.eq_dec c (m * nb + N)) as [->|Hne].
    + replace (m * nb + N - m * nb) with N by lia.
      cases_bool; simpl; try reflexivity; lia.
    + cases_bool; simpl; try reflexivity; lia.
Qed.

Lemma dipole_loop_i (k m N : nat) s k' r c :
  Sbe.rhs_dipole (for_range N (fun i => for_range nb (body_j k m i)) s) k' r c =
  if (k' =? k) && (m * nb <=? r) && (r <? m * nb + N)
     && (m * nb <=? c) && (c <? m * nb + nb)
  then cadd (Sbe.rhs_dipole s k' r c) (dip k (r - m * nb) (c - m * nb))
  else Sbe.rhs_dipole s k' r c.
Proof.
  induction N as [|N IH].
  - rewrite for_range_0. cases_bool; simpl; try reflexivity; lia.
  - rewrite for_range_S, dipole_loop_j, IH.
    destruct (Nat.eq_dec r (m * nb + N)) as [->|Hne].
    + replace (m * nb + N - m * nb) with N by lia.
      cases_bool; simpl; try reflexivity; lia.
    + cases_bool; simpl; try reflexivity; lia.
Qed.

Lemma dipole_body_l (k m l i : nat) s k' r c :
  Sbe.rhs_dipole (body_l k m l i s) k' r c =
  if (k' =? k) && (r =? m * nb + i) && (c =? l * nb + i)
  then csub (Sbe.rhs_dipole s k' r c) (dip k m l) else Sbe.rhs_dipole s k' r c.
Proof. reflexivity. Qed.

Lemma dipole_loop_li (k m l N : nat) s k' r c :
  Sbe.rhs_dipole (for_range N (body_l k m l) s) k' r c =
  if (k' =? k) && (m * nb <=? r) && (r <? m * nb + N) && (c =? l * nb + (r - m * nb))
  then csub (Sbe.rhs_dipole s k' r c) (dip k m l) else Sbe.rhs_dipole s k' r c.
Proof.
  induction N as [|N IH].
  - rewrite for_range_0. cases_bool; simpl; try reflexivity; lia.
  - rewrite for_range_S, dipole_body_l, IH.
    destruct (Nat.eq_dec r (m * nb + N)) as [->|Hne].
    + replace (m * nb + N - m * nb) with N by lia.
      cases_bool; simpl; try reflexivity; lia.
    + cases_bool; simpl; try reflexivity; lia.
Qed.
Lemma dipole_loop_l (k m L : nat) s k' r c :
  Sbe.rhs_dipole (for_range L (fun l => for_range nb (body_l k m l)) s) k' r c =
  if (k' =? k) && (m * nb <=? r) && (r <? m * nb + nb)
     && (c mod nb =? r - m * nb) && (c / nb <? L)
  then csub (Sbe.rhs_dipole s k' r c) (dip k m (c / nb))
  else Sbe.rhs_dipole s k' r c.
Proof.
  induction L as [|L IH].
  - rewrite for_range_0. destruct (Nat.ltb_spec (c / nb) 0); [lia|].
    rewrite !andb_false_r. reflexivity.
  - rewrite for_range_S, dipole_loop_li, IH.
    destruct (Nat.le_gt_cases (m * nb) r) as [Hlo|Hlo];
      [destruct (Nat.lt_ge_cases r (m * nb + nb)) as [Hhi|Hhi]|].
    + assert (Hi : r - m * nb < nb) by lia.
      destruct (Nat.eq_dec c (L * nb + (r - m * nb))) as [->|Hc].
      * rewrite (vec_index_div nb L _ Hi), (vec_index_mod nb L _ Hi).
        cases_bool; simpl; try reflexivity; lia.
      * pose proof (Nat.div_mod_eq c nb) as Hdm.
        destruct (Nat.eq_dec (c / nb) L) as [Hq|Hq].
        -- rewrite Hq in *. cases_bool; simpl; try reflexivity; lia.
        -- cases_bool; simpl; try reflexivity; lia.
    + cases_bool; simpl; try reflexivity; lia.
    + cases_bool; simpl; try reflexivity; lia.
Qed.

(** On the rows of band [M]: the columns that share the row band. *)
Lemma band_iff (M c : nat) :
  0 < nb -> (M * nb <= c /\ c < M * nb + nb) <-> c / nb = M.
Proof.
  intros Hn. split.
  - intros [Hlo Hhi]. apply (vec_index_band nb M c Hlo Hhi).
  - intros <-. pose proof (Nat.div_mod_eq c nb) as Hdm.
    pose proof (Nat.mod_upper_bound c nb ltac:(lia)) as Hmod. lia.
Qed.

Lemma dipole_loop_m (k M : nat) s k' r c :
  Sbe.rhs_dipole (for_range M (body_m k) s) k' r c =
  if (k' =? k) && (r <? M * nb)
  then
    let v1 := if c / nb =? r / nb
              then cadd (Sbe.rhs_dipole s k' r c) (dip k (r mod nb) (c mod nb))
              else Sbe.rhs_dipole s k' r c in
    if (c mod nb =? r mod nb) && (c / nb <? nb)
    then csub v1 (dip k (r / nb) (c / nb)) else v1
  else Sbe.rhs_dipole s k' r c.
Proof.
  induction M as [|M IH].
  - rewrite for_range_0. destruct (Nat.ltb_spec r (0 * nb)); [lia|].
    rewrite andb_false_r. reflexivity.
  - rewrite for_range_S. unfold Sbe.rhs_body_m at 1.
    rewrite dipole_loop_l, dipole_loop_i, IH. cbv zeta.
    replace (Datatypes.S M * nb) with (M * nb + nb) by lia.
    destruct (Nat.eqb_spec k' k) as [->|Hk]; [|reflexivity].
    simpl andb.
    destruct (Nat.le_gt_cases (M * nb) r) as [Hlo|Hlo];
      [destruct (Nat.lt_ge_cases r (M * nb + nb)) as [Hhi|Hhi]|].
    + destruct (vec_index_band nb M r Hlo Hhi) as [Hdiv Hmod].
      assert (Hn : 0 < nb) by lia.
      rewrite Hdiv, Hmod.
      destruct (Nat.leb_spec (M * nb) r); [|lia].
      destruct (Nat.ltb_spec r (M * nb + nb)); [|lia].
      destruct (Nat.ltb_spec r (M * nb)); [lia|].
      simpl andb.
      destruct (Nat.eqb_spec (c / nb) M) as [Hc|Hc].
      * apply (band_iff M c Hn) in Hc as Hband.
        destruct (vec_index_band nb M c (proj1 Hband) (proj2 Hband)) as [_ Hcm].
        destruct (Nat.leb_spec (M * nb) c); [|lia].
        destruct (Nat.ltb_spec c (M * nb + nb)); [|lia].
        simpl. rewrite <- Hcm. reflexivity.
      * assert (Hnb : ~ (M * nb <= c /\ c < M * nb + nb))
          by (intros Hband; apply Hc, (band_iff M c Hn), Hband).
        destruct (Nat.leb_spec (M * nb) c); destruct (Nat.ltb_spec c (M * nb + nb));
          simpl; try reflexivity; lia.
    + destruct (Nat.ltb_spec r (M * nb + nb)); [lia|].
      destruct (Nat.ltb_spec r (M * nb)); [lia|].
      rewrite ?andb_false_r. simpl. rewrite ?andb_false_r. reflexivity.
    + destruct (Nat.leb_spec (M * nb) r); [lia|].
      destruct (Nat.ltb_spec r (M * nb)); [|lia].
      destruct (Nat.ltb_spec r (M * nb + nb)); [|lia].
      simpl. reflexivity.
Qed.

Lemma dipole_loop_k (K : nat) s k' r c :
  Sbe.rhs_dipole (for_range K (fun k => for_range nb (body_m k)) s) k' r c =
  if (k' <? K) && (r <? nb * nb)
  then
    let v1 := if c / nb =? r / nb
              then cadd (Sbe.rhs_dipole s k' r c) (dip k' (r mod nb) (c mod nb))
              else Sbe.rhs_dipole s k' r c in
    if (c mod nb =? r mod nb) && (c / nb <? nb)
    then csub v1 (dip k' (r / nb) (c / nb)) else v1
  else Sbe.rhs_dipole s k' r c.
Proof.
  induction K as [|K IH].
  - reflexivity.
  - rewrite for_range_S, dipole_loop_m, IH. cbv zeta.
    destruct (Nat.eqb_spec k' K) as [->|Hk].
    + destruct (Nat.ltb_spec K K); [lia|].
      destruct (Nat.ltb_spec K (Datatypes.S K)); [|lia]. reflexivity.
    + destruct (Nat.ltb_spec k' K); destruct (Nat.ltb_spec k' (Datatypes.S K));
        simpl; try reflexivity; lia.
Qed.
End Dipole_tensor.

Section Exact_dipole_tensor.
Context {C : Type} {SC : Scalar C} {LAWS : ScalarLaws C}.

Add Ring scalar_ring_dipole : scalar_ring.

(** X1.  The dipole-coupling tensor has the structure of a commutator: at
    vectorized row [(m, i)] and column [(m', j)] it holds [-1j*d_ij(k)]
    where the first band indices agree, minus [-1j*d_mm'(k)] where the
    second band indices agree, and zero elsewhere. *)
Theorem dipole_tensor_commutator
    (p : Sbe.params) (dipole_in_path : tensor3 C) (e_in_path : tensor2 C)
    (gamma1 gamma2 : C) (k m i m' j : nat) :
  k < Sbe.Nk1 p -> m < Sbe.n p -> i < Sbe.n p -> m' < Sbe.n p -> j < Sbe.n p ->
  Sbe.rhs_dipole (Sbe.rhs_of_sbe p dipole_in_path e_in_path gamma1 gamma2)
    k (m * Sbe.n p + i) (m' * Sbe.n p + j)
  = csub (if m =? m' then cmul (cneg cj) (dipole_in_path k i j) else c0)
         (if i =? j then cmul (cneg cj) (dipole_in_path k m m') else c0).
Proof.
  intros Hk Hm Hi Hm' Hj. unfold Sbe.rhs_of_sbe.
  rewrite dipole_loop_k. cbv zeta. simpl Sbe.rhs_dipole. unfold zeros3.
  rewrite (vec_index_div _ m i Hi), (vec_index_mod _ m i Hi).
  rewrite (vec_index_div _ m' j Hj), (vec_index_mod _ m' j Hj).
  pose proof (vec_index_lt _ m i Hm Hi) as Hlt.
  destruct (Nat.ltb_spec k (Sbe.Nk1 p)); [|lia].
  destruct (Nat.ltb_spec (m * Sbe.n p + i) (Sbe.n p * Sbe.n p)); [|lia].
  destruct (Nat.ltb_spec m' (Sbe.n p)); [|lia].
  rewrite (Nat.eqb_sym m' m), (Nat.eqb_sym j i).
  destruct (m =? m'), (i =? j); simpl; ring.
Qed.
End Exact_dipole_tensor.

Lemma dipole_tensor_commutator_witness :
  Sbe.rhs_dipole Example.rhs_two 1 (0 * 2 + 1) (1 * 2 + 1)
  = csub (if 0 =? 1 then cmul (cneg cj) (Example.dipole 1 1 1) else c0)
         (if 1 =? 1 then cmul (cneg cj) (Example.dipole 1 0 1) else c0).
Proof.
  exact (dipole_tensor_commutator Example.p_two Example.dipole
           (at2 (Example.two_bands 2)) (Sbe.damping (Example.gq 1000 0))
           (Sbe.damping (Example.gq 1 0)) 1 0 1 1 1
           ltac:(simpl; lia) ltac:(simpl; lia) ltac:(simpl; lia)
           ltac:(simpl; lia) ltac:(simpl; lia)).
Defined.

(** ** [fnumba] without a field *)

Section Exact_field_free.
Context {C : Type} {SC : Scalar C} {LAWS : ScalarLaws C}.

Add Ring scalar_ring_field_free : scalar_ring.




End Exact_field_free.


(** ** The time loop *)

Section Time_loop_run.
Context {C : Type} `{Scalar C}.
Variable integrate : Sbe.ode_solver C -> C -> Sbe.ode_solver C.
Variable real_part : C -> C.
Variable progress_line : nat -> nat -> string.
Variable electric_field : C -> C.
Variables (n_bands Nk Nt : nat) (dt : C).
Variable user_out : bool.

#[local] Abbreviation loop :=
  (Sbe.time_loop integrate real_part progress_line electric_field n_bands Nk Nt dt user_out).
#[local] Abbreviation step :=
  (Sbe.time_step integrate real_part progress_line electric_field n_bands Nk Nt dt user_out).
#[local] Abbreviation after := (Sbe.solver_after integrate dt).

(** X3.  The progress test [ti % (Nt//20)] divides by zero when the grid has
    fewer than 20 instants: the first pass of the loop raises, whatever
    [user_out] is, before anything is stored or integrated. *)
Theorem time_loop_short_grid (t_constructed : bool)
    (s : Sbe.ode_solver C) (c : Sbe.containers C) :
  0 < Nt -> Nt < 20 -> Sbe.solver_successful s = true ->
  loop t_constructed Nt s c = Py [] (Raise ZeroDivisionError).
Proof.
  intros Hpos Hshort Hok. destruct Nt as [|todo] eqn:HNt; [lia|].
  simpl Sbe.time_loop. rewrite Hok. unfold Sbe.time_step.
  rewrite (Nat.div_small (Datatypes.S todo) 20) by lia. reflexivity.
Qed.
End Time_loop_run.

Lemma time_loop_short_grid_witness :
  Sbe.time_loop (fun s t => s) (fun a => a) (fun _ _ => "progress"%string)
    Example.field_two 2 1 3 (Example.gq 1 0) false false 3
    {| Sbe.solver_t := Example.gq 0 0; Sbe.solver_y := Example.y_one;
       Sbe.solver_successful := true |}
    (Sbe.empty_containers 3)
  = Py [] (Raise ZeroDivisionError).
Proof.
  exact (time_loop_short_grid (fun s t => s) (fun a => a)
           (fun _ _ => "progress"%string) Example.field_two 2 1 3 (Example.gq 1 0)
           false false
           {| Sbe.solver_t := Example.gq 0 0; Sbe.solver_y := Example.y_one;
              Sbe.solver_successful := true |}
           (Sbe.empty_containers 3) ltac:(lia) ltac:(lia) eq_refl).
Defined.

Section Time_loop_long.
Context {C : Type} `{Scalar C}.
Variable integrate : Sbe.ode_solver C -> C -> Sbe.ode_solver C.
Variable real_part : C -> C.
Variable progress_line : nat -> nat -> string.
Variable electric_field : C -> C.
Variables (n_bands Nk Nt : nat) (dt : C).
Variable user_out : bool.
Variable s0 : Sbe.ode_solver C.

#[local] Abbreviation loop :=
  (Sbe.time_loop integrate real_part progress_line electric_field n_bands Nk Nt dt
     user_out false).
#[local] Abbreviation step :=
  (Sbe.time_step integrate real_part progress_line electric_field n_bands Nk Nt dt
     user_out false).
#[local] Abbreviation after j := (Sbe.solver_after integrate dt j s0).

Hypothesis long_grid : 20 <= Nt.
(** the integrator keeps the shape of the state: [Nk1*n*n] entries and the
    vector potential *)
Hypothesis shape : forall j, j < Nt ->
  length (Sbe.solver_y (after j)) = Nk * n_bands * n_bands + 1.

(** what pass [i] writes *)
#[local] Abbreviation dm_at i :=
  (take (Nk * n_bands * n_bands) (Sbe.solver_y (after i))).

Lemma time_step_ok (ti : nat) (c : Sbe.containers C) :
  ti < Nt ->
  exists out,
    step ti (after ti) c
    = Py out
        (Ok (after (Datatypes.S ti),
             {| Sbe.solution := <[ti := Some (dm_at ti)]> (Sbe.solution c);
                Sbe.t_array := <[ti := Some (Sbe.solver_t (after ti))]> (Sbe.t_array c);
                Sbe.A_field :=
                  <[ti := real_part <$> last (Sbe.solver_y (after ti))]> (Sbe.A_field c);
                Sbe.E_field :=
                  <[ti := Some (electric_field (Sbe.solver_t (after ti)))]>
                    (Sbe.E_field c) |})).
Proof.
  intros Hti. pose proof (shape ti Hti) as Hlen.
  unfold Sbe.time_step.
  assert (Hdiv : Nt / 20 <> 0).
  { intros Hz. apply Nat.div_small_iff in Hz; lia. }
  destruct (Nat.eqb_spec (Nt / 20) 0) as [?|_]; [contradiction|].
  rewrite (py_bind_silent _ _ ((ti mod (Nt / 20) =? 0) && user_out) eq_refl).
  unfold Sbe.density_matrices. cbv zeta.
  assert (Htake : length (take (length (Sbe.solver_y (after ti)) - 1)
                            (Sbe.solver_y (after ti)))
                  = Nk * n_bands * n_bands) by (rewrite length_take; lia).
  rewrite Htake, Nat.eqb_refl.
  destruct (last (Sbe.solver_y (after ti))) as [a|] eqn:Hlast.
  2:{ apply last_None in Hlast. rewrite Hlast in Hlen. simpl in Hlen. lia. }
  replace (length (Sbe.solver_y (after ti)) - 1) with (Nk * n_bands * n_bands) by lia.
  destruct ((ti mod (Nt / 20) =? 0) && user_out); eexists; reflexivity.
Qed.

Lemma time_loop_from (todo : nat) :
  forall (K : nat) (c : Sbe.containers C),
  todo <= Nt -> Nt - todo <= K -> K <= Nt ->
  (forall j, j < K -> Sbe.solver_successful (after j) = true) ->
  (K < Nt -> Sbe.solver_successful (after K) = false) ->
  length (Sbe.solution c) = Nt -> length (Sbe.t_array c) = Nt ->
  length (Sbe.A_field c) = Nt -> length (Sbe.E_field c) = Nt ->
  exists out c',
    loop todo (after (Nt - todo)) c = Py out (Ok (K, after K, c'))
    /\ forall i,
         Sbe.solution c' !! i
         = (if (Nt - todo <=? i) && (i <? K) then Some (Some (dm_at i))
            else Sbe.solution c !! i)
         /\ Sbe.t_array c' !! i
            = (if (Nt - todo <=? i) && (i <? K) then Some (Some (Sbe.solver_t (after i)))
               else Sbe.t_array c !! i)
         /\ Sbe.A_field c' !! i
            = (if (Nt - todo <=? i) && (i <? K)
               then Some (real_part <$> last (Sbe.solver_y (after i)))
               else Sbe.A_field c !! i)
         /\ Sbe.E_field c' !! i
            = (if (Nt - todo <=? i) && (i <? K)
               then Some (Some (electric_field (Sbe.solver_t (after i))))
               else Sbe.E_field c !! i).
Proof.
  induction todo as [|todo IH]; intros K c Htodo Hlo Hhi Hok Hstop Hl1 Hl2 Hl3 Hl4.
  - assert (K = Nt) by lia. subst K. rewrite Nat.sub_0_r.
    exists [], c. split; [reflexivity|]. intros i.
    destruct (Nat.leb_spec Nt i); destruct (Nat.ltb_spec i Nt); simpl;
      try lia; repeat split.
  - simpl Sbe.time_loop.
    destruct (Nat.eq_dec (Nt - Datatypes.S todo) K) as [HK|HK].
    + rewrite HK. rewrite (Hstop ltac:(lia)).
      exists [], c. split; [reflexivity|]. intros i.
      destruct (Nat.leb_spec K i); destruct (Nat.ltb_spec i K); simpl;
        try lia; repeat split.
    + rewrite (Hok (Nt - Datatypes.S todo)) by lia.
      destruct (time_step_ok (Nt - Datatypes.S todo) c ltac:(lia)) as [out1 Hstep].
      rewrite (py_bind_ok_run _ _ _ _ Hstep). cbn [fst snd].
      replace (Datatypes.S (Nt - Datatypes.S todo)) with (Nt - todo) by lia.
      match goal with
      | |- context [loop todo _ ?c1] =>
          destruct (IH K c1 ltac:(lia) ltac:(lia) Hhi Hok Hstop
                      ltac:(simpl; rewrite length_insert; exact Hl1)
                      ltac:(simpl; rewrite length_insert; exact Hl2)
                      ltac:(simpl; rewrite length_insert; exact Hl3)
                      ltac:(simpl; rewrite length_insert; exact Hl4))
            as (out2 & c' & Hrun & Hent)
      end.
      rewrite Hrun. cbn [printed result].
      exists (out1 ++ out2), c'. split; [reflexivity|]. intros i.
      destruct (Hent i) as (Hs & Ht & Ha & He). simpl in Hs, Ht, Ha, He.
      rewrite Hs, Ht, Ha, He.
      destruct (Nat.eq_dec i (Nt - Datatypes.S todo)) as [->|Hne].
      * rewrite !list_lookup_insert_eq by lia.
        destruct (Nat.leb_spec (Nt - todo) (Nt - Datatypes.S todo)); [lia|].
        destruct (Nat.leb_spec (Nt - Datatypes.S todo) (Nt - Datatypes.S todo)); [|lia].
        destruct (Nat.ltb_spec (Nt - Datatypes.S todo) K); [|lia].
        simpl. repeat split.
      * rewrite !list_lookup_insert_ne by lia.
        destruct (Nat.leb_spec (Nt - todo) i);
          destruct (Nat.leb_spec (Nt - Datatypes.S todo) i);
          destruct (Nat.ltb_spec i K); simpl; try lia; repeat split.
Qed.

End Time_loop_long.


Section Rolls.
Context {A : Type}.

Lemma roll_left_length (x : list A) : length (Sbe.roll_left x) = length x.
Proof.
  unfold Sbe.roll_left. rewrite length_app, length_drop, length_take. lia.
Qed.

Lemma roll_right_length (x : list A) : length (Sbe.roll_right x) = length x.
Proof.
  unfold Sbe.roll_right. rewrite length_app, length_drop, length_take. lia.
Qed.

Lemma roll_left_lookup (x : list A) (i : nat) :
  i < length x -> Sbe.roll_left x !! i = x !! ((i + 1) mod length x).
Proof.
  intros Hi. unfold Sbe.roll_left.
  pose proof (roll_lookup x (length x - 1) i ltac:(lia) Hi) as Hroll.
  replace (length x - (length x - 1)) with 1 in Hroll by lia.
  exact Hroll.
Qed.

Lemma roll_right_lookup (x : list A) (i : nat) :
  i < length x -> Sbe.roll_right x !! i = x !! ((i + (length x - 1)) mod length x).
Proof.
  intros Hi. unfold Sbe.roll_right. apply roll_lookup; lia.
Qed.
End Rolls.

Section Diff.
Context {C : Type} `{Scalar C}.

Lemma rolled_difference_lookup (x : list C) (i : nat) :
  i < length x ->
  zip_with csub (Sbe.roll_left x) (Sbe.roll_right x) !! i
  = Some (csub (nth ((i + 1) mod length x) x c0)
               (nth ((i + (length x - 1)) mod length x) x c0)).
Proof.
  intros Hi. rewrite lookup_zip_with.
  rewrite roll_left_lookup, roll_right_lookup by exact Hi.
  rewrite (lookup_nth_lt x ((i + 1) mod length x) c0)
    by (apply Nat.mod_upper_bound; lia).
  rewrite (lookup_nth_lt x ((i + (length x - 1)) mod length x) c0)
    by (apply Nat.mod_upper_bound; lia).
  reflexivity.
Qed.

Lemma diff_run (x y : list C) :
  length x = length y -> length y <> 1 ->
  Sbe.diff x y
  = Ok (Sbe.Quotients
          (zip_with cdiv (zip_with csub (Sbe.roll_left y) (Sbe.roll_right y))
                         (zip_with csub (Sbe.roll_left x) (Sbe.roll_right x)))).
Proof.
  intros Hlen Hne. unfold Sbe.diff.
  rewrite Hlen, Nat.eqb_refl. cbn [negb].
  destruct (Nat.eqb_spec (length y) 1) as [?|_]; [contradiction|].
  rewrite (np_sub_ok (Sbe.roll_left x) (Sbe.roll_right x))
    by (left; rewrite roll_left_length, roll_right_length; reflexivity).
  rewrite outcome_bind_ok.
  rewrite (np_sub_ok (Sbe.roll_left y) (Sbe.roll_right y))
    by (left; rewrite roll_left_length, roll_right_length; reflexivity).
  rewrite outcome_bind_ok.
  rewrite !bcast2_same_length
    by (rewrite roll_left_length, roll_right_length; reflexivity).
  unfold Sbe.np_div, broadcastable.
  assert (Hl : length (zip_with csub (Sbe.roll_left y) (Sbe.roll_right y))
               = length (zip_with csub (Sbe.roll_left x) (Sbe.roll_right x))).
  { rewrite !length_zip_with, !roll_left_length, !roll_right_length. lia. }
  rewrite Hl, Nat.eqb_refl. cbn [orb].
  rewrite outcome_bind_ok, bcast2_same_length by exact Hl. reflexivity.
Qed.

(** X5.  [diff] on two arrays of the same length [N >= 2] returns an array
    of [N] quotients, and entry [i] is the central difference taken around
    the ring: the neighbours of [i] are [(i+1) mod N] and [(i-1) mod N], so
    the first and the last entry pair the two ends of the arrays. *)
Theorem diff_central_periodic (x y : list C) (i : nat) :
  length x = length y -> 2 <= length y -> i < length y ->
  exists q,
    Sbe.diff x y = Ok (Sbe.Quotients q)
    /\ length q = length y
    /\ q !! i
       = Some (cdiv (csub (nth ((i + 1) mod length y) y c0)
                          (nth ((i + (length y - 1)) mod length y) y c0))
                    (csub (nth ((i + 1) mod length y) x c0)
                          (nth ((i + (length y - 1)) mod length y) x c0))).
Proof.
  intros Hlen HN Hi. eexists. split; [apply diff_run; [exact Hlen | lia]|]. split.
  - rewrite !length_zip_with, !roll_left_length, !roll_right_length. lia.
  - rewrite lookup_zip_with.
    rewrite (rolled_difference_lookup y i Hi).
    rewrite (rolled_difference_lookup x i) by lia.
    rewrite Hlen. reflexivity.
Qed.
End Diff.

Lemma diff_central_periodic_witness :
  exists q,
    Sbe.diff Example.t_four Example.signal_four = Ok (Sbe.Quotients q)
    /\ length q = length Example.signal_four
    /\ q !! 1
       = Some (cdiv (csub (nth ((1 + 1) mod length Example.signal_four)
                             Example.signal_four c0)
                          (nth ((1 + (length Example.signal_four - 1))
                                mod length Example.signal_four)
                             Example.signal_four c0))
                    (csub (nth ((1 + 1) mod length Example.signal_four)
                             Example.t_four c0)
                          (nth ((1 + (length Example.signal_four - 1))
                                mod length Example.signal_four)
                             Example.t_four c0))).
Proof.
  apply (diff_central_periodic Example.t_four Example.signal_four 1);
    [reflexivity | simpl; lia | simpl; lia].
Defined.

(** ** The parsers: what a record can and cannot set *)

(** A lookup below insertions at other names. *)
Ltac skip_inserts :=
  repeat (rewrite lookup_insert_ne by (apply String.eqb_neq; reflexivity)).
Ltac skip_inserts_in H :=
  repeat (rewrite lookup_insert_ne in H by (apply String.eqb_neq; reflexivity)).

Lemma set_inv_inv (name src : string) (P P' : pyobj) (out : list string) :
  set_inv name src P = Py out (Ok P') -> out = [] /\ exists v, P' = <[name := v]> P.
Proof.
  unfold set_inv. intros Heq.
  apply py_bind_ok_inv in Heq as (o1 & v & o2 & Hg & Hr & ->).
  apply getattr_ok_inv in Hg as [-> _].
  apply py_bind_ok_inv in Hr as (o3 & w & o4 & Hl & Hr & ->).
  apply lift_ok_inv in Hl as [-> _]. apply mret_ok_inv in Hr as [-> ->].
  split; [reflexivity | exists w; reflexivity].
Qed.

Lemma set_neg_inv (name src : string) (P P' : pyobj) (out : list string) :
  set_neg name src P = Py out (Ok P') -> out = [] /\ exists v, P' = <[name := v]> P.
Proof.
  unfold set_neg. intros Heq.
  apply py_bind_ok_inv in Heq as (o1 & v & o2 & Hg & Hr & ->).
  apply getattr_ok_inv in Hg as [-> _].
  apply py_bind_ok_inv in Hr as (o3 & w & o4 & Hl & Hr & ->).
  apply lift_ok_inv in Hl as [-> _]. apply mret_ok_inv in Hr as [-> ->].
  split; [reflexivity | exists w; reflexivity].
Qed.

(** Inversion of a run that returned, through the derived attributes too. *)
Ltac py_inv_all H :=
  cbv zeta in H;
  lazymatch type of H with
  | (_ ≫= _) = Py _ (Ok _) =>
      let Hm := fresh "Hm" in
      apply py_bind_ok_inv in H as (? & ? & ? & Hm & H & ->);
      py_inv_all Hm; py_inv_all H
  | getattr _ _ = Py _ (Ok _) => apply getattr_ok_inv in H as [-> H]
  | set_copy _ _ _ _ = Py _ (Ok _) => apply set_copy_inv in H as [-> [? ->]]
  | set_scaled _ _ _ _ _ = Py _ (Ok _) => apply set_scaled_inv in H as [-> [? ->]]
  | set_inv _ _ _ = Py _ (Ok _) => apply set_inv_inv in H as [-> [? ->]]
  | set_neg _ _ _ = Py _ (Ok _) => apply set_neg_inv in H as [-> [? ->]]
  | set_dk_order _ _ = Py _ (Ok _) => apply set_dk_order_inv in H as [-> [? ->]]
  | lift _ = Py _ (Ok _) => apply lift_ok_inv in H as [-> H]
  | raise _ = Py _ (Ok _) => discriminate H
  | mret _ = Py _ (Ok _) => apply mret_ok_inv in H as [-> ->]
  | (if ?b then _ else _) = Py _ (Ok _) => destruct b eqn:?; py_inv_all H
  | (match ?x with _ => _ end) = Py _ (Ok _) => destruct x eqn:?; py_inv_all H
  | _ => idtac
  end.

Section Cued_user_field.
Variable co : conversion_factors.
Variable format_tail : list pyval -> outcome string.
Variable record : pyclass.
#[local] Abbreviation UP := (attributes record).

Lemma own_parameters_user_field (fn : pyval) (out : list string) (self : pyobj) :
  UP !! "electric_field_function" = Some fn ->
  Cued.own_parameters co UP = Py out (Ok self) ->
  self !! Cued.user_defined_field_key = Some (PBool true)
  /\ self !! "E0_MVpcm" = None.
Proof.
  intros Hfn Hrun.
  unfold Cued.own_parameters, Cued.occupation, Cued.time_scales, Cued.field,
    Cued.brillouin_zone, Cued.optional, set_default in Hrun.
  unfold Cued.user_defined_field_key in *.
  rewrite Hfn in Hrun. py_inv Hrun;
    (split; skip_inserts; [apply lookup_insert_eq | apply lookup_empty]).
Qed.

Lemma append_derived_needs_amplitude (self self' : pyobj) (out : list string) :
  self !! Cued.user_defined_field_key = Some (PBool true) ->
  self !! "E0_MVpcm" = None ->
  Cued.append_derived_parameters format_tail co UP self <> Py out (Ok self').
Proof.
  intros Hflag Hnone Hrun.
  unfold Cued.append_derived_parameters in Hrun.
  unfold Cued.user_defined_field_key in *.
  apply py_bind_ok_inv in Hrun as (o1 & flag & o2 & Hg & Hrun & ->).
  apply getattr_ok_inv in Hg as [-> Hg].
  rewrite Hflag in Hg. injection Hg as <-.
  cbn [Cued.truthy] in Hrun.
  py_inv_all Hrun;
    match goal with
    | HE : _ !! "E0_MVpcm" = Some _ |- _ =>
        skip_inserts_in HE; rewrite Hnone in HE; discriminate HE
    end.
Qed.

(** X6.  A record that brings its own [electric_field_function] is never
    constructed: [__field] then sets no amplitude, so the derived parameters
    have no [E0_MVpcm] for the file-name tail and the constructor ends in an
    exception or an exit, whatever else the record holds. *)
Theorem user_defined_field_never_constructed (fn : pyval) :
  UP !! "electric_field_function" = Some fn ->
  forall out self, Cued.init format_tail co record <> Py out (Ok self).
Proof.
  intros Hfn out self Hrun. unfold Cued.init in Hrun.
  apply py_bind_ok_inv in Hrun as (o1 & s1 & o2 & Hown & Hrun & ->).
  apply py_bind_ok_inv in Hrun as (o3 & [] & o4 & _ & Hrun & ->).
  destruct (own_parameters_user_field fn o1 s1 Hfn Hown) as [Hflag Hnone].
  exact (append_derived_needs_amplitude s1 self o4 Hflag Hnone Hrun).
Qed.
End Cued_user_field.

Lemma user_defined_field_never_constructed_witness :
  is_ok (result (Cued.init Example.format_tail Example.co
                   (Example.class_of Example.test_09_field))) = false.
Proof.
  destruct (Cued.init Example.format_tail Example.co
              (Example.class_of Example.test_09_field))
    as [out [self|e]] eqn:Hrun; [|reflexivity].
  exfalso.
  exact (user_defined_field_never_constructed Example.co Example.format_tail
           (Example.class_of Example.test_09_field) (PObj "electric_field")
           ltac:(rewrite attributes_class_of; apply lookup_insert_eq) out self Hrun).
Defined.

Section Cued_window.
Variable co : conversion_factors.
Variable UP : pyobj.

(** X7.  With the Gaussian window chosen, every record that passes the
    parser's own stages ends with [gaussian_window_width] equal to the pulse
    width [sigma] of the parsed record (in atomic units): the width the
    record gives under [gaussian_window_width] is read and then overwritten. *)
Theorem gaussian_window_width_is_sigma (out : list string) (self : pyobj) :
  UP !! "fourier_window_function" = Some (PStr "gaussian") ->
  Cued.own_parameters co UP = Py out (Ok self) ->
  exists w, self !! "sigma" = Some w /\ self !! "gaussian_window_width" = Some w.
Proof.
  intros Hwin Hrun.
  unfold Cued.own_parameters, Cued.occupation, Cued.time_scales, Cued.field,
    Cued.brillouin_zone, Cued.optional, set_default in Hrun.
  unfold Cued.user_defined_field_key in *.
  rewrite Hwin in Hrun.
  change (default (PStr "hann") (Some (PStr "gaussian"))) with (PStr "gaussian") in Hrun.
  change (py_eq_str (PStr "gaussian") "gaussian") with true in Hrun.
  cbv beta iota zeta in Hrun.
  py_inv_all Hrun;
    match goal with
    | Hs : _ !! "sigma" = Some _ |- _ =>
        skip_inserts_in Hs;
        first [ rewrite lookup_empty in Hs; discriminate Hs
              | rewrite lookup_insert_eq in Hs; injection Hs as <- ]
    end;
    (eexists; split; skip_inserts; apply lookup_insert_eq).
Qed.
End Cued_window.

Lemma own_of_test_09_gaussian :
  Cued.own_parameters Example.co Example.test_09_gaussian
  = Py [] (Ok (Example.own_of Example.test_09_gaussian)).
Proof. apply own_of_run. vm_compute. reflexivity. Qed.

Lemma gaussian_window_width_is_sigma_witness :
  exists w, Example.own_of Example.test_09_gaussian !! "sigma" = Some w
            /\ Example.own_of Example.test_09_gaussian !! "gaussian_window_width" = Some w.
Proof.
  apply (gaussian_window_width_is_sigma Example.co Example.test_09_gaussian []
           (Example.own_of Example.test_09_gaussian)).
  - vm_compute. reflexivity.
  - exact own_of_test_09_gaussian.
Defined.

(** ** [parse_params]: what it reads and what it derives *)

Lemma set_scaled_val (UP : pyobj) (name src : string) (c : Q) (P P' : pyobj)
    (out : list string) :
  set_scaled UP name src c P = Py out (Ok P') ->
  exists v w, UP !! src = Some v /\ py_scale v c = Ok w /\ P' = <[name := w]> P.
Proof.
  unfold set_scaled. intros Heq.
  apply py_bind_ok_inv in Heq as (o1 & v & o2 & Hg & Hr & ->).
  apply getattr_ok_inv in Hg as [-> Hv].
  apply py_bind_ok_inv in Hr as (o3 & w & o4 & Hl & Hr & ->).
  apply lift_ok_inv in Hl as [-> Hw]. apply mret_ok_inv in Hr as [-> ->].
  exists v, w. repeat split; assumption.
Qed.

Lemma set_copy_val (UP : pyobj) (name src : string) (P P' : pyobj) (out : list string) :
  set_copy UP name src P = Py out (Ok P') ->
  exists v, UP !! src = Some v /\ P' = <[name := v]> P.
Proof.
  unfold set_copy. intros Heq.
  apply py_bind_ok_inv in Heq as (o1 & v & o2 & Hg & Hr & ->).
  apply getattr_ok_inv in Hg as [-> Hv]. apply mret_ok_inv in Hr as [-> ->].
  exists v. split; [assumption | reflexivity].
Qed.

Lemma set_neg_val (name src : string) (P P' : pyobj) (out : list string) :
  set_neg name src P = Py out (Ok P') ->
  exists v w, P !! src = Some v /\ py_neg v = Ok w /\ P' = <[name := w]> P.
Proof.
  unfold set_neg. intros Heq.
  apply py_bind_ok_inv in Heq as (o1 & v & o2 & Hg & Hr & ->).
  apply getattr_ok_inv in Hg as [-> Hv].
  apply py_bind_ok_inv in Hr as (o3 & w & o4 & Hl & Hr & ->).
  apply lift_ok_inv in Hl as [-> Hw]. apply mret_ok_inv in Hr as [-> ->].
  exists v, w. repeat split; assumption.
Qed.

Lemma set_dk_order_val (UP P P' : pyobj) (out : list string) :
  set_dk_order UP P = Py out (Ok P') ->
  exists v, py_in_2468 v = true /\ P' = <["dk_order" := v]> P.
Proof.
  unfold set_dk_order. intros Heq.
  destruct (UP !! "dk_order") as [v|].
  - destruct (py_in_2468 v) eqn:Hin; [|discriminate].
    apply mret_ok_inv in Heq as [-> ->]. exists v. split; [exact Hin | reflexivity].
  - apply mret_ok_inv in Heq as [-> ->]. exists (PNum 8). split; reflexivity.
Qed.

Lemma precision_types_ok_inv (precision solver_method : pyval) (out : list string)
    (types : pyval * pyval) :
  precision_types precision solver_method = Py out (Ok types) ->
  py_eq_str precision "double" = true
  \/ (py_eq_str precision "quadruple" = true /\ py_eq_str solver_method "rk4" = true).
Proof.
  unfold precision_types. intros Heq.
  destruct (py_eq_str precision "double"); [left; reflexivity|].
  destruct (py_eq_str precision "quadruple"); [|discriminate].
  destruct (py_eq_str solver_method "rk4"); [|discriminate].
  right. split; reflexivity.
Qed.

(** Inversion of a run that returned, keeping the values that were read. *)
Ltac py_inv_vals H :=
  cbv zeta in H;
  lazymatch type of H with
  | (_ ≫= _) = Py _ (Ok _) =>
      let Hm := fresh "Hm" in
      apply py_bind_ok_inv in H as (? & ? & ? & Hm & H & ->);
      py_inv_vals Hm; py_inv_vals H
  | getattr _ _ = Py _ (Ok _) => apply getattr_ok_inv in H as [-> H]
  | set_copy _ _ _ _ = Py _ (Ok _) => apply set_copy_val in H as (? & H & ->)
  | set_scaled _ _ _ _ _ = Py _ (Ok _) =>
      let Hs := fresh "Hs" in apply set_scaled_val in H as (? & ? & H & Hs & ->)
  | set_inv _ _ _ = Py _ (Ok _) => apply set_inv_inv in H as [-> [? ->]]
  | set_neg _ _ _ = Py _ (Ok _) =>
      let Hs := fresh "Hs" in apply set_neg_val in H as (? & ? & H & Hs & ->)
  | set_dk_order _ _ = Py _ (Ok _) => apply set_dk_order_val in H as (? & H & ->)
  | lift _ = Py _ (Ok _) => apply lift_ok_inv in H as [-> H]
  | raise _ = Py _ (Ok _) => discriminate H
  | mret _ = Py _ (Ok _) => apply mret_ok_inv in H as [-> ->]
  | (if ?b then _ else _) = Py _ (Ok _) => destruct b eqn:?; py_inv_vals H
  | (match ?x with _ => _ end) = Py _ (Ok _) => destruct x eqn:?; py_inv_vals H
  | _ => idtac
  end.

Section Sbe_parser.
Variable co : conversion_factors.
Variable UP : pyobj.

(** X10.  What every record returned by [parse_params] satisfies: its
    [dk_order] is one of 2, 4, 6, 8; its [precision] is ['double'] or
    ['quadruple'], and with ['quadruple'] its [solver_method] is ['rk4']. *)
Theorem parse_params_result_invariants (out : list string) (P : pyobj) :
  SbeParser.parse_params co UP = Py out (Ok P) ->
  (exists order, P !! "dk_order" = Some order /\ py_in_2468 order = true)
  /\ (exists precision solver_method,
        P !! "precision" = Some precision
        /\ P !! "solver_method" = Some solver_method
        /\ (py_eq_str precision "double" = true
            \/ (py_eq_str precision "quadruple" = true
                /\ py_eq_str solver_method "rk4" = true))).
Proof.
  intros Hrun.
  unfold SbeParser.parse_params, set_default in Hrun.
  py_inv_vals Hrun;
    match goal with
    | Hp : precision_types _ _ = _, Hd : py_in_2468 _ = true |- _ =>
        apply precision_types_ok_inv in Hp;
        (split;
         [ eexists; split; [skip_inserts; apply lookup_insert_eq | exact Hd]
         | eexists; eexists; split; [skip_inserts; apply lookup_insert_eq|];
           split; [skip_inserts; apply lookup_insert_eq | exact Hp] ])
    end.
Qed.

(** X9.  [parse_params] looks at no attribute besides the ones it reads: a
    record with one more attribute under any other name (a misspelt option,
    say) is parsed to the same result, with the same output, and the
    attribute is dropped without a message. *)
Theorem parse_params_ignores_other_names (name : string) (v : pyval) :
  ~ In name parse_params_reads ->
  SbeParser.parse_params co (<[name := v]> UP) = SbeParser.parse_params co UP.
Proof.
  intros Hname.
  assert (Hread : forall k, In k parse_params_reads ->
            <[name := v]> UP !! k = UP !! k).
  { intros k Hk. apply lookup_insert_ne. intros ->. contradiction. }
  unfold SbeParser.parse_params, set_default, set_copy, set_scaled, set_dk_order,
    getattr.
  repeat match goal with
         | |- context [<[name := v]> UP !! ?k] =>
             rewrite (Hread k)
               by (unfold parse_params_reads;
                   repeat first [left; reflexivity | right])
         end.
  reflexivity.
Qed.
End Sbe_parser.

Lemma parsed_of_line_record :
  SbeParser.parse_params Example.co Example.line_record
  = Py [] (Ok (Example.parsed_of Example.line_record)).
Proof.
  unfold Example.parsed_of.
  assert (Hp : printed (SbeParser.parse_params Example.co Example.line_record) = [])
    by (vm_compute; reflexivity).
  assert (Hok : is_ok (result (SbeParser.parse_params Example.co Example.line_record))
                = true)
    by (vm_compute; reflexivity).
  destruct (SbeParser.parse_params Example.co Example.line_record) as [o [P|e]];
    simpl in *; [subst o; reflexivity | discriminate].
Qed.

Lemma parse_params_ignores_other_names_witness :
  SbeParser.parse_params Example.co (<["guage" := PStr "velocity"]> Example.line_record)
  = SbeParser.parse_params Example.co Example.line_record.
Proof.
  apply (parse_params_ignores_other_names Example.co Example.line_record "guage"
           (PStr "velocity")).
  unfold parse_params_reads. simpl.
  intros Hin. repeat destruct Hin as [Hin|Hin]; try discriminate Hin. exact Hin.
Defined.

Lemma parse_params_result_invariants_witness :
  (exists order, Example.parsed_of Example.line_record !! "dk_order" = Some order
                 /\ py_in_2468 order = true)
  /\ (exists precision solver_method,
        Example.parsed_of Example.line_record !! "precision" = Some precision
        /\ Example.parsed_of Example.line_record !! "solver_method" = Some solver_method
        /\ (py_eq_str precision "double" = true
            \/ (py_eq_str precision "quadruple" = true
                /\ py_eq_str solver_method "rk4" = true))).
Proof.
  exact (parse_params_result_invariants Example.co Example.line_record []
           (Example.parsed_of Example.line_record) parsed_of_line_record).
Defined.

Section Diff_two_points.
Context {C : Type} {SC : Scalar C} {LAWS : ScalarLaws C}.

(** X11.  On a grid of two instants both neighbours of an index are the
    other index, so [diff] divides a zero difference by a zero difference at
    both entries, whatever the two arrays hold. *)
Theorem diff_two_points (x y : list C) :
  length x = 2 -> length y = 2 ->
  Sbe.diff x y = Ok (Sbe.Quotients [cdiv c0 c0; cdiv c0 c0]).
Proof.
  intros Hx Hy.
  destruct x as [|x0 [|x1 [|? ?]]]; try discriminate Hx.
  destruct y as [|y0 [|y1 [|? ?]]]; try discriminate Hy.
  rewrite diff_run by (simpl; lia).
  cbn [Sbe.roll_left Sbe.roll_right length Nat.sub drop take app zip_with].
  rewrite !csub_diag. reflexivity.
Qed.
End Diff_two_points.

Lemma diff_two_points_witness :
  Sbe.diff Example.t_pair Example.current_pair
  = Ok (Sbe.Quotients [cdiv c0 c0; cdiv c0 c0]).
Proof.
  exact (diff_two_points Example.t_pair Example.current_pair eq_refl eq_refl).
Defined.

Section Window.
Context {C : Type} {SC : Scalar C} {NP : Numpy C} {LAWS : ScalarLaws C}.

Add Ring scalar_ring_window : scalar_ring.

(** X16.  The window [gaussian] is even in time: on the mirrored instants
    it takes the same values. *)
Theorem gaussian_even (t : list C) (alpha : C) :
  Sbe.gaussian (map cneg t) alpha = Sbe.gaussian t alpha.
Proof.
  unfold Sbe.gaussian. rewrite map_map. apply map_ext. intros tau.
  do 3 f_equal. ring.
Qed.
End Window.

Lemma fnumba_entry_periodic_witness :
  exists x,
    Sbe.fnumba 2 Example.field_two (Example.gq 0 0) Example.y_three Example.rhs_three
      Example.y0_three Example.p_three (Example.gq 1 0) = Ok x
    /\ x !! (1 * (2 * 2) + 1) =
       Some (cadd (cadd (cadd c0 (dot_row (2 * 2)
                                    (Sbe.liouville (Example.field_two (Example.gq 0 0))
                                       Example.rhs_three 1)
                                    (Sbe.block 2 1 Example.y_three) 1))
                        (cmul (cdiv (Example.field_two (Example.gq 0 0))
                                    (cmul (cofQ 2) (Example.gq 1 0)))
                              (csub (nth (((1 + 1) mod Sbe.Nk1 Example.p_three) * (2 * 2) + 1)
                                         Example.y_three c0)
                                    (nth (((1 + Sbe.Nk1 Example.p_three - 1)
                                           mod Sbe.Nk1 Example.p_three) * (2 * 2) + 1)
                                         Example.y_three c0))))
                  (dot_row (2 * 2) (Sbe.rhs_gamma1 Example.rhs_three 1)
                     (zip_with csub (Sbe.block 2 1 Example.y_three)
                        (Sbe.block 2 1 Example.y0_three)) 1)).
Proof.
  apply (fnumba_entry_periodic 2 Example.field_two (Example.gq 0 0) Example.y_three
           Example.y0_three Example.rhs_three Example.p_three (Example.gq 1 0) 1 1).
  - vm_compute. reflexivity.
  - simpl. lia.
  - reflexivity.
  - reflexivity.
  - simpl. lia.
  - lia.
Defined.

Lemma time_window_silent_for_negative_start_witness :
  printed (time_window np_float128 (-1000) (3 # 10)) = [].
Proof.
  exact (time_window_silent_for_negative_start np_float128 (-1000) (3 # 10)
           ltac:(discriminate) eq_refl).
Defined.

Lemma gaussian_even_witness :
  Sbe.gaussian (map cneg Example.t_pair) (Example.gq 1 0)
  = Sbe.gaussian Example.t_pair (Example.gq 1 0).
Proof. exact (gaussian_even Example.t_pair (Example.gq 1 0)). Defined.

(** ** The equilibrium state through a run *)

Section Equilibrium_run.
Context {C : Type} {SC : Scalar C} {NP : Numpy C} {LAWS : ScalarLaws C}.
Variable p : Sbe.params.
Variable dipole_in_path : tensor3 C.
Variable e_in_path : ndarray2 C.
Variables T1 T2 e_fermi temperature : C.
Variable electric_field : C -> C.
Variable dk : C.
Variable integrate : Sbe.ode_solver C -> C -> Sbe.ode_solver C.
Variable real_part : C -> C.
Variable progress_line : nat -> nat -> string.
Variable Nt : nat.
Variables dt t_start : C.
Variable user_out : bool.

#[local] Abbreviation rhs_eq :=
  (Sbe.rhs_of_sbe p dipole_in_path (at2 e_in_path) (Sbe.damping T1) (Sbe.damping T2)).

(** C4.  With a driving field that vanishes at all times, the equilibrium
    initial state (Fermi-Dirac or step populations, zero coherences, zero
    vector potential) is a fixed point: at that state [fnumba] returns the
    zero vector for every time [t].  So a run on a grid of at least 20
    instants, with an integrator that leaves a state alone where the
    right-hand side vanishes at all times, goes through all [Nt] instants
    and stores the initial density matrix at every one of them, the last
    included. *)
Theorem equilibrium_is_fixed_point :
  rows e_in_path = Sbe.Nk1 p -> cols e_in_path = Sbe.n p ->
  0 < Sbe.Nk1 p -> 0 < Sbe.n p ->
  (forall t, electric_field t = c0) ->
  cmul (cofQ 2) dk <> c0 ->
  exists ic,
    Sbe.initial_condition e_fermi temperature e_in_path = Ok ic
    /\ Sbe.initial_state e_fermi temperature e_in_path = Ok (ic ++ [c0])
    /\ (forall t,
          Sbe.fnumba (Sbe.n p) electric_field t (ic ++ [c0]) rhs_eq (ic ++ [c0]) p dk
          = Ok (replicate (length (ic ++ [c0])) c0))
    /\ (20 <= Nt ->
        (forall s t',
           (forall t,
              Sbe.fnumba (Sbe.n p) electric_field t (Sbe.solver_y s) rhs_eq
                (ic ++ [c0]) p dk
              = Ok (replicate (length (Sbe.solver_y s)) c0)) ->
           Sbe.solver_y (integrate s t') = Sbe.solver_y s
           /\ Sbe.solver_successful (integrate s t') = true) ->
        exists out s' c',
          Sbe.time_loop integrate real_part progress_line electric_field
            (Sbe.n p) (Sbe.Nk1 p) Nt dt user_out false Nt
            {| Sbe.solver_t := t_start; Sbe.solver_y := ic ++ [c0];
               Sbe.solver_successful := true |}
            (Sbe.empty_containers Nt)
          = Py out (Ok (Nt, s', c'))
          /\ Sbe.solver_y s' = ic ++ [c0]
          /\ forall i, i < Nt -> Sbe.solution c' !! i = Some (Some ic)).
Proof.
  intros Hrows Hcols HNk Hn HE Hdk.
  assert (Hr : 0 < rows e_in_path) by lia.
  assert (Hc : 0 < cols e_in_path) by lia.
  destruct (initial_condition_spec e_fermi temperature e_in_path Hr Hc)
    as (ic & Hic & Hlen & _).
  assert (Hstate : Sbe.initial_state e_fermi temperature e_in_path = Ok (ic ++ [c0])).
  { unfold Sbe.initial_state. rewrite Hic. reflexivity. }
  assert (Hfix : forall t,
            Sbe.fnumba (Sbe.n p) electric_field t (ic ++ [c0]) rhs_eq (ic ++ [c0]) p dk
            = Ok (replicate (length (ic ++ [c0])) c0)).
  { intros t.
    destruct (equilibrium_rhs_vanishes p dipole_in_path e_in_path T1 T2 e_fermi
                temperature Hrows Hcols HNk Hn electric_field dk t HE Hdk)
      as (y0 & Hy0 & Hrun).
    rewrite Hstate in Hy0. injection Hy0 as <-. exact Hrun. }
  exists ic. split; [exact Hic|]. split; [exact Hstate|]. split; [exact Hfix|].
  intros HNt Hint.
  set (s0 := {| Sbe.solver_t := t_start; Sbe.solver_y := ic ++ [c0];
                Sbe.solver_successful := true |}).
  assert (Hafter : forall j,
            Sbe.solver_y (Sbe.solver_after integrate dt j s0) = ic ++ [c0]
            /\ Sbe.solver_successful (Sbe.solver_after integrate dt j s0) = true).
  { induction j as [|j [IHy IHs]]; [split; reflexivity|].
    change (Sbe.solver_after integrate dt (Datatypes.S j) s0)
      with (integrate (Sbe.solver_after integrate dt j s0)
              (cadd (Sbe.solver_t (Sbe.solver_after integrate dt j s0)) dt)).
    destruct (Hint (Sbe.solver_after integrate dt j s0)
                (cadd (Sbe.solver_t (Sbe.solver_after integrate dt j s0)) dt))
      as [Hy Hs].
    - intros t. rewrite IHy. apply Hfix.
    - split; [rewrite Hy; exact IHy | exact Hs]. }
  assert (Hsize : length ic = Sbe.Nk1 p * Sbe.n p * Sbe.n p).
  { rewrite Hlen, Hrows, Hcols. reflexivity. }
  destruct (time_loop_from integrate real_part progress_line electric_field
              (Sbe.n p) (Sbe.Nk1 p) Nt dt user_out s0 HNt
              ltac:(intros j _; rewrite (proj1 (Hafter j)), length_app, Hsize;
                    reflexivity)
              Nt Nt (Sbe.empty_containers Nt) ltac:(lia) ltac:(lia) ltac:(lia)
              ltac:(intros j _; exact (proj2 (Hafter j)))
              ltac:(lia)
              ltac:(apply length_replicate) ltac:(apply length_replicate)
              ltac:(apply length_replicate) ltac:(apply length_replicate))
    as (out & c' & Hrun & Hent).
  rewrite Nat.sub_diag in Hrun.
  exists out, (Sbe.solver_after integrate dt Nt s0), c'.
  split; [exact Hrun|]. split; [exact (proj1 (Hafter Nt))|].
  intros i Hi. destruct (Hent i) as (Hs & _).
  rewrite Hs, Nat.sub_diag.
  destruct (Nat.ltb_spec i Nt); [|lia].
  cbn [Nat.leb andb]. rewrite (proj1 (Hafter i)).
  rewrite take_app_length' by (symmetry; exact Hsize). reflexivity.
Qed.

Lemma step_by_zero (a h : C) : cadd a (cmul h c0) = a.
Proof.
  pose proof (@scalar_ring C SC LAWS) as R.
  rewrite (cmul_0_r h).
  rewrite (Radd_comm R), (Radd_0_l R). reflexivity.
Qed.
End Equilibrium_run.

Lemma euler_keeps_fixed_point (f : GQ -> list GQ -> outcome (list GQ))
    (s : Sbe.ode_solver GQ) (t' : GQ) :
  f (Sbe.solver_t s) (Sbe.solver_y s) = Ok (replicate (length (Sbe.solver_y s)) c0) ->
  Sbe.solver_y (Example.euler f s t') = Sbe.solver_y s
  /\ Sbe.solver_successful (Example.euler f s t') = true.
Proof.
  intros Hf. unfold Example.euler. rewrite Hf. cbn [Sbe.solver_y Sbe.solver_successful].
  split; [|reflexivity]. clear Hf.
  induction (Sbe.solver_y s) as [|a y IH]; [reflexivity|].
  cbn [length replicate zip_with].
  rewrite (@step_by_zero GQ GQ_scalar GQ_laws), IH. reflexivity.
Qed.

Lemma equilibrium_is_fixed_point_witness :
  exists ic,
    Sbe.initial_state (Example.gq 0 0) (Example.gq 0 0) (Example.two_bands 2)
    = Ok (ic ++ [c0])
    /\ (forall t, Sbe.fnumba 2 Example.field_off t (ic ++ [c0]) Example.rhs_two
                    (ic ++ [c0]) Example.p_two (Example.gq (1 # 2) 0)
                  = Ok (replicate (length (ic ++ [c0])) c0))
    /\ exists out s' c',
         Sbe.time_loop (Example.euler Example.rhs_field_off) (fun a => a)
           (fun _ _ => "progress"%string) Example.field_off 2 2 20
           (Example.gq 1 0) false false 20
           {| Sbe.solver_t := Example.gq (-10) 0; Sbe.solver_y := ic ++ [c0];
              Sbe.solver_successful := true |}
           (Sbe.empty_containers 20)
         = Py out (Ok (20, s', c'))
         /\ Sbe.solver_y s' = ic ++ [c0]
         /\ forall i, i < 20 -> Sbe.solution c' !! i = Some (Some ic).
Proof.
  destruct (equilibrium_is_fixed_point Example.p_two Example.dipole
              (Example.two_bands 2) (Example.gq 1000 0) (Example.gq 1 0)
              (Example.gq 0 0) (Example.gq 0 0) Example.field_off
              (Example.gq (1 # 2) 0) (Example.euler Example.rhs_field_off)
              (fun a => a) (fun _ _ => "progress"%string) 20 (Example.gq 1 0)
              (Example.gq (-10) 0) false
              eq_refl eq_refl ltac:(simpl; lia) ltac:(simpl; lia)
              (fun _ => eq_refl) ltac:(apply GQ_neq_intro; reflexivity))
    as (ic & _ & Hstate & Hfix & Hrun).
  exists ic. split; [exact Hstate|]. split; [exact Hfix|].
  apply Hrun; [lia|].
  intros s t' Hzero. apply euler_keeps_fixed_point.
  unfold Example.rhs_field_off, Example.equilibrium_two.
  rewrite Hstate. apply Hzero.
Defined.
